(** * bsce-mgrep: where-clause engine and match/filter pipeline

    A shallow embedding of the core of [bsce_mgrep] (tokenizer, recursive
    descent parser, evaluator, matcher, composite filter, pipeline and
    runner), followed by the properties established about it.

    Conventions of the embedding.
    - A Python [str] is a [string]; a character is a code point below 256,
      and the character classes of the [re] module ([\d], [\s], [\w], [.])
      are tabulated for that range.
    - A Python [int] is a [Z]; [bool] is a subclass of [int], which the
      comparison operators below make explicit.
    - [Result[T, E]] of the [result] package is the inductive [Result].
    - A raised exception is the constructor [Raise] carrying [str(e)];
      where the program has handlers for some classes of exceptions and
      not for others (the matcher and the runner), a call [Returns] or
      [Raises] an [Exception] of one of the classes told apart.
    - The interpreter's recursion limit is not modelled: the parser runs on
      fuel, and the fuel given by [Parser.parse] is shown to be enough. *)

From stdpp Require Import base option list gmap strings.
From Stdlib Require Import ZArith String Ascii List Bool Lia DecimalString.
Import ListNotations.

Local Open Scope Z_scope.
Local Open Scope string_scope.

(** ** Python primitives *)

Module Py.

Definition code (c : ascii) : nat := nat_of_ascii c.

Definition in_range (lo hi : nat) (c : ascii) : bool :=
  (lo <=? code c)%nat && (code c <=? hi)%nat.

(** [\d] *)
Definition is_digit (c : ascii) : bool := in_range 48 57 c.

(** [\s]: the Unicode white space below 256. *)
Definition is_space (c : ascii) : bool :=
  in_range 9 13 c || in_range 28 32 c
  || (code c =? 133)%nat || (code c =? 160)%nat.

Definition is_ascii_upper (c : ascii) : bool := in_range 65 90 c.
Definition is_ascii_lower (c : ascii) : bool := in_range 97 122 c.

(** [[a-zA-Z_]] and [[a-zA-Z0-9_]] *)
Definition is_ident_start (c : ascii) : bool :=
  is_ascii_lower c || is_ascii_upper c || (code c =? 95)%nat.
Definition is_ident_char (c : ascii) : bool :=
  is_ident_start c || is_digit c.

(** [\w], which decides [\b]: alphanumeric code points and the underscore. *)
Definition is_word (c : ascii) : bool :=
  is_ident_char c
  || (code c =? 170)%nat || in_range 178 179 c || (code c =? 181)%nat
  || in_range 185 186 c || in_range 188 190 c
  || in_range 192 214 c || in_range 216 246 c || in_range 248 255 c.

(** [.] without DOTALL *)
Definition is_dot (c : ascii) : bool := negb (code c =? 10)%nat.

(** [str.lower] on one code point. *)
Definition lower_char (c : ascii) : ascii :=
  if is_ascii_upper c || in_range 192 214 c || in_range 216 222 c
  then ascii_of_nat (code c + 32) else c.

(** [str.lower] on text of code points below 256, where it works
    character by character. *)
Fixpoint lower (s : string) : string :=
  match s with
  | EmptyString => EmptyString
  | String c r => String (lower_char c) (lower r)
  end.

Definition len (s : string) : nat := String.length s.

(** [s.startswith(t)] *)
Definition startswith (s t : string) : bool := String.prefix t s.

(** [t in s] *)
Fixpoint contains (s t : string) : bool :=
  String.prefix t s
  || match s with
     | EmptyString => false
     | String _ r => contains r t
     end.

Fixpoint drop (n : nat) (s : string) : string :=
  match n, s with
  | S k, String _ r => drop k r
  | _, _ => s
  end.

(** [s.endswith(t)] *)
Definition endswith (s t : string) : bool :=
  (len t <=? len s)%nat && String.eqb (drop (len s - len t) s) t.

(** [s[1:-1]] *)
Definition slice_1_m1 (s : string) : string :=
  String.substring 1 (len s - 2) s.

(** [s.replace(old, new)]: left to right, occurrences do not overlap.
    [skip] counts the characters of an occurrence still to be passed. *)
Fixpoint replace_from (old new : string) (skip : nat) (s : string) : string :=
  match s with
  | EmptyString => EmptyString
  | String c r =>
      match skip with
      | S k => replace_from old new k r
      | O =>
          if String.prefix old s
          then new ++ replace_from old new (len old - 1) r
          else String c (replace_from old new 0 r)
      end
  end.

(** With an empty [old] Python puts [new] in every gap. *)
Fixpoint intersperse (new s : string) : string :=
  match s with
  | EmptyString => new
  | String c r => new ++ String c (intersperse new r)
  end.

Definition replace (old new s : string) : string :=
  match old with
  | EmptyString => intersperse new s
  | _ => replace_from old new 0 s
  end.

(** [str(n)] for an integer. *)
Definition str_of_nat (n : nat) : string :=
  NilZero.string_of_uint (Nat.to_uint n).
Definition str_of_Z (z : Z) : string :=
  NilZero.string_of_int (Z.to_int z).

(** The limit of [int(str)] on the number of digits. *)
Definition int_max_str_digits : nat := 4300.

End Py.

(** ** [result]: success and failure values *)

Inductive Result (T E : Type) : Type :=
| Ok (ok_value : T)
| Err (err_value : E).
Arguments Ok {T E} ok_value.
Arguments Err {T E} err_value.

Definition is_ok {T E} (r : Result T E) : bool :=
  match r with Ok _ => true | Err _ => false end.

(** A computation that returns or raises; [Raise] carries [str(e)]. *)
Inductive exc (A : Type) : Type :=
| Return (a : A)
| Raise (msg : string).
Arguments Return {A} a.
Arguments Raise {A} msg.

Definition exc_bind {A B} (m : exc A) (k : A -> exc B) : exc B :=
  match m with
  | Return a => k a
  | Raise msg => Raise msg
  end.

(** An exception, as far as the handlers of the program tell the classes
    apart: [re.error], a broken pipe, an interrupt from the keyboard, and
    any other subclass of [Exception] ([OverflowError], [ValueError], ...).
    The text is [str(e)]. *)
Inductive Exception : Type :=
| ReError (message : string)
| BrokenPipeError (message : string)
| KeyboardInterrupt
| OtherError (message : string).

(** A call that returns, or that an exception leaves. *)
Inductive call (A : Type) : Type :=
| Returns (a : A)
| Raises (e : Exception).
Arguments Returns {A} a.
Arguments Raises {A} e.

(** ** domain/types.py *)

Module Types.

Record Line : Type := mkLine { number : Z; content : string }.

Definition length (l : Line) : Z := Z.of_nat (Py.len (content l)).
Definition contains (l : Line) (text : string) : bool :=
  Py.contains (content l) text.
Definition startswith (l : Line) (text : string) : bool :=
  Py.startswith (content l) text.
Definition endswith (l : Line) (text : string) : bool :=
  Py.endswith (content l) text.

(** [groups] is what [Match.groupdict()] returned: a named group that took
    no part in the match is present and holds [None]. *)
Record MatchContext : Type := mkMatchContext {
  line : Line;
  groups : gmap string (option string)
}.

Definition ErrorMessage : Type := string.
Definition LineResult : Type := Result Line ErrorMessage.
Definition MatchResult : Type := Result MatchContext ErrorMessage.

End Types.

(** ** domain/where_parser.py *)

Module WhereParser.
Import Types.

(** *** Values and AST *)

(** The objects the evaluator handles: [int], [str], [bool], and [None]
    when a capture group took no part in the match. *)
Inductive RuntimeValue : Type :=
| VInt (z : Z)
| VStr (s : string)
| VBool (b : bool)
| VNone.

Inductive ASTNode : Type :=
| Literal (value : RuntimeValue)
| Attribute (object attr : string)
| MethodCall (object method : string) (args : list string)
| GroupAccess (name : string)
| BinaryOp (left : ASTNode) (op : string) (right : ASTNode)
| UnaryOp (op : string) (operand : ASTNode).

(** *** Tokens *)

(** The names of [TOKEN_PATTERNS], in the order of the table. *)
Inductive TokenKind : Type :=
| NUMBER | STRING | GTE | LTE | EQ | NEQ | GT | LT
| AND | OR | NOT | IDENT | LPAREN | RPAREN | DOT | COMMA | WHITESPACE.

Definition kind_name (k : TokenKind) : string :=
  match k with
  | NUMBER => "NUMBER" | STRING => "STRING" | GTE => "GTE" | LTE => "LTE"
  | EQ => "EQ" | NEQ => "NEQ" | GT => "GT" | LT => "LT" | AND => "AND"
  | OR => "OR" | NOT => "NOT" | IDENT => "IDENT" | LPAREN => "LPAREN"
  | RPAREN => "RPAREN" | DOT => "DOT" | COMMA => "COMMA"
  | WHITESPACE => "WHITESPACE"
  end.

#[global] Instance TokenKind_eq_dec : EqDecision TokenKind.
Proof. solve_decision. Defined.

Record Token : Type := mkToken {
  type : TokenKind;
  value : string;
  position : nat
}.

(** *** The alternatives of [TOKEN_RE], each giving the length matched *)

Fixpoint span (p : ascii -> bool) (s : string) : nat :=
  match s with
  | String c r => if p c then S (span p r) else O
  | EmptyString => O
  end.

Definition nonzero (n : nat) : option nat :=
  match n with O => None | S _ => Some n end.

(** [-?\d+] *)
Definition match_number (s : string) : option nat :=
  match s with
  | String "-" r => S <$> nonzero (span Py.is_digit r)
  | _ => nonzero (span Py.is_digit s)
  end.

(** [([^q\\]|\\.)*q] after the opening quote [q]. *)
Fixpoint match_string_body (q : ascii) (s : string) : option nat :=
  match s with
  | EmptyString => None
  | String c r =>
      if Ascii.eqb c q then Some 1%nat
      else if Ascii.eqb c "\" then
        match r with
        | EmptyString => None
        | String d r' =>
            if Py.is_dot d then (fun n => S (S n)) <$> match_string_body q r'
            else None
        end
      else S <$> match_string_body q r
  end.

(** The STRING pattern: a double or a single quote, then the body closed
    by the same quote. *)
Definition match_string (s : string) : option nat :=
  match s with
  | String c r =>
      if Ascii.eqb c "034" || Ascii.eqb c "'"
      then S <$> match_string_body c r
      else None
  | EmptyString => None
  end.

Definition match_lit (lit s : string) : option nat :=
  if String.prefix lit s then Some (Py.len lit) else None.

Definition word_char (c : option ascii) : bool :=
  match c with Some c => Py.is_word c | None => false end.

Definition head (s : string) : option ascii :=
  match s with String c _ => Some c | EmptyString => None end.

(** [\bkw\b] for a keyword made of word characters: a boundary before it
    means that the previous character is not a word character, a boundary
    after it that the next one is not. *)
Definition match_keyword (kw : string) (prev : option ascii) (s : string)
  : option nat :=
  if negb (word_char prev) && String.prefix kw s
     && negb (word_char (head (Py.drop (Py.len kw) s)))
  then Some (Py.len kw) else None.

(** [[a-zA-Z_][a-zA-Z0-9_]*] *)
Definition match_ident (s : string) : option nat :=
  match s with
  | String c r =>
      if Py.is_ident_start c then Some (S (span Py.is_ident_char r)) else None
  | EmptyString => None
  end.

(** [\s+] *)
Definition match_whitespace (s : string) : option nat :=
  nonzero (span Py.is_space s).

Definition TOKEN_PATTERNS
  : list (TokenKind * (option ascii -> string -> option nat)) :=
  [ (NUMBER, fun _ => match_number);
    (STRING, fun _ => match_string);
    (GTE, fun _ => match_lit ">=");
    (LTE, fun _ => match_lit "<=");
    (EQ, fun _ => match_lit "==");
    (NEQ, fun _ => match_lit "!=");
    (GT, fun _ => match_lit ">");
    (LT, fun _ => match_lit "<");
    (AND, match_keyword "and");
    (OR, match_keyword "or");
    (NOT, match_keyword "not");
    (IDENT, fun _ => match_ident);
    (LPAREN, fun _ => match_lit "(");
    (RPAREN, fun _ => match_lit ")");
    (DOT, fun _ => match_lit ".");
    (COMMA, fun _ => match_lit ",");
    (WHITESPACE, fun _ => match_whitespace) ].

(** [TOKEN_RE] tried at one position: the first alternative that matches
    wins. [prev] is the character before the position. *)
Fixpoint first_match
    (alts : list (TokenKind * (option ascii -> string -> option nat)))
    (prev : option ascii) (s : string) : option (TokenKind * nat) :=
  match alts with
  | [] => None
  | (k, m) :: alts' =>
      match m prev s with
      | Some n => Some (k, n)
      | None => first_match alts' prev s
      end
  end.

Definition TOKEN_RE : option ascii -> string -> option (TokenKind * nat) :=
  first_match TOKEN_PATTERNS.

(** A match object: [lastgroup], [group()] and [start()]. *)
Record ReMatch : Type := mkReMatch {
  lastgroup : option TokenKind;
  group : string;
  start : nat
}.

Definition match_end (m : ReMatch) : nat := (start m + Py.len (group m))%nat.

(** [TOKEN_RE.finditer]: the matches from left to right. A position where
    no alternative matches is passed over and the search goes on at the
    next one. [skip] counts the characters of the last match still to be
    passed. *)
Fixpoint finditer_from (prev : option ascii) (pos skip : nat) (s : string)
  : list ReMatch :=
  match s with
  | EmptyString => []
  | String c r =>
      match skip with
      | S k => finditer_from (Some c) (S pos) k r
      | O =>
          match TOKEN_RE prev s with
          | Some (k, n) =>
              mkReMatch (Some k) (String.substring 0 n s) pos
              :: finditer_from (Some c) (S pos) (n - 1) r
          | None => finditer_from (Some c) (S pos) 0 r
          end
      end
  end.

Definition finditer (expression : string) : list ReMatch :=
  finditer_from None 0 0 expression.

(** *** [tokenize] *)

(** The state of the loop: the tokens so far and [position]; the loop
    leaves early with [Err]. *)
Fixpoint tokenize_loop (ms : list ReMatch) (tokens : list Token)
    (position : nat) : Result (list Token * nat) string :=
  match ms with
  | [] => Ok (tokens, position)
  | m :: ms' =>
      match lastgroup m with
      | Some WHITESPACE => tokenize_loop ms' tokens position
      | None =>
          Err ("Invalid character at position " ++ Py.str_of_nat (start m)
               ++ ": " ++ group m)
      | Some token_type =>
          tokenize_loop ms'
            (tokens ++ [mkToken token_type (group m) (start m)])
            (match_end m)
      end
  end.

Definition tokenize (expression : string) : Result (list Token) string :=
  match tokenize_loop (finditer expression) [] 0 with
  | Err e => Err e
  | Ok (tokens, position) =>
      if (position <? Py.len expression)%nat
      then Err ("Unexpected character at position " ++ Py.str_of_nat position
                ++ ": " ++ String.substring position 1 expression)
      else Ok tokens
  end.

(** *** [Parser] *)

(** The result of a parsing method run at a position of the token list:
    the value with the new [self.position], a raised [ValueError], or the
    fuel ran out. *)
Inductive pres (A : Type) : Type :=
| Val (a : A) (pos : nat)
| Exn (msg : string)
| Fuel.
Arguments Val {A} a pos.
Arguments Exn {A} msg.
Arguments Fuel {A}.

Definition P (A : Type) : Type := nat -> pres A.

Definition ret {A} (a : A) : P A := fun pos => Val a pos.
Definition raise {A} (msg : string) : P A := fun _ => Exn msg.
Definition out_of_fuel {A} : P A := fun _ => Fuel.
Definition bind {A B} (m : P A) (k : A -> P B) : P B :=
  fun pos =>
    match m pos with
    | Val a pos' => k a pos'
    | Exn msg => Exn msg
    | Fuel => Fuel
    end.

Declare Scope parser_scope.
Delimit Scope parser_scope with parser.
Notation "x <- m ; k" := (bind m (fun x => k))
  (at level 20, m at level 100, k at level 200, only parsing)
  : parser_scope.

Definition dquote : string := String "034" EmptyString.
Definition squote : string := "'".
Definition backslash : string := "\".

(** The value of a STRING token: the quotes removed, then the two
    [replace] calls. *)
Definition string_value (token_value : string) : string :=
  Py.replace (backslash ++ squote) squote
    (Py.replace (backslash ++ dquote) dquote (Py.slice_1_m1 token_value)).

(** [int(token.value)] on a lexeme of the NUMBER pattern. Other strings do
    not come out of the tokenizer; they are refused with the message of
    [int] for a plain string. *)
Definition int_of_str (s : string) : exc Z :=
  match NilZero.int_of_string s with
  | Some i =>
      let digits :=
        match s with
        | String "-" r => Py.len r
        | _ => Py.len s
        end in
      if (Py.int_max_str_digits <? digits)%nat
      then Raise ("Exceeds the limit (4300 digits) for integer string "
                  ++ "conversion: value has " ++ Py.str_of_nat digits
                  ++ " digits; use sys.set_int_max_str_digits() "
                  ++ "to increase the limit")
      else Return (Z.of_int i)
  | None =>
      Raise ("invalid literal for int() with base 10: '" ++ s ++ "'")
  end.

(** The comparator token types with their operator: the tuple tested in
    [parse_cmp_expr] and the keys of its [op_map] are the same six. *)
Definition op_map (k : TokenKind) : option string :=
  match k with
  | GT => Some ">" | LT => Some "<" | GTE => Some ">="
  | LTE => Some "<=" | EQ => Some "==" | NEQ => Some "!="
  | _ => None
  end.

Section Parser.
Variable tokens : list Token.
Local Open Scope parser_scope.

Definition current_token : P (option Token) :=
  fun pos => Val (tokens !! pos) pos.

Definition current_type : P (option TokenKind) :=
  fun pos => Val (type <$> tokens !! pos) pos.

Definition consume (expected_type : option TokenKind) : P Token :=
  fun pos =>
    match tokens !! pos with
    | None => Exn "Unexpected end of expression"
    | Some token =>
        match expected_type with
        | Some e =>
            if decide (type token = e) then Val token (S pos)
            else Exn ("Expected " ++ kind_name e ++ ", got "
                      ++ kind_name (type token) ++ " at position "
                      ++ Py.str_of_nat (position token))
        | None => Val token (S pos)
        end
    end.

Definition lift_exc {A} (m : exc A) : P A :=
  match m with
  | Return a => ret a
  | Raise msg => raise msg
  end.

(** The call of a method costs one unit of fuel; a [while] loop is the
    function [or_loop] (or [and_loop]) calling itself. *)
Fixpoint parse_or_expr (fuel : nat) : P ASTNode :=
  match fuel with
  | O => out_of_fuel
  | S fuel =>
      left <- parse_and_expr fuel ;
      or_loop fuel left
  end

with or_loop (fuel : nat) (left : ASTNode) : P ASTNode :=
  match fuel with
  | O => out_of_fuel
  | S fuel =>
      ty <- current_type ;
      match ty with
      | Some OR =>
          _ <- consume (Some OR) ;
          right <- parse_and_expr fuel ;
          or_loop fuel (BinaryOp left "or" right)
      | _ => ret left
      end
  end

with parse_and_expr (fuel : nat) : P ASTNode :=
  match fuel with
  | O => out_of_fuel
  | S fuel =>
      left <- parse_cmp_expr fuel ;
      and_loop fuel left
  end

with and_loop (fuel : nat) (left : ASTNode) : P ASTNode :=
  match fuel with
  | O => out_of_fuel
  | S fuel =>
      ty <- current_type ;
      match ty with
      | Some AND =>
          _ <- consume (Some AND) ;
          right <- parse_cmp_expr fuel ;
          and_loop fuel (BinaryOp left "and" right)
      | _ => ret left
      end
  end

with parse_cmp_expr (fuel : nat) : P ASTNode :=
  match fuel with
  | O => out_of_fuel
  | S fuel =>
      left <- parse_term fuel ;
      ty <- current_type ;
      match ty ≫= op_map with
      | Some op =>
          _ <- consume None ;
          right <- parse_term fuel ;
          ret (BinaryOp left op right)
      | None => ret left
      end
  end

with parse_term (fuel : nat) : P ASTNode :=
  match fuel with
  | O => out_of_fuel
  | S fuel =>
      ty <- current_type ;
      match ty with
      | Some NOT =>
          _ <- consume (Some NOT) ;
          operand <- parse_term fuel ;
          ret (UnaryOp "not" operand)
      | _ => parse_atom fuel
      end
  end

with parse_atom (fuel : nat) : P ASTNode :=
  match fuel with
  | O => out_of_fuel
  | S fuel =>
      token <- current_token ;
      match token with
      | None => raise "Unexpected end of expression"
      | Some token =>
          match type token with
          | LPAREN =>
              _ <- consume (Some LPAREN) ;
              expr <- parse_or_expr fuel ;
              _ <- consume (Some RPAREN) ;
              ret expr
          | NUMBER =>
              _ <- consume (Some NUMBER) ;
              n <- lift_exc (int_of_str (value token)) ;
              ret (Literal (VInt n))
          | STRING =>
              _ <- consume (Some STRING) ;
              ret (Literal (VStr (string_value (value token))))
          | IDENT =>
              ident_token <- consume (Some IDENT) ;
              let ident := value ident_token in
              ty <- current_type ;
              match ty with
              | Some DOT =>
                  _ <- consume (Some DOT) ;
                  member_token <- consume (Some IDENT) ;
                  let member := value member_token in
                  ty <- current_type ;
                  match ty with
                  | Some LPAREN =>
                      _ <- consume (Some LPAREN) ;
                      ty <- current_type ;
                      args <-
                        match ty with
                        | Some STRING =>
                            arg_token <- consume (Some STRING) ;
                            ret [string_value (value arg_token)]
                        | _ => ret []
                        end ;
                      _ <- consume (Some RPAREN) ;
                      ret (MethodCall ident member args)
                  | _ => ret (Attribute ident member)
                  end
              | Some LPAREN =>
                  _ <- consume (Some LPAREN) ;
                  if String.eqb ident "group" then
                    ty <- current_type ;
                    match ty with
                    | Some STRING =>
                        name_token <- consume (Some STRING) ;
                        _ <- consume (Some RPAREN) ;
                        ret (GroupAccess (string_value (value name_token)))
                    | _ => raise "group() requires string argument"
                    end
                  else raise ("Unknown function: " ++ ident)
              | _ => raise ("Unexpected identifier: " ++ ident)
              end
          | k => raise ("Unexpected token: " ++ kind_name k)
          end
      end
  end.

(** Fuel for a whole token list: six calls are made before a token is
    consumed. *)
Definition parse_fuel : nat := (6 * List.length tokens + 6)%nat.

(** [Parser(tokens).parse()]. Running out of fuel stands for the
    interpreter's [RecursionError], which the last handler would catch;
    with [parse_fuel] it does not happen: the recursion limit of the
    interpreter, at which the code returns this error for an expression
    that is nested deeply, is not modelled. *)
Definition parse : Result ASTNode string :=
  match parse_or_expr parse_fuel 0%nat with
  | Val ast pos =>
      match tokens !! pos with
      | Some token =>
          Err ("Unexpected token after expression: " ++ value token)
      | None => Ok ast
      end
  | Exn msg => Err msg
  | Fuel => Err "Parse error: maximum recursion depth exceeded"
  end.

End Parser.

Definition parse_where_expression (expr : string) : Result ASTNode string :=
  match tokenize expr with
  | Err e => Err e
  | Ok tokens => parse tokens
  end.

(** *** Evaluator *)

Definition type_name (v : RuntimeValue) : string :=
  match v with
  | VInt _ => "int" | VStr _ => "str" | VBool _ => "bool"
  | VNone => "NoneType"
  end.

(** [bool] is a subclass of [int]: [True] is 1 and [False] is 0. *)
Definition as_int (v : RuntimeValue) : option Z :=
  match v with
  | VInt z => Some z
  | VBool b => Some (Z.b2z b)
  | _ => None
  end.

(** [l == r] never raises; objects of unrelated types are unequal. *)
Definition py_eq (l r : RuntimeValue) : bool :=
  match l, r with
  | VStr a, VStr b => String.eqb a b
  | VNone, VNone => true
  | _, _ =>
      match as_int l, as_int r with
      | Some a, Some b => (a =? b)%Z
      | _, _ => false
      end
  end.

(** An ordering comparison: numbers with numbers, text with text (by code
    point); anything else is a [TypeError]. *)
Definition py_order (sym : string) (on_int : Z -> Z -> bool)
    (on_str : string -> string -> bool) (l r : RuntimeValue)
  : exc RuntimeValue :=
  match l, r with
  | VStr a, VStr b => Return (VBool (on_str a b))
  | _, _ =>
      match as_int l, as_int r with
      | Some a, Some b => Return (VBool (on_int a b))
      | _, _ =>
          Raise ("'" ++ sym ++ "' not supported between instances of '"
                 ++ type_name l ++ "' and '" ++ type_name r ++ "'")
      end
  end.

(** [bool(v)] *)
Definition truthy (v : RuntimeValue) : bool :=
  match v with
  | VInt z => negb (z =? 0)%Z
  | VStr s => negb (String.eqb s "")
  | VBool b => b
  | VNone => false
  end.

Definition binary_op (op : string) (left_val right_val : RuntimeValue)
  : exc RuntimeValue :=
  if String.eqb op ">" then
    py_order ">" Z.gtb (fun a b => String.ltb b a) left_val right_val
  else if String.eqb op "<" then
    py_order "<" Z.ltb String.ltb left_val right_val
  else if String.eqb op ">=" then
    py_order ">=" Z.geb (fun a b => String.leb b a) left_val right_val
  else if String.eqb op "<=" then
    py_order "<=" Z.leb String.leb left_val right_val
  else if String.eqb op "==" then
    Return (VBool (py_eq left_val right_val))
  else if String.eqb op "!=" then
    Return (VBool (negb (py_eq left_val right_val)))
  else if String.eqb op "and" then
    Return (VBool (truthy left_val && truthy right_val))
  else if String.eqb op "or" then
    Return (VBool (truthy left_val || truthy right_val))
  else Raise ("Unknown binary operator: " ++ op).

Definition unary_op (op : string) (operand_val : RuntimeValue)
  : exc RuntimeValue :=
  if String.eqb op "not" then Return (VBool (negb (truthy operand_val)))
  else Raise ("Unknown unary operator: " ++ op).

Definition line_attribute (l : Line) (attr : string) : exc RuntimeValue :=
  if String.eqb attr "length" then Return (VInt (Types.length l))
  else if String.eqb attr "number" then Return (VInt (number l))
  else if String.eqb attr "content" then Return (VStr (content l))
  else Raise ("Unknown line attribute: " ++ attr).

Definition one_argument (name : string) (f : string -> bool)
    (args : list string) : exc RuntimeValue :=
  match args with
  | [a] => Return (VBool (f a))
  | _ => Raise (name ++ "() requires exactly 1 argument")
  end.

Definition line_method (l : Line) (method : string) (args : list string)
  : exc RuntimeValue :=
  if String.eqb method "contains" then
    one_argument "contains" (Types.contains l) args
  else if String.eqb method "startswith" then
    one_argument "startswith" (Types.startswith l) args
  else if String.eqb method "endswith" then
    one_argument "endswith" (Types.endswith l) args
  else Raise ("Unknown line method: " ++ method).

Definition group_value (g : option string) : RuntimeValue :=
  match g with
  | Some s => VStr s
  | None => VNone
  end.

Fixpoint _evaluate_node (node : ASTNode) (context : MatchContext)
  : exc RuntimeValue :=
  match node with
  | Literal value => Return value
  | Attribute obj attr =>
      if String.eqb obj "line" then line_attribute (line context) attr
      else Raise ("Unknown object: " ++ obj)
  | MethodCall obj method args =>
      if String.eqb obj "line" then line_method (line context) method args
      else Raise ("Unknown object: " ++ obj)
  | GroupAccess name =>
      match groups context !! name with
      | Some g => Return (group_value g)
      | None => Raise ("Regex group not found: " ++ name)
      end
  | BinaryOp lhs op rhs =>
      exc_bind (_evaluate_node lhs context) (fun left_val =>
      exc_bind (_evaluate_node rhs context) (fun right_val =>
      binary_op op left_val right_val))
  | UnaryOp op operand =>
      exc_bind (_evaluate_node operand context) (fun operand_val =>
      unary_op op operand_val)
  end.

(** [evaluate_where]: any exception becomes an [Err]. *)
Definition evaluate_where (ast : ASTNode) (context : MatchContext)
  : Result RuntimeValue string :=
  match _evaluate_node ast context with
  | Return result => Ok result
  | Raise e => Err ("Evaluation error: " ++ e)
  end.

End WhereParser.

(** ** domain/filter.py *)

Module Filter.
Import Types WhereParser.

Definition FilterResult : Type := Result bool ErrorMessage.

(** The loop that parses the expressions: it stops at the first [Err]. *)
Fixpoint parse_all (expressions : list string) (parsed_asts : list ASTNode)
  : Result (list ASTNode) string :=
  match expressions with
  | [] => Ok parsed_asts
  | expr :: rest =>
      match parse_where_expression expr with
      | Ok ast => parse_all rest (parsed_asts ++ [ast])
      | Err error => Err error
      end
  end.

Fixpoint composite_filter (parsed_asts : list ASTNode)
    (context : MatchContext) : FilterResult :=
  match parsed_asts with
  | [] => Ok true
  | ast :: rest =>
      match evaluate_where ast context with
      | Ok value =>
          if negb (truthy value) then Ok false
          else composite_filter rest context
      | Err error => Err error
      end
  end.

Definition create_filter (expressions : list string)
  : MatchContext -> FilterResult :=
  match expressions with
  | [] => fun context => Ok true
  | _ =>
      match parse_all expressions [] with
      | Err err => fun context => Err ("Parse error: " ++ err)
      | Ok parsed_asts => composite_filter parsed_asts
      end
  end.

End Filter.

(** ** The [re] module, as far as the matcher uses it *)

Module Re.

(** A compiled pattern: [search] gives, for the leftmost match if there is
    one, its [groupdict()]: every named group of the pattern, with [None]
    for a group that took no part in the match. *)
Record Pattern : Type := mkPattern {
  search : string -> option (gmap string (option string))
}.

(** [re.compile(pattern, flags)]; the flag is [re.IGNORECASE]. The call
    returns the compiled pattern, raises [re.error] for a pattern it does
    not accept, or raises something else: [OverflowError] for a repetition
    count that is too large, as in [a{99999999999}]. *)
Class Engine : Type := {
  compile : string -> bool -> call Pattern
}.

End Re.

(** ** domain/matcher.py *)

Module Matcher.
Import Types.

Definition REGEX_DELIMITER : string := "/".
Definition MIN_REGEX_LENGTH : nat := 3.

Record MatchConfig : Type := mkMatchConfig {
  pattern : string;
  case_sensitive : bool
}.

Definition _is_regex_pattern (pattern : string) : bool :=
  (MIN_REGEX_LENGTH <=? Py.len pattern)%nat
  && Py.startswith pattern REGEX_DELIMITER
  && Py.endswith pattern REGEX_DELIMITER.

Definition no_match (l : Line) : MatchResult :=
  Err ("No match at line " ++ Py.str_of_Z (number l)).

Definition _create_literal_matcher (config : MatchConfig)
  : Line -> MatchResult :=
  let search_pattern :=
    if case_sensitive config then pattern config
    else Py.lower (pattern config) in
  let transform :=
    if case_sensitive config then (fun s => s) else Py.lower in
  fun l =>
    let transformed_content := transform (content l) in
    if Py.contains transformed_content search_pattern
    then Ok (mkMatchContext l ∅)
    else no_match l.

Section WithEngine.
Context `{Re.Engine}.

(** The handler around [re.compile] is for [re.error] only: any other
    exception leaves the function. *)
Definition _create_regex_matcher (config : MatchConfig)
  : call (Line -> MatchResult) :=
  let regex_pattern := Py.slice_1_m1 (pattern config) in
  match Re.compile regex_pattern (negb (case_sensitive config)) with
  | Raises (ReError e) =>
      let error_message := "Invalid regex pattern: " ++ e in
      Returns (fun l => Err error_message)
  | Raises other => Raises other
  | Returns compiled_regex =>
      Returns
        (fun l =>
           match Re.search compiled_regex (content l) with
           | Some groups => Ok (mkMatchContext l groups)
           | None => no_match l
           end)
  end.

(** The last case is reached with the empty pattern only, whose [repr]
    is two single quotes. *)
Definition create_matcher (config : MatchConfig)
  : call (Line -> MatchResult) :=
  if _is_regex_pattern (pattern config) then _create_regex_matcher config
  else if negb (String.eqb (pattern config) "")
  then Returns (_create_literal_matcher config)
  else Returns (fun l => Err ("Invalid pattern: " ++ "''")).

End WithEngine.

End Matcher.

(** ** domain/pipeline.py *)

Module Pipeline.
Import Types Filter.

Definition Outcome : Type := Result MatchContext string.

Section BuildPipeline.
Variable matcher : Line -> MatchResult.
Variable filter_fn : MatchContext -> FilterResult.

(** One [next()] on the generator: the loop runs over the input until
    a [yield]; the result is the value yielded and the input not yet
    read, or [None] when the input is exhausted. *)
Fixpoint pipeline_next (lines : list LineResult)
  : option (Outcome * list LineResult) :=
  match lines with
  | [] => None
  | line_result :: rest =>
      match line_result with
      | Err error => Some (Err error, rest)
      | Ok l =>
          match matcher l with
          | Err _ => pipeline_next rest
          | Ok context =>
              match filter_fn context with
              | Err error => Some (Err error, rest)
              | Ok passes =>
                  if passes then Some (Ok context, rest)
                  else pipeline_next rest
              end
          end
      end
  end.

(** The consumer's loop: [next()] until the generator stops. Every
    [next()] reads at least one item, so [fuel] as large as the input
    is enough. *)
Fixpoint drain (fuel : nat) (lines : list LineResult) : list Outcome :=
  match fuel with
  | O => []
  | S fuel =>
      match pipeline_next lines with
      | None => []
      | Some (outcome, rest) => outcome :: drain fuel rest
      end
  end.

(** [list(pipeline(iter(lines)))] *)
Definition pipeline (lines : list LineResult) : list Outcome :=
  drain (List.length lines) lines.

End BuildPipeline.

Definition build_pipeline (matcher : Line -> MatchResult)
    (filter_fn : MatchContext -> FilterResult)
  : list LineResult -> list Outcome :=
  pipeline matcher filter_fn.

End Pipeline.

(** ** ports/reader.py, adapters/input, adapters/output/line_emitter.py
    and cli/runner.py *)

Module Runner.
Import Types Filter Matcher Pipeline.

(** A reader of the [SourceReader] protocol: the items that [read_lines]
    yields and, where the generator does not simply stop behind them, the
    exception that leaves it. [FileReader] and [StdinReader] turn the
    errors they expect into a last [Err] item; an error they have no
    handler for is raised ([open] raises [ValueError] for a path that
    holds a null character). *)
Record SourceReader : Type := mkSourceReader {
  read_lines : list LineResult;
  read_raises : option Exception
}.

(** A [print] call that returned: the text, on [sys.stdout] or on
    [sys.stderr]. *)
Inductive Output : Type :=
| Stdout (text : string)
| Stderr (text : string).

(** What the run finds outside: whether stdin is piped, what [StdinReader()]
    reads, what [FileReader(filepath)] reads, and whether the [n]-th
    [print] call raises instead of writing (a pipe closed by its reader,
    an interrupt, a text that the stream cannot encode). *)
Record World : Type := mkWorld {
  stdin_is_piped : bool;
  StdinReader : SourceReader;
  FileReader : string -> SourceReader;
  print_raises : nat -> Output -> option Exception
}.

(** The [print] call that [LineEmitter(show_line_numbers=False).emit]
    makes for one result. *)
Definition output_of (result : Outcome) : Output :=
  match result with
  | Ok context => Stdout (content (line context))
  | Err error => Stderr ("Error: " ++ error)
  end.

(** The loop of [emit], its next [print] call being the [n]-th: the calls
    that returned and, when one raises, its exception, which ends the
    loop. *)
Fixpoint emit_from (world : World) (n : nat) (contexts : list Outcome)
  : call unit * list Output :=
  match contexts with
  | [] => (Returns tt, [])
  | result :: rest =>
      match print_raises world n (output_of result) with
      | Some e => (Raises e, [])
      | None =>
          let (outcome, outputs) := emit_from world (S n) rest in
          (outcome, output_of result :: outputs)
      end
  end.

(** [LineEmitter(show_line_numbers=False).emit] *)
Definition emit (world : World) (contexts : list Outcome)
  : call unit * list Output :=
  emit_from world 0 contexts.

Record CLIArgs : Type := mkCLIArgs {
  source : option string;
  pattern : string;
  case_sensitive : bool;
  where_clauses : list string
}.

Fixpoint is_blank (s : string) : bool :=
  match s with
  | EmptyString => true
  | String c r => Py.is_space c && is_blank r
  end.

Definition _select_reader (world : World) (source : option string)
  : Result SourceReader string :=
  match source with
  | None =>
      if stdin_is_piped world then Ok (StdinReader world)
      else Err ("No input source: provide a file path or pipe input "
                ++ "via stdin")
  | Some filepath =>
      if negb (is_blank filepath) then Ok (FileReader world filepath)
      else Err ("Invalid source: " ++ filepath)
  end.

(** The three handlers of [run]: what it returns when the exception
    reaches them. *)
Definition handled (e : Exception) : Result unit string :=
  match e with
  | BrokenPipeError _ => Ok tt
  | KeyboardInterrupt => Err "Interrupted by user"
  | ReError message | OtherError message =>
      Err ("Unexpected error: " ++ message)
  end.

(** [run]: what the call returns, or the exception that leaves it, and
    the [print] calls that returned. The matcher is created before the
    [try]: an exception of [create_matcher] leaves [run]. Inside the
    [try] the pipeline is drained by [emit]; an exception of a [print]
    call ends the loop, and an exception of the reader comes when the
    items before it have been printed. An interrupt is modelled where it
    arrives during a [print] call or in the reader. *)
Definition run `{Re.Engine} (world : World) (args : CLIArgs)
  : call (Result unit string) * list Output :=
  match _select_reader world (source args) with
  | Err error => (Returns (Err error), [])
  | Ok reader =>
      match
        create_matcher (mkMatchConfig (pattern args) (case_sensitive args))
      with
      | Raises e => (Raises e, [])
      | Returns matcher =>
          let filter_fn := create_filter (where_clauses args) in
          let pipeline := build_pipeline matcher filter_fn in
          let lines := read_lines reader in
          let contexts := pipeline lines in
          match emit world contexts, read_raises reader with
          | (Raises e, outputs), _ => (Returns (handled e), outputs)
          | (Returns _, outputs), Some e => (Returns (handled e), outputs)
          | (Returns _, outputs), None => (Returns (Ok tt), outputs)
          end
      end
  end.

(** A world with one file, whose [print] calls all return. *)
Definition one_file (path : string) (items : list LineResult) : World :=
  mkWorld false (mkSourceReader [] None)
    (fun filepath =>
       if String.eqb filepath path then mkSourceReader items None
       else mkSourceReader [Err ("File not found: " ++ filepath)] None)
    (fun _ _ => None).

End Runner.

(** ** A reference regex engine

    An executable [Re.Engine] for a fragment of the dialect: literals, [\d],
    sequence, alternation, greedy [?] and [*], and named groups, matched by
    backtracking, leftmost match first. It gives the examples concrete
    patterns to run on; the theorems about the matcher hold for every
    engine. *)

Module RefRegex.

Inductive Rx : Type :=
| RLit (s : string)
| RDigit
| RSeq (r1 r2 : Rx)
| RAlt (r1 r2 : Rx)
| ROpt (r : Rx)
| RStar (r : Rx)
| RGroup (name : string) (r : Rx).

Definition Captures : Type := gmap string string.
Definition Cont : Type := string -> Captures -> option Captures.

Definition fold_case (ignorecase : bool) (s : string) : string :=
  if ignorecase then Py.lower s else s.

Definition or_else (a b : option Captures) : option Captures :=
  match a with
  | Some x => Some x
  | None => b
  end.

(** [rx_match r s caps k]: match [r] at the start of [s], then go on with
    [k] on the rest; a failure of [k] makes the match try its next
    choice. *)
Fixpoint rx_match (ignorecase : bool) (r : Rx) (s : string)
    (caps : Captures) (k : Cont) : option Captures :=
  match r with
  | RLit lit =>
      let n := Py.len lit in
      if String.eqb (fold_case ignorecase (String.substring 0 n s))
                    (fold_case ignorecase lit)
         && (n <=? Py.len s)%nat
      then k (Py.drop n s) caps else None
  | RDigit =>
      match s with
      | String c s' => if Py.is_digit c then k s' caps else None
      | EmptyString => None
      end
  | RSeq r1 r2 =>
      rx_match ignorecase r1 s caps
        (fun s' caps' => rx_match ignorecase r2 s' caps' k)
  | RAlt r1 r2 =>
      or_else (rx_match ignorecase r1 s caps k)
              (rx_match ignorecase r2 s caps k)
  | ROpt r1 => or_else (rx_match ignorecase r1 s caps k) (k s caps)
  | RStar r1 =>
      (fix star (fuel : nat) (s : string) (caps : Captures) :=
         match fuel with
         | O => k s caps
         | S fuel =>
             or_else
               (rx_match ignorecase r1 s caps
                  (fun s' caps' =>
                     if (Py.len s' <? Py.len s)%nat then star fuel s' caps'
                     else None))
               (k s caps)
         end) (Py.len s) s caps
  | RGroup name r1 =>
      rx_match ignorecase r1 s caps
        (fun s' caps' =>
           k s' (<[name := String.substring 0 (Py.len s - Py.len s') s]>
                   caps'))
  end.

Fixpoint names (r : Rx) : list string :=
  match r with
  | RLit _ | RDigit => []
  | RSeq r1 r2 | RAlt r1 r2 => names r1 ++ names r2
  | ROpt r1 | RStar r1 => names r1
  | RGroup name r1 => name :: names r1
  end.

(** [groupdict()]: every declared name, [None] where nothing was
    captured. *)
Definition groupdict (r : Rx) (caps : Captures)
  : gmap string (option string) :=
  list_to_map (List.map (fun n => (n, caps !! n)) (names r)).

Fixpoint search_from (ignorecase : bool) (r : Rx) (s : string)
  : option (gmap string (option string)) :=
  match rx_match ignorecase r s ∅ (fun _ caps => Some caps) with
  | Some caps => Some (groupdict r caps)
  | None =>
      match s with
      | String _ s' => search_from ignorecase r s'
      | EmptyString => None
      end
  end.

Definition RPlus (r : Rx) : Rx := RSeq r (RStar r).

(** The patterns of the examples, with what [re.compile] makes of them. *)
Definition patterns : list (string * call Rx) :=
  [ ("a(?P<x>b)?",
     Returns (RSeq (RLit "a") (ROpt (RGroup "x" (RLit "b")))));
    ("status=(?P<code>\d+)",
     Returns (RSeq (RLit "status=") (RGroup "code" (RPlus RDigit))));
    ("(", Raises (ReError "missing ), unterminated subpattern at position 0"));
    ("a{99999999999}",
     Raises (OtherError "the repetition number is too large")) ].

Fixpoint assoc {A} (key : string) (table : list (string * A)) : option A :=
  match table with
  | [] => None
  | (k, v) :: table' => if String.eqb k key then Some v else assoc key table'
  end.

Definition engine : Re.Engine :=
  {| Re.compile p ignorecase :=
       match assoc p patterns with
       | Some (Returns r) => Returns (Re.mkPattern (search_from ignorecase r))
       | Some (Raises e) => Raises e
       | None => Raises (ReError "pattern outside the reference fragment")
       end |}.

End RefRegex.

(** ** domain/filter.py: the combinators of filter functions *)

Module FilterCombinators.
Import Types Filter.

Definition FilterFn : Type := MatchContext -> FilterResult.

(** The loop of [combine_filters_and]. *)
Fixpoint combined_and (filters : list FilterFn) (context : MatchContext)
  : FilterResult :=
  match filters with
  | [] => Ok true
  | filter_fn :: rest =>
      match filter_fn context with
      | Ok value => if negb value then Ok false else combined_and rest context
      | Err e => Err e
      end
  end.

Definition combine_filters_and (filters : list FilterFn) : FilterFn :=
  match filters with
  | [] => fun context => Ok true
  | _ => combined_and filters
  end.

(** The loop of [combine_filters_or]. *)
Fixpoint combined_or (filters : list FilterFn) (context : MatchContext)
  : FilterResult :=
  match filters with
  | [] => Ok false
  | filter_fn :: rest =>
      match filter_fn context with
      | Ok value => if value then Ok true else combined_or rest context
      | Err e => Err e
      end
  end.

Definition combine_filters_or (filters : list FilterFn) : FilterFn :=
  match filters with
  | [] => fun context => Ok false
  | _ => combined_or filters
  end.

Definition negate_filter (filter_fn : FilterFn) : FilterFn :=
  fun context =>
    match filter_fn context with
    | Ok value => Ok (negb value)
    | Err e => Err e
    end.

End FilterCombinators.

(** ** domain/pipeline.py: the other combinators *)

Module PipelineCombinators.
Import Types Filter Pipeline.

Definition build_simple_pipeline (matcher : Line -> MatchResult)
  : list LineResult -> list Outcome :=
  let no_filter : MatchContext -> FilterResult := fun ctx => Ok true in
  build_pipeline matcher no_filter.

(** The loop of [compose_matchers]: the first [Ok] is returned; the errors
    are gathered in [errors], which the final message does not use. *)
Fixpoint composite_loop (matchers : list (Line -> MatchResult)) (l : Line)
    (errors : list string) : option MatchResult :=
  match matchers with
  | [] => None
  | matcher :: rest =>
      match matcher l with
      | Ok context => Some (Ok context)
      | Err error => composite_loop rest l (errors ++ [error])
      end
  end.

Definition compose_matchers (matchers : list (Line -> MatchResult))
  : Line -> MatchResult :=
  match matchers with
  | [] => fun l => Err "No matchers provided"
  | _ =>
      fun l =>
        match composite_loop matchers l [] with
        | Some result => result
        | None =>
            Err ("No match (tried " ++ Py.str_of_nat (List.length matchers)
                 ++ " patterns)")
        end
  end.

(** [count_results]: the pair (success_count, error_count). *)
Fixpoint count_results_from (results : list Outcome)
    (success_count error_count : nat) : nat * nat :=
  match results with
  | [] => (success_count, error_count)
  | Ok _ :: rest => count_results_from rest (S success_count) error_count
  | Err _ :: rest => count_results_from rest success_count (S error_count)
  end.

Definition count_results (results : list Outcome) : nat * nat :=
  count_results_from results 0 0.

End PipelineCombinators.

(** ** cli/parser.py: the case mode *)

Module CliParser.

Definition _is_regex_pattern (pattern : string) : bool :=
  (3 <=? Py.len pattern)%nat
  && Py.startswith pattern "/"
  && Py.endswith pattern "/".

Definition _determine_case_sensitivity (pattern : string)
    (case_flag : option string) : bool :=
  match case_flag with
  | Some flag =>
      if String.eqb flag "sensitive" then true
      else if String.eqb flag "insensitive" then false
      else if _is_regex_pattern pattern then true else false
  | None => if _is_regex_pattern pattern then true else false
  end.

End CliParser.

(** ** cli/runner.py: [run_with_stats] *)

Module RunnerStats.
Import Types Filter Matcher Pipeline PipelineCombinators Runner.

(** The counting loop of [run_with_stats] is the one of [count_results].
    As in [run] the matcher is created before the [try]. Inside it nothing
    is printed; the exception of a reader reaches the one handler, which
    is for [Exception]: an interrupt, which is none, leaves the function. *)
Definition run_with_stats `{Re.Engine} (world : World) (args : CLIArgs)
  : call (Result (nat * nat) string) :=
  match _select_reader world (source args) with
  | Err error => Returns (Err error)
  | Ok reader =>
      match
        create_matcher
          (mkMatchConfig (Runner.pattern args) (Runner.case_sensitive args))
      with
      | Raises e => Raises e
      | Returns matcher =>
          let filter_fn := create_filter (where_clauses args) in
          let pipeline := build_pipeline matcher filter_fn in
          let lines := read_lines reader in
          let contexts := pipeline lines in
          match read_raises reader with
          | None => Returns (Ok (count_results contexts))
          | Some KeyboardInterrupt => Raises KeyboardInterrupt
          | Some (ReError message) | Some (BrokenPipeError message)
          | Some (OtherError message) =>
              Returns (Err ("Unexpected error: " ++ message))
          end
      end
  end.

End RunnerStats.

(** ** utils/railway.py *)

Module Railway.

Section Combinators.
Context {A B E F : Type}.

Definition bind (f : A -> Result B E) : Result A E -> Result B E :=
  fun result =>
    match result with
    | Ok value => f value
    | Err error => Err error
    end.

Definition map_result (f : A -> B) : Result A E -> Result B E :=
  fun result =>
    match result with
    | Ok value => Ok (f value)
    | Err error => Err error
    end.

Definition map_error (f : E -> F) : Result A E -> Result A F :=
  fun result =>
    match result with
    | Ok value => Ok value
    | Err error => Err (f error)
    end.

(** [filter_results], on a finite stream. *)
Definition filter_results (predicate : A -> bool) (error_message : E)
  : list (Result A E) -> list (Result A E) :=
  List.map (fun result =>
              match result with
              | Ok value => if predicate value then result
                            else Err error_message
              | Err _ => result
              end).

Definition collect_ok (results : list (Result A E)) : list A :=
  flat_map (fun result =>
              match result with Ok value => [value] | Err _ => [] end)
    results.

Definition collect_errors (results : list (Result A E)) : list E :=
  flat_map (fun result =>
              match result with Ok _ => [] | Err error => [error] end)
    results.

Definition unwrap_or (default : A) : Result A E -> A :=
  fun result =>
    match result with
    | Ok value => value
    | Err _ => default
    end.

Definition unwrap_or_else (f : E -> A) : Result A E -> A :=
  fun result =>
    match result with
    | Ok value => value
    | Err error => f error
    end.

End Combinators.

End Railway.

(** * Properties *)

(** ** The evaluator *)

Module EvaluatorProps.
Import Types WhereParser.

Definition is_text (v : RuntimeValue) : bool :=
  match v with VStr _ => true | _ => false end.

Definition sample_context : MatchContext :=
  mkMatchContext (mkLine 1 "status=500") ∅.

Lemma evaluate_where_Ok ast context v :
  evaluate_where ast context = Ok v <-> _evaluate_node ast context = Return v.
Proof.
  unfold evaluate_where.
  destruct (_evaluate_node ast context); split; congruence.
Qed.

Lemma evaluate_where_Err ast context :
  (exists e, evaluate_where ast context = Err e)
  <-> exists msg, _evaluate_node ast context = Raise msg.
Proof.
  unfold evaluate_where.
  destruct (_evaluate_node ast context); split; intros [x Hx];
    try discriminate; eauto.
Qed.

Lemma evaluate_where_BinaryOp l op r context vl vr :
  evaluate_where l context = Ok vl ->
  evaluate_where r context = Ok vr ->
  evaluate_where (BinaryOp l op r) context =
    match binary_op op vl vr with
    | Return v => Ok v
    | Raise e => Err ("Evaluation error: " ++ e)
    end.
Proof.
  rewrite !evaluate_where_Ok. intros Hl Hr.
  unfold evaluate_where. simpl. rewrite Hl, Hr. reflexivity.
Qed.

(** C9. [and] and [or] evaluate both operands: a failing operand fails
    the whole node whatever the other one is worth, with the error of the
    left operand when that one fails and with the error of the right one
    otherwise; and two values give the conjunction (disjunction) of their
    truthiness, which is the value itself for a boolean, being nonzero
    for an integer and being non-empty for text. Two literals are two
    such values. *)
Theorem C9_logical_operators_are_eager
    (context : MatchContext) (l r : ASTNode) (op : string) :
  op = "and" \/ op = "or" ->
  ((exists e, evaluate_where l context = Err e)
   \/ (exists e, evaluate_where r context = Err e) ->
   exists e, evaluate_where (BinaryOp l op r) context = Err e)
  /\ (forall vl vr,
        evaluate_where l context = Ok vl ->
        evaluate_where r context = Ok vr ->
        evaluate_where (BinaryOp l op r) context =
          Ok (VBool (if String.eqb op "and"
                     then truthy vl && truthy vr
                     else truthy vl || truthy vr)))
  /\ (forall b, truthy (VBool b) = b)
  /\ (forall z, truthy (VInt z) = true <-> z <> 0%Z)
  /\ (forall s, truthy (VStr s) = true <-> s <> "")
  /\ (forall e,
        evaluate_where l context = Err e ->
        evaluate_where (BinaryOp l op r) context = Err e)
  /\ (forall vl e,
        evaluate_where l context = Ok vl ->
        evaluate_where r context = Err e ->
        evaluate_where (BinaryOp l op r) context = Err e)
  /\ (forall vl vr,
        evaluate_where (BinaryOp (Literal vl) op (Literal vr)) context =
          Ok (VBool (if String.eqb op "and"
                     then truthy vl && truthy vr
                     else truthy vl || truthy vr))).
Proof.
  intros Hop. repeat apply conj.
  - rewrite !evaluate_where_Err. intros [[msg Hl] | [msg Hr]].
    + exists msg. simpl. now rewrite Hl.
    + simpl. rewrite Hr.
      destruct (_evaluate_node l context); simpl; eauto.
  - intros vl vr Hl Hr.
    rewrite (evaluate_where_BinaryOp _ _ _ _ _ _ Hl Hr).
    destruct Hop as [-> | ->]; reflexivity.
  - reflexivity.
  - intros z. simpl. rewrite negb_true_iff. apply Z.eqb_neq.
  - intros s. simpl. rewrite negb_true_iff. apply String.eqb_neq.
  - intros e. unfold evaluate_where. simpl.
    destruct (_evaluate_node l context); [discriminate |].
    now intros [= <-].
  - intros vl e. unfold evaluate_where. simpl.
    destruct (_evaluate_node l context); [| discriminate]. intros _.
    destruct (_evaluate_node r context); [discriminate |].
    now intros [= <-].
  - intros vl vr. destruct Hop as [-> | ->]; reflexivity.
Qed.

Lemma C9_logical_operators_are_eager_witness :
  evaluate_where
    (BinaryOp (Literal (VInt 0)) "and" (Attribute "line" "bogus"))
    sample_context
  = Err "Evaluation error: Unknown line attribute: bogus"
  /\ evaluate_where
       (BinaryOp (Literal (VInt 2)) "and" (Literal (VStr "")))
       sample_context
     = Ok (VBool false)
  /\ evaluate_where
       (BinaryOp (Attribute "line" "number") "or" (Literal (VStr "")))
       sample_context
     = Ok (VBool true).
Proof.
  split; [| split].
  - destruct (C9_logical_operators_are_eager sample_context
                (Literal (VInt 0)) (Attribute "line" "bogus") "and"
                (or_introl eq_refl))
      as (_ & _ & _ & _ & _ & _ & Hright & _).
    exact (Hright (VInt 0)
             "Evaluation error: Unknown line attribute: bogus"
             eq_refl eq_refl).
  - destruct (C9_logical_operators_are_eager sample_context
                (Literal (VInt 2)) (Literal (VStr "")) "and"
                (or_introl eq_refl))
      as (_ & Hvalues & _).
    exact (Hvalues (VInt 2) (VStr "") eq_refl eq_refl).
  - destruct (C9_logical_operators_are_eager sample_context
                (Attribute "line" "number") (Literal (VStr "")) "or"
                (or_intror eq_refl))
      as (_ & Hvalues & _).
    exact (Hvalues (VInt 1) (VStr "") eq_refl eq_refl).
Defined.

(** C2 as it is stated: two values of different types among integer, text
    and boolean, compared by any of the six operators, give an
    EvaluationError. *)
Definition C2_as_stated : Prop :=
  forall context l r vl vr op,
    evaluate_where l context = Ok vl ->
    evaluate_where r context = Ok vr ->
    vl <> VNone -> vr <> VNone ->
    type_name vl <> type_name vr ->
    In op [">"; "<"; ">="; "<="; "=="; "!="] ->
    exists e, evaluate_where (BinaryOp l op r) context = Err e.

(** An integer and a text compared with [==] give the boolean false, and a
    boolean is compared with an integer as a number. *)
Lemma mixed_comparisons_that_return :
  evaluate_where (BinaryOp (Literal (VInt 1)) "==" (Literal (VStr "a")))
    sample_context = Ok (VBool false)
  /\ evaluate_where (BinaryOp (Literal (VBool true)) ">" (Literal (VInt 0)))
       sample_context = Ok (VBool true).
Proof. split; reflexivity. Qed.

(** C2, as stated, fails at [1 == "a"]. *)
Lemma C2_counterexample : ~ C2_as_stated.
Proof.
  intros H.
  destruct (H sample_context (Literal (VInt 1)) (Literal (VStr "a"))
              (VInt 1) (VStr "a") "==" eq_refl eq_refl)
    as [e He];
    [discriminate | discriminate | discriminate | simpl; auto 10 |].
  rewrite (proj1 mixed_comparisons_that_return) in He. discriminate.
Qed.

(** C2, amended. Operands of different types among integer, text and
    boolean: when exactly one is text, the ordering operators return an
    EvaluationError, [==] returns false and [!=] returns true; an integer
    and a boolean are compared as numbers, true being 1 and false 0. *)
Theorem C2_comparison_of_different_types
    (context : MatchContext) (l r : ASTNode) (vl vr : RuntimeValue) :
  evaluate_where l context = Ok vl ->
  evaluate_where r context = Ok vr ->
  vl <> VNone -> vr <> VNone ->
  type_name vl <> type_name vr ->
  let cmp op := evaluate_where (BinaryOp l op r) context in
  if xorb (is_text vl) (is_text vr) then
    (forall op, In op [">"; "<"; ">="; "<="] ->
       cmp op = Err ("Evaluation error: '" ++ op
                     ++ "' not supported between instances of '"
                     ++ type_name vl ++ "' and '" ++ type_name vr ++ "'"))
    /\ cmp "==" = Ok (VBool false)
    /\ cmp "!=" = Ok (VBool true)
  else
    exists a b,
      as_int vl = Some a /\ as_int vr = Some b
      /\ cmp ">" = Ok (VBool (a >? b)%Z)
      /\ cmp "<" = Ok (VBool (a <? b)%Z)
      /\ cmp ">=" = Ok (VBool (a >=? b)%Z)
      /\ cmp "<=" = Ok (VBool (a <=? b)%Z)
      /\ cmp "==" = Ok (VBool (a =? b)%Z)
      /\ cmp "!=" = Ok (VBool (negb (a =? b)%Z)).
Proof.
  intros Hl Hr Hnl Hnr Hty cmp. unfold cmp.
  destruct vl, vr; try congruence; simpl in Hty; try congruence; simpl.
  all: try (repeat split;
            [ intros op Hin; simpl in Hin;
              rewrite (evaluate_where_BinaryOp _ _ _ _ _ _ Hl Hr);
              repeat (destruct Hin as [<- | Hin]; [reflexivity |]);
              contradiction
            | rewrite (evaluate_where_BinaryOp _ _ _ _ _ _ Hl Hr);
              reflexivity .. ]).
  all: eexists _, _; repeat split;
    rewrite (evaluate_where_BinaryOp _ _ _ _ _ _ Hl Hr); reflexivity.
Qed.

Lemma C2_comparison_of_different_types_witness :
  evaluate_where
    (BinaryOp (GroupAccess "code") "==" (Literal (VInt 500)))
    (mkMatchContext (mkLine 1 "status=500") {[ "code" := Some "500" ]})
  = Ok (VBool false).
Proof.
  pose proof
    (C2_comparison_of_different_types
       (mkMatchContext (mkLine 1 "status=500") {[ "code" := Some "500" ]})
       (GroupAccess "code") (Literal (VInt 500)) (VStr "500") (VInt 500)
       eq_refl eq_refl) as H.
  simpl in H.
  exact (proj1 (proj2 (H ltac:(discriminate) ltac:(discriminate)
                         ltac:(discriminate)))).
Defined.

End EvaluatorProps.

(** ** The pipeline *)

Module PipelineProps.
Import Types Filter Pipeline.

(** What one input item contributes to the outcome stream, in the words
    of the specification: a read error is passed on; a line the matcher
    rejects contributes nothing; a matched line contributes its context
    when the filter says true, nothing when it says false, and the
    error when the filter fails. *)
Definition outcomes_of_item (matcher : Line -> MatchResult)
    (filter_fn : MatchContext -> FilterResult) (item : LineResult)
  : list Outcome :=
  match item with
  | Err read_error => [Err read_error]
  | Ok l =>
      match matcher l with
      | Err _ => []
      | Ok context =>
          match filter_fn context with
          | Ok true => [Ok context]
          | Ok false => []
          | Err evaluation_error => [Err evaluation_error]
          end
      end
  end.

Section Generator.
Variable matcher : Line -> MatchResult.
Variable filter_fn : MatchContext -> FilterResult.

Let item := outcomes_of_item matcher filter_fn.
Let next := pipeline_next matcher filter_fn.

Lemma next_None lines :
  next lines = None -> flat_map item lines = [].
Proof.
  subst next item. induction lines as [| [l | e] rest IH]; simpl; auto.
  - destruct (matcher l) as [context |]; auto.
    destruct (filter_fn context) as [[|] |]; auto; discriminate.
  - discriminate.
Qed.

(** A [next()] reads the items up to the first one that yields, which
    contribute nothing, and that one; the rest is left unread. *)
Lemma next_Some lines outcome rest :
  next lines = Some (outcome, rest) ->
  exists skipped read,
    lines = (skipped ++ read :: rest)%list
    /\ flat_map item skipped = []
    /\ item read = [outcome].
Proof.
  subst next item. induction lines as [| [l | e] tail IH]; simpl.
  - discriminate.
  - intros Hnext.
    destruct (matcher l) as [context |] eqn:Hm.
    + destruct (filter_fn context) as [[|] |] eqn:Hf.
      * injection Hnext as <- <-. exists [], (Ok l). simpl.
        now rewrite Hm, Hf.
      * destruct (IH Hnext) as (skipped & read & -> & Hs & Hr).
        exists (Ok l :: skipped), read. simpl. now rewrite Hm, Hf.
      * injection Hnext as <- <-. exists [], (Ok l). simpl.
        now rewrite Hm, Hf.
    + destruct (IH Hnext) as (skipped & read & -> & Hs & Hr).
      exists (Ok l :: skipped), read. simpl. now rewrite Hm.
  - intros Hnext. injection Hnext as <- <-. now exists [], (Err e).
Qed.

Lemma drain_flat_map fuel lines :
  (List.length lines <= fuel)%nat ->
  drain matcher filter_fn fuel lines = flat_map item lines.
Proof.
  revert lines. induction fuel as [| fuel IH]; intros lines Hlen.
  - destruct lines; [reflexivity | simpl in Hlen; lia].
  - simpl. fold next. destruct (next lines) as [[outcome rest] |] eqn:Hn.
    + destruct (next_Some _ _ _ Hn) as (skipped & read & -> & Hs & Hr).
      rewrite flat_map_app, Hs. simpl. rewrite Hr. simpl.
      f_equal. apply IH.
      rewrite length_app in Hlen. simpl in Hlen. lia.
    + symmetry. now apply next_None.
Qed.

End Generator.

Lemma build_pipeline_flat_map matcher filter_fn lines :
  build_pipeline matcher filter_fn lines
  = flat_map (outcomes_of_item matcher filter_fn) lines.
Proof. apply drain_flat_map. reflexivity. Qed.

(** C7. The outcome stream of a finite input is the concatenation, in
    input order, of what each item contributes: a failed outcome for a
    read error, nothing for a line that does not match, and for a
    matched line the context, nothing or a failed outcome as the filter
    returns true, false or an error. Each [next()] reads no further than
    the item whose outcome it returns. *)
Theorem C7_pipeline_outcomes
    (matcher : Line -> MatchResult)
    (filter_fn : MatchContext -> FilterResult) (lines : list LineResult) :
  build_pipeline matcher filter_fn lines
  = flat_map (outcomes_of_item matcher filter_fn) lines
  /\ match pipeline_next matcher filter_fn lines with
     | None => flat_map (outcomes_of_item matcher filter_fn) lines = []
     | Some (outcome, rest) =>
         exists skipped read,
           lines = (skipped ++ read :: rest)%list
           /\ flat_map (outcomes_of_item matcher filter_fn) skipped = []
           /\ outcomes_of_item matcher filter_fn read = [outcome]
     end.
Proof.
  split.
  - apply build_pipeline_flat_map.
  - destruct (pipeline_next matcher filter_fn lines) as [[outcome rest] |]
      eqn:Hn.
    + now apply next_Some.
    + now apply next_None.
Qed.

End PipelineProps.

(** ** The parser *)

Module ParserProps.
Import Types WhereParser.

(** *** More fuel does not change a result *)

(** [r ⊑ r']: [r'] is [r], unless [r] ran out of fuel. *)
Definition pres_le {A} (r r' : pres A) : Prop := r = Fuel \/ r = r'.

Lemma pres_le_refl {A} (r : pres A) : pres_le r r.
Proof. now right. Qed.

Lemma bind_le {A B} (m m' : P A) (k k' : A -> P B) pos :
  pres_le (m pos) (m' pos) ->
  (forall a q, pres_le (k a q) (k' a q)) ->
  pres_le (bind m k pos) (bind m' k' pos).
Proof.
  unfold bind. intros [-> | <-] Hk; [now left |].
  destruct (m pos); [apply Hk | now right | now left].
Qed.

Section Fuel.
Variable tokens : list Token.

Ltac mono :=
  repeat first
    [ apply pres_le_refl
    | match goal with H : forall _, _ |- _ => apply H end
    | apply bind_le; [| intros ? ?]
    | case_match ].

Lemma fuel_monotone fuel :
  forall fuel', (fuel <= fuel')%nat ->
    (forall p, pres_le (parse_or_expr tokens fuel p)
                       (parse_or_expr tokens fuel' p))
    /\ (forall l p, pres_le (or_loop tokens fuel l p)
                            (or_loop tokens fuel' l p))
    /\ (forall p, pres_le (parse_and_expr tokens fuel p)
                          (parse_and_expr tokens fuel' p))
    /\ (forall l p, pres_le (and_loop tokens fuel l p)
                            (and_loop tokens fuel' l p))
    /\ (forall p, pres_le (parse_cmp_expr tokens fuel p)
                          (parse_cmp_expr tokens fuel' p))
    /\ (forall p, pres_le (parse_term tokens fuel p)
                          (parse_term tokens fuel' p))
    /\ (forall p, pres_le (parse_atom tokens fuel p)
                          (parse_atom tokens fuel' p)).
Proof.
  induction fuel as [| fuel IH]; intros fuel' Hle.
  { repeat split; intros; now left. }
  destruct fuel' as [| fuel']; [lia |].
  destruct (IH fuel' ltac:(lia)) as (Hor & Horl & Hand & Handl & Hcmp
                                      & Hterm & Hatom).
  clear IH.
  repeat split; intros;
    cbn [parse_or_expr or_loop parse_and_expr and_loop
         parse_cmp_expr parse_term parse_atom];
    mono.
Qed.

(** *** [parse_fuel] is enough *)

Let len := List.length tokens.

(** [r] did not run out of fuel and, if it is a value, its position is
    at least [lo] and inside the token list. *)
Definition advances {A} (lo : nat) (r : pres A) : Prop :=
  match r with
  | Fuel => False
  | Exn _ => True
  | Val _ q => (lo <= q <= len)%nat
  end.

Lemma adv_weaken {A} lo lo' (r : pres A) :
  advances lo' r -> (lo <= lo')%nat -> advances lo r.
Proof. destruct r; simpl; intros; lia || auto. Qed.

Lemma adv_bind {A B} lo1 lo (m : P A) (k : A -> P B) p :
  advances lo1 (m p) ->
  (forall a q, (lo1 <= q <= len)%nat -> advances lo (k a q)) ->
  advances lo (bind m k p).
Proof. unfold bind. destruct (m p); simpl; auto. Qed.

Lemma adv_bind_here {A B} lo (m : P A) (k : A -> P B) p :
  advances p (m p) ->
  (forall a q, (p <= q <= len)%nat -> advances lo (k a q)) ->
  advances lo (bind m k p).
Proof. apply adv_bind. Qed.

Lemma adv_consume e p : advances (S p) (consume tokens e p).
Proof.
  unfold consume. destruct (tokens !! p) as [t |] eqn:Ht; simpl; auto.
  apply lookup_lt_Some in Ht. fold len in Ht.
  destruct e; [destruct (decide _) |]; simpl; auto; lia.
Qed.

Lemma adv_current_type {A} lo (k : option TokenKind -> P A) p :
  advances lo (k (type <$> tokens !! p) p) ->
  advances lo (bind (current_type tokens) k p).
Proof. auto. Qed.

Lemma adv_current_token {A} lo (k : option Token -> P A) p :
  advances lo (k (tokens !! p) p) ->
  advances lo (bind (current_token tokens) k p).
Proof. auto. Qed.

Lemma adv_ret {A} lo (a : A) p :
  (lo <= p <= len)%nat -> advances lo (ret a p).
Proof. simpl. lia. Qed.

Lemma adv_raise {A} lo msg p : advances lo (@raise A msg p).
Proof. exact I. Qed.

Lemma adv_lift_exc {A} lo (m : exc A) p :
  (lo <= p <= len)%nat -> advances lo (lift_exc m p).
Proof. destruct m; simpl; auto. Qed.

(** The parsing methods consume a token when they return; the loops may
    return where they started. With [k] tokens left, [6 * k] units of
    fuel and a few more are enough. *)
Definition progress_at (p : nat) : Prop :=
  let k := (len - p)%nat in
  (forall f, (6 * k + 5 <= f)%nat ->
     advances (S p) (parse_or_expr tokens f p))
  /\ (forall f l, (6 * k + 1 <= f)%nat ->
        advances p (or_loop tokens f l p))
  /\ (forall f, (6 * k + 4 <= f)%nat ->
        advances (S p) (parse_and_expr tokens f p))
  /\ (forall f l, (6 * k + 1 <= f)%nat ->
        advances p (and_loop tokens f l p))
  /\ (forall f, (6 * k + 3 <= f)%nat ->
        advances (S p) (parse_cmp_expr tokens f p))
  /\ (forall f, (6 * k + 2 <= f)%nat ->
        advances (S p) (parse_term tokens f p))
  /\ (forall f, (6 * k + 1 <= f)%nat ->
        advances (S p) (parse_atom tokens f p)).

Ltac leaf :=
  first
    [ apply adv_consume
    | match goal with H : forall _, _ |- _ => apply H; lia end ].

Ltac advance :=
  repeat first
    [ apply adv_raise
    | apply adv_ret; lia
    | apply adv_lift_exc; lia
    | apply adv_current_type
    | apply adv_current_token
    | eapply adv_weaken; [leaf | lia]
    | eapply adv_bind; [leaf | intros ? ? ?]
    | apply adv_bind_here; [| intros ? ? ?]
    | case_match ].

Lemma progress n :
  forall p, (p <= len)%nat -> (len - p <= n)%nat -> progress_at p.
Proof.
  induction n as [n IH] using lt_wf_ind. intros p Hp Hn.
  assert (forall q f, (p < q <= len)%nat ->
            (6 * (len - q) + 5 <= f)%nat ->
            advances (S q) (parse_or_expr tokens f q)) as Hor.
  { intros q f Hq. apply (IH (len - q)%nat); lia. }
  assert (forall q f l, (p < q <= len)%nat ->
            (6 * (len - q) + 1 <= f)%nat ->
            advances q (or_loop tokens f l q)) as Horl.
  { intros q f l Hq. apply (IH (len - q)%nat); lia. }
  assert (forall q f, (p < q <= len)%nat ->
            (6 * (len - q) + 4 <= f)%nat ->
            advances (S q) (parse_and_expr tokens f q)) as Hand.
  { intros q f Hq. apply (IH (len - q)%nat); lia. }
  assert (forall q f l, (p < q <= len)%nat ->
            (6 * (len - q) + 1 <= f)%nat ->
            advances q (and_loop tokens f l q)) as Handl.
  { intros q f l Hq. apply (IH (len - q)%nat); lia. }
  assert (forall q f, (p < q <= len)%nat ->
            (6 * (len - q) + 3 <= f)%nat ->
            advances (S q) (parse_cmp_expr tokens f q)) as Hcmp.
  { intros q f Hq. apply (IH (len - q)%nat); lia. }
  assert (forall q f, (p < q <= len)%nat ->
            (6 * (len - q) + 2 <= f)%nat ->
            advances (S q) (parse_term tokens f q)) as Hterm.
  { intros q f Hq. apply (IH (len - q)%nat); lia. }
  clear IH.
  assert (forall f, (6 * (len - p) + 1 <= f)%nat ->
            advances (S p) (parse_atom tokens f p)) as Hatom0.
  { intros [| f] Hf; [lia |]. cbn [parse_atom]. advance. }
  assert (forall f, (6 * (len - p) + 2 <= f)%nat ->
            advances (S p) (parse_term tokens f p)) as Hterm0.
  { intros [| f] Hf; [lia |]. cbn [parse_term]. advance. }
  assert (forall f, (6 * (len - p) + 3 <= f)%nat ->
            advances (S p) (parse_cmp_expr tokens f p)) as Hcmp0.
  { intros [| f] Hf; [lia |]. cbn [parse_cmp_expr]. advance. }
  assert (forall f l, (6 * (len - p) + 1 <= f)%nat ->
            advances p (and_loop tokens f l p)) as Handl0.
  { intros [| f] l Hf; [lia |]. cbn [and_loop]. advance. }
  assert (forall f, (6 * (len - p) + 4 <= f)%nat ->
            advances (S p) (parse_and_expr tokens f p)) as Hand0.
  { intros [| f] Hf; [lia |]. cbn [parse_and_expr]. advance. }
  assert (forall f l, (6 * (len - p) + 1 <= f)%nat ->
            advances p (or_loop tokens f l p)) as Horl0.
  { intros [| f] l Hf; [lia |]. cbn [or_loop]. advance. }
  assert (forall f, (6 * (len - p) + 5 <= f)%nat ->
            advances (S p) (parse_or_expr tokens f p)) as Hor0.
  { intros [| f] Hf; [lia |]. cbn [parse_or_expr]. advance. }
  repeat split; assumption.
Qed.

(** The result of [parse_or_expr] under [parse] is never [Fuel]. *)
Lemma parse_fuel_enough :
  parse_or_expr tokens (parse_fuel tokens) 0%nat <> Fuel.
Proof.
  destruct (progress len 0%nat ltac:(lia) ltac:(lia)) as (Hor & _).
  specialize (Hor (parse_fuel tokens)). unfold parse_fuel in *.
  fold len in Hor |- *. intros Heq. rewrite Heq in Hor.
  apply Hor. lia.
Qed.

Lemma parse_or_expr_S f p :
  parse_or_expr tokens (S f) p
  = bind (parse_and_expr tokens f) (or_loop tokens f) p.
Proof. reflexivity. Qed.

Lemma parse_and_expr_S f p :
  parse_and_expr tokens (S f) p
  = bind (parse_cmp_expr tokens f) (and_loop tokens f) p.
Proof. reflexivity. Qed.

(** A loop whose next token is not its keyword returns what it has. *)
Lemma or_loop_stop f l p :
  type <$> tokens !! p <> Some OR -> or_loop tokens (S f) l p = Val l p.
Proof.
  intros Hty. cbn [or_loop]. unfold bind, current_type.
  destruct (type <$> tokens !! p) as [[] |]; congruence || reflexivity.
Qed.

Lemma and_loop_stop f l p :
  type <$> tokens !! p <> Some AND -> and_loop tokens (S f) l p = Val l p.
Proof.
  intros Hty. cbn [and_loop]. unfold bind, current_type.
  destruct (type <$> tokens !! p) as [[] |]; congruence || reflexivity.
Qed.

(** Two runs that both end agree, whatever their fuel. *)
Lemma parse_or_expr_fuel f f' p ast q :
  parse_or_expr tokens f p = Val ast q ->
  parse_or_expr tokens f' p <> Fuel ->
  parse_or_expr tokens f' p = Val ast q.
Proof.
  intros Hf Hf'.
  destruct (fuel_monotone f (Nat.max f f') ltac:(lia)) as (H1 & _).
  destruct (fuel_monotone f' (Nat.max f f') ltac:(lia)) as (H2 & _).
  destruct (H1 p) as [H1p | H1p]; [congruence |].
  destruct (H2 p) as [H2p | H2p]; congruence.
Qed.




End Fuel.

(** *** Comparisons *)

Definition clause (parts : list string) : string :=
  String.concat dquote parts.





(** *** [not] and boolean literals *)

Definition not_contains_x : ASTNode :=
  UnaryOp "not" (MethodCall "line" "contains" ["x"]).

Definition not_contains_x_is_true : string :=
  clause ["not line.contains("; "x"; ") == true"].

(** C6 as it is stated: the clause parses as the comparison of the negated
    call with the literal [true], which is true where the line does not
    contain [x]. *)
Definition C6_as_stated : Prop :=
  parse_where_expression not_contains_x_is_true
  = Ok (BinaryOp not_contains_x "==" (Literal (VBool true)))
  /\ forall context,
       Types.contains (line context) "x" = false ->
       evaluate_where (BinaryOp not_contains_x "==" (Literal (VBool true)))
         context = Ok (VBool true).

(** [true] is an identifier and the grammar has no boolean literal. *)
Lemma true_is_an_identifier :
  parse_where_expression not_contains_x_is_true
  = Err "Unexpected identifier: true".
Proof. reflexivity. Qed.

(** C6, as stated, fails: the clause does not parse. *)
Lemma C6_counterexample : ~ C6_as_stated.
Proof.
  intros [Hparse _]. rewrite true_is_an_identifier in Hparse. discriminate.
Qed.

(** C6, amended. [not line.contains("x") == true] is a ParseError
    (unexpected identifier [true]). [not] applies to the method call only:
    [not line.contains("x") == 1] parses as the comparison of the negated
    call with the literal 1, and that comparison, like the one with
    [Literal(True)], is true on every context whose line does not contain
    [x]. *)
Theorem C6_not_binds_tighter_than_comparison :
  parse_where_expression not_contains_x_is_true
  = Err "Unexpected identifier: true"
  /\ parse_where_expression (clause ["not line.contains("; "x"; ") == 1"])
     = Ok (BinaryOp not_contains_x "==" (Literal (VInt 1)))
  /\ forall context,
       Types.contains (line context) "x" = false ->
       evaluate_where (BinaryOp not_contains_x "==" (Literal (VInt 1)))
         context = Ok (VBool true)
       /\ evaluate_where
            (BinaryOp not_contains_x "==" (Literal (VBool true))) context
          = Ok (VBool true).
Proof.
  split; [reflexivity | split; [reflexivity |]].
  intros context Hx. unfold evaluate_where, not_contains_x.
  cbn. rewrite Hx. split; reflexivity.
Qed.

Lemma C6_not_binds_tighter_than_comparison_witness :
  evaluate_where (BinaryOp not_contains_x "==" (Literal (VBool true)))
    (mkMatchContext (mkLine 1 "INFO: ok") ∅)
  = Ok (VBool true).
Proof.
  exact (proj2 (proj2 (proj2 C6_not_binds_tighter_than_comparison)
                  (mkMatchContext (mkLine 1 "INFO: ok") ∅) eq_refl)).
Defined.

(** *** String literals *)



(** [replace] of a backslash and a quote [q] by [q], unfolded. *)
Definition escape_of (q : ascii) : string :=
  String "\" (String q EmptyString).
Definition bare (q : ascii) : string := String q EmptyString.

Lemma replace_escape_nil q : Py.replace (escape_of q) (bare q) "" = "".
Proof. reflexivity. Qed.

Lemma prefix_cons a s1 b s2 :
  String.prefix (String a s1) (String b s2)
  = Ascii.eqb a b && String.prefix s1 s2.
Proof.
  change (String.prefix (String a s1) (String b s2))
    with (if ascii_dec a b then String.prefix s1 s2 else false).
  destruct (ascii_dec a b) as [-> | Hab].
  - now rewrite Ascii.eqb_refl.
  - apply Ascii.eqb_neq in Hab. now rewrite Hab.
Qed.













Section Atoms.
Variable tokens : list Token.
Variables pos fuel : nat.

Ltac run :=
  cbn [parse_atom]; unfold bind, current_token, current_type, consume, ret;
  repeat first
    [ match goal with
      | H : tokens !! ?p = Some _ |- context [tokens !! ?p] => rewrite H
      | H : type ?t = _ |- context [type ?t] => rewrite H
      | H : value ?t = "group" |- context [value ?t] => rewrite H
      | |- context [decide (?k = ?k)] =>
          destruct (decide (k = k)) as [_ | ?]; [| congruence]
      end
    | progress cbn [fmap option_fmap option_map decide_rel
                    String.eqb Ascii.eqb Bool.eqb] ].




End Atoms.




End ParserProps.

(** ** The tokenizer *)

Module TokenizerProps.
Import WhereParser.

(** No match object of [TOKEN_RE] lacks a group name: every alternative is
    a named group, so the branch of [tokenize] that reports an invalid
    character is never taken. *)
Lemma finditer_from_lastgroup prev pos skip s m :
  In m (finditer_from prev pos skip s) -> lastgroup m <> None.
Proof.
  revert prev pos skip. induction s as [| c r IH]; intros prev pos skip.
  - intros [].
  - cbn [finditer_from]. destruct skip as [| k].
    + destruct (TOKEN_RE prev (String c r)) as [[k n] |].
      * intros [<- | Hin]; [discriminate | eauto].
      * eauto.
    + eauto.
Qed.

(** The text matched by the STRING pattern opens and closes with the same
    quote. *)
Lemma match_string_body_shape q s :
  (forall n, match_string_body q s = Some n ->
     exists mid, String.substring 0 n s = mid ++ String q "")
  /\ forall c n, match_string_body q (String c s) = Some n ->
       exists mid, String.substring 0 n (String c s) = mid ++ String q "".
Proof.
  induction s as [| d r [IH1 IH2]].
  - split; [discriminate |]. intros c n. cbn [match_string_body].
    destruct (Ascii.eqb_spec c q) as [-> | Hq].
    + intros [= <-]. now exists "".
    + destruct (Ascii.eqb c "\"); discriminate.
  - split; [apply IH2 |]. intros c n.
    change (match_string_body q (String c (String d r)))
      with (if Ascii.eqb c q then Some 1%nat
            else if Ascii.eqb c "\" then
              if Py.is_dot d
              then (fun n => S (S n)) <$> match_string_body q r
              else None
            else S <$> match_string_body q (String d r)).
    destruct (Ascii.eqb_spec c q) as [-> | Hq].
    + intros [= <-]. now exists "".
    + destruct (Ascii.eqb c "\").
      * destruct (Py.is_dot d); [| discriminate].
        destruct (match_string_body q r) as [n' |] eqn:Hr; [| discriminate].
        intros [= <-]. destruct (IH1 n' eq_refl) as [mid Hmid].
        exists (String c (String d mid)). simpl. now rewrite Hmid.
      * destruct (match_string_body q (String d r)) as [n' |] eqn:Hr;
          [| discriminate].
        intros [= <-]. destruct (IH2 d n' Hr) as [mid Hmid].
        exists (String c mid).
        change (String.substring 0 (S n') (String c (String d r)))
          with (String c (String.substring 0 n' (String d r))).
        now rewrite Hmid.
Qed.

Lemma match_string_shape s n :
  match_string s = Some n ->
  exists q mid, String.substring 0 n s = String q (mid ++ String q "").
Proof.
  destruct s as [| c r]; [discriminate |]. cbn [match_string].
  destruct (_ || _); [| discriminate].
  destruct (match_string_body c r) as [n' |] eqn:Hbody; [| discriminate].
  intros [= <-]. destruct (proj1 (match_string_body_shape c r) n' Hbody)
    as [mid Hmid].
  exists c, mid. simpl. now rewrite Hmid.
Qed.

Lemma TOKEN_RE_STRING prev s n :
  TOKEN_RE prev s = Some (STRING, n) -> match_string s = Some n.
Proof.
  unfold TOKEN_RE, TOKEN_PATTERNS. cbn [first_match].
  destruct (match_number s); [discriminate |].
  destruct (match_string s); [congruence |].
  repeat (case_match; [discriminate |]). discriminate.
Qed.

Lemma finditer_from_STRING prev pos skip s m :
  In m (finditer_from prev pos skip s) ->
  lastgroup m = Some STRING ->
  exists q mid, group m = String q (mid ++ String q "").
Proof.
  revert prev pos skip. induction s as [| c r IH]; intros prev pos skip.
  - intros [].
  - cbn [finditer_from]. destruct skip as [| k]; [| eauto].
    destruct (TOKEN_RE prev (String c r)) as [[k n] |] eqn:Hre; [| eauto].
    intros [<- | Hin]; [| eauto]. cbn [lastgroup group].
    intros [= ->]. eapply match_string_shape, TOKEN_RE_STRING, Hre.
Qed.

Lemma tokenize_loop_tokens ms : forall acc position tokens position' tok,
  tokenize_loop ms acc position = Ok (tokens, position') ->
  In tok tokens ->
  In tok acc
  \/ exists m, In m ms /\ lastgroup m = Some (type tok) /\ group m = value tok.
Proof.
  induction ms as [| m ms IH]; intros acc position tokens position' tok.
  - intros [= <- <-] Hin. now left.
  - cbn [tokenize_loop].
    destruct (lastgroup m) as [k |] eqn:Hk; [| discriminate].
    assert (forall acc' position0,
              tokenize_loop ms acc' position0 = Ok (tokens, position') ->
              (forall t, In t acc' ->
                 In t acc \/ (lastgroup m = Some (type t)
                              /\ group m = value t)) ->
              In tok tokens ->
              In tok acc
              \/ exists m0, In m0 (m :: ms) /\ lastgroup m0 = Some (type tok)
                            /\ group m0 = value tok) as Hstep.
    { intros acc' position0 Hloop Hacc Hin.
      destruct (IH _ _ _ _ _ Hloop Hin) as [Hin' | (m0 & Hm0 & Hm0')].
      - destruct (Hacc _ Hin') as [? | ?]; [now left |].
        right. exists m. split; [now left | assumption].
      - right. exists m0. split; [now right | assumption]. }
    destruct k; intros Hloop Hin;
      (eapply Hstep; [exact Hloop | | exact Hin]);
      intros t Ht; try (now left);
      (apply in_app_or in Ht as [Ht | [<- | []]]; [now left |]);
      right; rewrite Hk; now split.
Qed.

(** Every STRING token that [tokenize] returns has a first and a last
    character, the same quote. *)
Lemma tokenize_STRING_tokens expression tokens tok :
  tokenize expression = Ok tokens ->
  In tok tokens ->
  type tok = STRING ->
  exists q mid, value tok = String q (mid ++ String q "").
Proof.
  unfold tokenize.
  destruct (tokenize_loop (finditer expression) [] 0)
    as [[tokens' position] |] eqn:Hloop; [| discriminate].
  destruct (_ <? _)%nat; [discriminate |].
  intros [= <-] Hin Hty.
  destruct (tokenize_loop_tokens _ _ _ _ _ _ Hloop Hin)
    as [[] | (m & Hm & Hgroup & <-)].
  rewrite Hty in Hgroup. eapply finditer_from_STRING; eauto.
Qed.

(** C3 at its failing inputs. A character that no pattern matches is
    passed over when a token follows it: [@] disappears and the clause
    tokenizes. White space after the last token is an error, and the offset
    reported after [a @] is that of the blank, not of [@]. *)
Theorem C3_tokenize_passes_over_unmatched_characters :
  tokenize "line.length @ 5"
  = Ok [mkToken IDENT "line" 0; mkToken DOT "." 4; mkToken IDENT "length" 5;
        mkToken NUMBER "5" 14]
  /\ tokenize "line.length > 5 " = Err "Unexpected character at position 15:  "
  /\ tokenize "a @" = Err "Unexpected character at position 1:  ".
Proof. repeat split; reflexivity. Qed.

End TokenizerProps.

(** ** The composite filter *)

Module FilterProps.
Import Types WhereParser Filter Matcher Pipeline Runner PipelineProps.

Lemma parse_all_first_error pre bad post e acc :
  Forall (fun expr => is_ok (parse_where_expression expr) = true) pre ->
  parse_where_expression bad = Err e ->
  parse_all (pre ++ bad :: post)%list acc = Err e.
Proof.
  intros Hpre Hbad. revert acc.
  induction Hpre as [| expr pre Hexpr _ IH]; intros acc; simpl.
  - now rewrite Hbad.
  - destruct (parse_where_expression expr); [apply IH | discriminate].
Qed.

(** C1 as it is stated: when a where-clause does not parse, the run fails
    and nothing is written for any line. *)
Definition C1_as_stated : Prop :=
  forall (engine : Re.Engine) world args,
    (exists expr e,
       In expr (where_clauses args) /\ parse_where_expression expr = Err e) ->
    exists e, @run engine world args = (Returns (Err e), []).

(** With a clause that does not parse the run is not stopped. It reads
    every line, reports the parse error once for each line that matches,
    and ends normally. *)
Lemma run_with_unparsable_clause :
  parse_where_expression "line.length @ 5"
  = Err "Unexpected token after expression: 5"
  /\ @run RefRegex.engine
       (one_file "app.log"
          [Ok (mkLine 1 "ERROR: timeout"); Ok (mkLine 2 "INFO: ok");
           Ok (mkLine 3 "error again")])
       (mkCLIArgs (Some "app.log") "ERROR" false ["line.length @ 5"])
     = (Returns (Ok tt),
        [Stderr "Error: Parse error: Unexpected token after expression: 5";
         Stderr "Error: Parse error: Unexpected token after expression: 5"]).
Proof. split; reflexivity. Qed.

(** C1, as stated, fails on that run. *)
Lemma C1_counterexample : ~ C1_as_stated.
Proof.
  intros H.
  destruct (H RefRegex.engine
              (one_file "app.log"
                 [Ok (mkLine 1 "ERROR: timeout"); Ok (mkLine 2 "INFO: ok");
                  Ok (mkLine 3 "error again")])
              (mkCLIArgs (Some "app.log") "ERROR" false ["line.length @ 5"]))
    as [e He].
  - exists "line.length @ 5", "Unexpected token after expression: 5".
    split; [now left | reflexivity].
  - rewrite (proj2 run_with_unparsable_clause) in He. discriminate.
Qed.

(** C1, amended. When a where-clause does not parse, [create_filter] still
    returns a filter: one that fails on every context with the message of
    the first clause that does not parse. The pipeline then gives that
    failed outcome for every line that matches, passes read errors on, and
    gives no successful outcome. *)
Theorem C1_parse_failure_is_reported_per_line
    (pre : list string) (bad : string) (post : list string) (e : string) :
  Forall (fun expr => is_ok (parse_where_expression expr) = true) pre ->
  parse_where_expression bad = Err e ->
  let filter_fn := create_filter (pre ++ bad :: post)%list in
  (forall context, filter_fn context = Err ("Parse error: " ++ e))
  /\ forall matcher lines,
       build_pipeline matcher filter_fn lines
       = flat_map
           (fun item : LineResult =>
              match item with
              | Err read_error => [Err read_error]
              | Ok l =>
                  match matcher l with
                  | Ok _ => [Err ("Parse error: " ++ e)]
                  | Err _ => []
                  end
              end) lines.
Proof.
  intros Hpre Hbad filter_fn.
  assert (forall context, filter_fn context = Err ("Parse error: " ++ e))
    as Hfilter.
  { intros context. subst filter_fn. unfold create_filter.
    rewrite (parse_all_first_error pre bad post e [] Hpre Hbad).
    destruct (pre ++ bad :: post)%list eqn:Hnil; [| reflexivity].
    destruct pre; discriminate. }
  split; [exact Hfilter |].
  intros matcher lines. rewrite build_pipeline_flat_map.
  apply flat_map_ext. intros [l | read_error]; simpl; [| reflexivity].
  destruct (matcher l) as [context |]; [| reflexivity].
  now rewrite Hfilter.
Qed.

Lemma C1_parse_failure_is_reported_per_line_witness :
  create_filter ["line.length > 3"; "line.length @ 5"; "line.number > 0"]
    (mkMatchContext (mkLine 1 "ERROR: timeout") ∅)
  = Err "Parse error: Unexpected token after expression: 5".
Proof.
  exact (proj1 (C1_parse_failure_is_reported_per_line
                  ["line.length > 3"] "line.length @ 5" ["line.number > 0"]
                  "Unexpected token after expression: 5"
                  (Forall_cons _ "line.length > 3" [] eq_refl (Forall_nil _))
                  eq_refl)
           (mkMatchContext (mkLine 1 "ERROR: timeout") ∅)).
Defined.

End FilterProps.

(** ** The matcher *)

Module MatcherProps.
Import Types Filter Runner Matcher Pipeline PipelineProps.

(** The regex matcher hands over [groupdict()] as it is. *)
Lemma regex_matcher_groups `{Re.Engine} config compiled l groups :
  Re.compile (Py.slice_1_m1 (pattern config)) (negb (case_sensitive config))
  = Returns compiled ->
  Re.search compiled (content l) = Some groups ->
  exists matcher,
    _create_regex_matcher config = Returns matcher
    /\ matcher l = Ok (mkMatchContext l groups).
Proof.
  intros Hc Hs. unfold _create_regex_matcher. rewrite Hc.
  eexists. split; [reflexivity |]. cbv beta. now rewrite Hs.
Qed.

(** C4 at its failing input: the optional group [x] takes no part in the
    match of [a(?P<x>b)?] on the line [a], and the context maps it to
    [None], which is no text. *)
Theorem C4_optional_group_is_None :
  exists matcher,
    @create_matcher RefRegex.engine (mkMatchConfig "/a(?P<x>b)?/" true)
    = Returns matcher
    /\ matcher (mkLine 1 "a")
       = Ok (mkMatchContext (mkLine 1 "a") {[ "x" := None ]}).
Proof. eexists. split; reflexivity. Qed.








End MatcherProps.

(** * Further properties *)

(** ** The evaluator: laws of the operators *)

Module EvaluatorLaws.
Import Types WhereParser EvaluatorProps.

(** Two values the ordering operators accept: two numbers (booleans
    counting as 1 and 0) or two texts. *)
Definition comparable (vl vr : RuntimeValue) : bool :=
  match vl, vr with
  | VStr _, VStr _ => true
  | _, _ =>
      match as_int vl, as_int vr with
      | Some _, Some _ => true
      | _, _ => false
      end
  end.

Lemma string_ltb_flip a b :
  String.ltb b a = match String.compare a b with Gt => true | _ => false end.
Proof.
  unfold String.ltb. rewrite (String.compare_antisym b a).
  destruct (String.compare a b); reflexivity.
Qed.

Lemma string_leb_flip a b :
  String.leb b a = match String.compare a b with Lt => false | _ => true end.
Proof.
  unfold String.leb. rewrite (String.compare_antisym b a).
  destruct (String.compare a b); reflexivity.
Qed.

Lemma string_eqb_compare a b :
  String.eqb a b = match String.compare a b with Eq => true | _ => false end.
Proof.
  destruct (String.eqb_spec a b) as [-> | Hne].
  - assert (H : String.compare b b = Eq).
    { induction b as [| c b IH]; simpl; [reflexivity |].
      assert (Hc : Ascii.compare c c = Eq).
      { unfold Ascii.compare. apply N.compare_refl. }
      now rewrite Hc. }
    now rewrite H.
  - destruct (String.compare a b) eqn:Hc; try reflexivity.
    apply String.compare_eq_iff in Hc. contradiction.
Qed.

(** X1. On two numbers or two texts the six comparison operators never
    fail and describe one total order: exactly one of [<], [==], [>]
    holds, [>=] is the negation of [<], [<=] the negation of [>] and
    [!=] the negation of [==]. *)
Theorem comparisons_form_a_total_order
    (context : MatchContext) (l r : ASTNode) (vl vr : RuntimeValue) :
  evaluate_where l context = Ok vl ->
  evaluate_where r context = Ok vr ->
  comparable vl vr = true ->
  let cmp op := evaluate_where (BinaryOp l op r) context in
  exists lt eq gt : bool,
    cmp "<" = Ok (VBool lt) /\ cmp "==" = Ok (VBool eq)
    /\ cmp ">" = Ok (VBool gt)
    /\ cmp ">=" = Ok (VBool (negb lt))
    /\ cmp "<=" = Ok (VBool (negb gt))
    /\ cmp "!=" = Ok (VBool (negb eq))
    /\ In (lt, eq, gt) [(true, false, false); (false, true, false);
                       (false, false, true)].
Proof.
  intros Hl Hr Hc cmp. unfold cmp.
  rewrite !(evaluate_where_BinaryOp _ _ _ _ _ _ Hl Hr).
  assert (Hint : forall a b : Z,
    exists lt eq gt : bool,
      (a <? b)%Z = lt /\ (a =? b)%Z = eq /\ (a >? b)%Z = gt
      /\ (a >=? b)%Z = negb lt /\ (a <=? b)%Z = negb gt
      /\ In (lt, eq, gt) [(true, false, false); (false, true, false);
                         (false, false, true)]).
  { intros a b. exists (a <? b)%Z, (a =? b)%Z, (a >? b)%Z.
    rewrite Z.eqb_compare. unfold Z.ltb, Z.gtb, Z.geb, Z.leb.
    destruct (a ?= b)%Z; simpl; auto 10. }
  destruct vl as [a | a | a |], vr as [b | b | b |]; try discriminate;
    simpl.
  all: first
    [ match goal with
      | |- context [Ok (VBool (?x <? ?y)%Z)] =>
          destruct (Hint x y)
            as (lt & eq & gt & <- & <- & <- & Hge & Hle & Hin)
      end;
      eexists _, _, _; rewrite Hge, Hle; repeat split; try reflexivity;
      exact Hin
    | exists (String.ltb a b), (String.eqb a b), (String.ltb b a);
      rewrite (string_leb_flip a b), (string_ltb_flip a b),
        string_eqb_compare;
      unfold String.ltb, String.leb;
      repeat split; try reflexivity;
      destruct (String.compare a b); try reflexivity; simpl; auto ].
Qed.

Lemma comparisons_form_a_total_order_witness :
  exists lt eq gt : bool,
    evaluate_where (BinaryOp (Attribute "line" "content") "<"
                      (Literal (VStr "status=9"))) sample_context
    = Ok (VBool lt)
    /\ evaluate_where (BinaryOp (Attribute "line" "content") "=="
                         (Literal (VStr "status=9"))) sample_context
       = Ok (VBool eq)
    /\ evaluate_where (BinaryOp (Attribute "line" "content") ">"
                         (Literal (VStr "status=9"))) sample_context
       = Ok (VBool gt)
    /\ In (lt, eq, gt) [(true, false, false); (false, true, false);
                       (false, false, true)].
Proof.
  destruct (comparisons_form_a_total_order sample_context
              (Attribute "line" "content") (Literal (VStr "status=9"))
              (VStr "status=500") (VStr "status=9")
              eq_refl eq_refl eq_refl)
    as (lt & eq & gt & Hlt & Heq & Hgt & _ & _ & _ & Hin).
  exists lt, eq, gt. auto.
Defined.

(** X2. De Morgan's laws hold exactly, errors included: [not (a and b)]
    evaluates to what [(not a) or (not b)] evaluates to, and
    [not (a or b)] to what [(not a) and (not b)] evaluates to, for all
    operands and every context. A double negation gives the truth value
    of its operand, not the operand. *)
Theorem de_morgan
    (context : MatchContext) (a b : ASTNode) :
  evaluate_where (UnaryOp "not" (BinaryOp a "and" b)) context
  = evaluate_where (BinaryOp (UnaryOp "not" a) "or" (UnaryOp "not" b))
      context
  /\ evaluate_where (UnaryOp "not" (BinaryOp a "or" b)) context
     = evaluate_where (BinaryOp (UnaryOp "not" a) "and" (UnaryOp "not" b))
         context
  /\ evaluate_where (UnaryOp "not" (UnaryOp "not" a)) context
     = match evaluate_where a context with
       | Ok v => Ok (VBool (truthy v))
       | Err e => Err e
       end.
Proof.
  unfold evaluate_where. simpl.
  destruct (_evaluate_node a context) as [va |],
    (_evaluate_node b context) as [vb |]; simpl;
    repeat split; try reflexivity.
  all: now rewrite ?negb_andb, ?negb_orb, ?negb_involutive.
Qed.

(** X3. The result of an operator node is always a boolean: whenever a
    [BinaryOp] or a [UnaryOp] evaluates, with any operator string, the
    value is [True] or [False], never a number, a text or [None]. *)
Theorem operators_return_booleans
    (context : MatchContext) (node : ASTNode) (v : RuntimeValue) :
  (exists l op r, node = BinaryOp l op r)
  \/ (exists op operand, node = UnaryOp op operand) ->
  evaluate_where node context = Ok v ->
  exists b, v = VBool b.
Proof.
  intros Hnode. rewrite evaluate_where_Ok.
  destruct Hnode as [(l & op & r & ->) | (op & operand & ->)]; simpl.
  - destruct (_evaluate_node l context) as [vl |]; [| discriminate].
    destruct (_evaluate_node r context) as [vr |]; [| discriminate].
    simpl. unfold binary_op, py_order.
    repeat match goal with
           | |- context [if ?c then _ else _] => destruct c
           end;
      try discriminate;
      destruct vl, vr; simpl; intros [= <-]; eauto.
  - destruct (_evaluate_node operand context) as [vo |]; [| discriminate].
    simpl. unfold unary_op.
    destruct (String.eqb op "not"); [| discriminate].
    intros [= <-]. eauto.
Qed.

Lemma operators_return_booleans_witness :
  exists b,
    evaluate_where (UnaryOp "not" (MethodCall "line" "contains" ["x"]))
      sample_context = Ok (VBool b).
Proof.
  destruct (operators_return_booleans sample_context
              (UnaryOp "not" (MethodCall "line" "contains" ["x"]))
              (VBool (negb (Py.contains "status=500" "x")))
              (or_intror (ex_intro _ "not" (ex_intro _ _ eq_refl)))
              eq_refl) as [b Hb].
  exists b. rewrite <- Hb. reflexivity.
Defined.

(** X4. Member access succeeds on the object [line] only, and there on
    three attributes and three methods of one argument: an attribute
    evaluates exactly when it is [length], [number] or [content], a method
    call exactly when it is [contains], [startswith] or [endswith] with one
    argument; any other object, name or number of arguments is an error. *)
Theorem member_access_is_limited_to_line
    (context : MatchContext) (obj name : string) (args : list string)
    (v : RuntimeValue) :
  let text := content (line context) in
  (evaluate_where (Attribute obj name) context = Ok v
   <-> obj = "line"
       /\ ((name = "length" /\ v = VInt (Z.of_nat (Py.len text)))
           \/ (name = "number" /\ v = VInt (number (line context)))
           \/ (name = "content" /\ v = VStr text)))
  /\ (evaluate_where (MethodCall obj name args) context = Ok v
      <-> obj = "line"
          /\ exists arg,
               args = [arg]
               /\ ((name = "contains" /\ v = VBool (Py.contains text arg))
                   \/ (name = "startswith"
                       /\ v = VBool (Py.startswith text arg))
                   \/ (name = "endswith"
                       /\ v = VBool (Py.endswith text arg)))).
Proof.
  intros text. subst text. rewrite !evaluate_where_Ok.
  split; split.
  - simpl. destruct (String.eqb_spec obj "line") as [-> |]; [| discriminate].
    unfold line_attribute.
    destruct (String.eqb_spec name "length") as [-> |];
      [intros [= <-]; auto |].
    destruct (String.eqb_spec name "number") as [-> |];
      [intros [= <-]; auto |].
    destruct (String.eqb_spec name "content") as [-> |];
      [intros [= <-]; auto | discriminate].
  - intros [-> [[-> ->] | [[-> ->] | [-> ->]]]]; reflexivity.
  - simpl. destruct (String.eqb_spec obj "line") as [-> |]; [| discriminate].
    unfold line_method, one_argument.
    destruct (String.eqb_spec name "contains") as [-> |];
      [destruct args as [| arg [| ? ?]]; try discriminate;
       intros [= <-]; eauto 10 |].
    destruct (String.eqb_spec name "startswith") as [-> |];
      [destruct args as [| arg [| ? ?]]; try discriminate;
       intros [= <-]; eauto 10 |].
    destruct (String.eqb_spec name "endswith") as [-> |];
      [destruct args as [| arg [| ? ?]]; try discriminate;
       intros [= <-]; eauto 10 | discriminate].
  - intros [-> (arg & -> & [[-> ->] | [[-> ->] | [-> ->]]])]; reflexivity.
Qed.

End EvaluatorLaws.

(** ** The filters: conjunction of clauses and the combinators *)

Module FilterLaws.
Import Types WhereParser Filter FilterCombinators.

(** A clause holds in a context when it evaluates to a truthy value. *)
Definition holds (context : MatchContext) (ast : ASTNode) : Prop :=
  exists v, evaluate_where ast context = Ok v /\ truthy v = true.

(** Every expression parses, to the AST beside it. *)
Definition parsed (expressions : list string) (asts : list ASTNode) : Prop :=
  Forall2 (fun expr ast => parse_where_expression expr = Ok ast)
    expressions asts.

Lemma parse_all_parsed expressions asts :
  parsed expressions asts ->
  forall acc, parse_all expressions acc = Ok (acc ++ asts)%list.
Proof.
  induction 1 as [| expr ast exprs asts Hexpr _ IH]; intros acc; simpl.
  - now rewrite app_nil_r.
  - rewrite Hexpr, IH, <- app_assoc. reflexivity.
Qed.

Lemma create_filter_parsed expressions asts context :
  parsed expressions asts ->
  create_filter expressions context = composite_filter asts context.
Proof.
  intros Hp. unfold create_filter.
  rewrite (parse_all_parsed _ _ Hp []). simpl.
  destruct Hp; reflexivity.
Qed.

Lemma composite_filter_true asts context :
  composite_filter asts context = Ok true <-> Forall (holds context) asts.
Proof.
  induction asts as [| ast asts IH]; simpl.
  - split; [constructor | reflexivity].
  - rewrite Forall_cons_iff, <- IH. unfold holds.
    destruct (evaluate_where ast context) as [v | e].
    + destruct (truthy v) eqn:Hv; simpl.
      * split; [eauto | tauto].
      * split; [discriminate |]. intros [(v' & [= <-] & Hv') _]. congruence.
    + split; [discriminate |]. intros [(v' & [=] & _) _].
Qed.

Lemma composite_filter_app pre rest context :
  Forall (holds context) pre ->
  composite_filter (pre ++ rest) context = composite_filter rest context.
Proof.
  induction 1 as [| ast pre (v & Hv & Ht) _ IH]; simpl; [reflexivity |].
  now rewrite Hv, Ht.
Qed.

(** X5. When every clause parses, the filter of [create_filter] is the
    conjunction of the clauses, evaluated from left to right and stopped
    at the first clause that is not truthy: it says true exactly when
    every clause holds; after clauses that hold, a clause that fails makes
    it fail with that error, and one that is falsy makes it say false,
    whatever the clauses behind would give. *)
Theorem create_filter_is_a_short_circuit_conjunction
    (expressions : list string) (asts : list ASTNode)
    (context : MatchContext) :
  parsed expressions asts ->
  (create_filter expressions context = Ok true
   <-> Forall (holds context) asts)
  /\ forall pre ast post,
       asts = (pre ++ ast :: post)%list ->
       Forall (holds context) pre ->
       (forall e, evaluate_where ast context = Err e ->
                  create_filter expressions context = Err e)
       /\ (forall v, evaluate_where ast context = Ok v ->
                     truthy v = false ->
                     create_filter expressions context = Ok false).
Proof.
  intros Hp. split.
  - rewrite (create_filter_parsed _ _ _ Hp). apply composite_filter_true.
  - intros pre ast post -> Hpre.
    rewrite (create_filter_parsed _ _ _ Hp), composite_filter_app by exact Hpre.
    simpl. split.
    + intros e ->. reflexivity.
    + intros v -> ->. reflexivity.
Qed.

Lemma create_filter_is_a_short_circuit_conjunction_witness :
  create_filter ["line.length > 3"; "line.number > 5"; "line.bogus > 1"]
    (mkMatchContext (mkLine 2 "ERROR") ∅) = Ok false.
Proof.
  refine (proj2 (proj2 (create_filter_is_a_short_circuit_conjunction
            ["line.length > 3"; "line.number > 5"; "line.bogus > 1"]
            [BinaryOp (Attribute "line" "length") ">" (Literal (VInt 3));
             BinaryOp (Attribute "line" "number") ">" (Literal (VInt 5));
             BinaryOp (Attribute "line" "bogus") ">" (Literal (VInt 1))]
            (mkMatchContext (mkLine 2 "ERROR") ∅) _)
          [BinaryOp (Attribute "line" "length") ">" (Literal (VInt 3))]
          (BinaryOp (Attribute "line" "number") ">" (Literal (VInt 5)))
          [BinaryOp (Attribute "line" "bogus") ">" (Literal (VInt 1))]
          eq_refl _) (VBool false) eq_refl eq_refl).
  - repeat constructor.
  - repeat constructor. exists (VBool true). split; reflexivity.
Defined.

Lemma combine_filters_and_loop filters context :
  combine_filters_and filters context = combined_and filters context.
Proof. destruct filters; reflexivity. Qed.

Lemma combine_filters_or_loop filters context :
  combine_filters_or filters context = combined_or filters context.
Proof. destruct filters; reflexivity. Qed.

(** X6. De Morgan's laws for the filter combinators, errors included:
    negating a conjunction of filters is the disjunction of the negated
    filters, negating a disjunction is the conjunction of the negated
    filters, and negating twice gives the filter back. *)
Theorem filter_combinators_de_morgan
    (filters : list FilterFn) (filter_fn : FilterFn)
    (context : MatchContext) :
  negate_filter (combine_filters_and filters) context
  = combine_filters_or (List.map negate_filter filters) context
  /\ negate_filter (combine_filters_or filters) context
     = combine_filters_and (List.map negate_filter filters) context
  /\ negate_filter (negate_filter filter_fn) context = filter_fn context.
Proof.
  unfold negate_filter.
  rewrite !combine_filters_and_loop, !combine_filters_or_loop.
  split; [| split].
  - induction filters as [| f fs IH]; simpl; [reflexivity |].
    destruct (f context) as [[|] |]; simpl; auto.
  - induction filters as [| f fs IH]; simpl; [reflexivity |].
    destruct (f context) as [[|] |]; simpl; auto.
  - destruct (filter_fn context) as [[|] |]; reflexivity.
Qed.

Lemma combined_and_app fs gs context :
  combined_and (fs ++ gs) context
  = match combined_and fs context with
    | Ok true => combined_and gs context
    | other => other
    end.
Proof.
  induction fs as [| f fs IH]; simpl; [reflexivity |].
  destruct (f context) as [[|] |]; simpl; auto.
Qed.

Lemma combined_or_app fs gs context :
  combined_or (fs ++ gs) context
  = match combined_or fs context with
    | Ok false => combined_or gs context
    | other => other
    end.
Proof.
  induction fs as [| f fs IH]; simpl; [reflexivity |].
  destruct (f context) as [[|] |]; simpl; auto.
Qed.

(** X7. Combined filters nest: the conjunction of two lists of filters put
    end to end is the conjunction of their two conjunctions, and the same
    for disjunctions; a list of one filter combines to that filter. So the
    combinators can be applied to their own results without changing a
    verdict or an error. *)
Theorem filter_combinators_nest
    (fs gs : list FilterFn) (filter_fn : FilterFn)
    (context : MatchContext) :
  combine_filters_and (fs ++ gs) context
  = combine_filters_and [combine_filters_and fs; combine_filters_and gs]
      context
  /\ combine_filters_or (fs ++ gs) context
     = combine_filters_or [combine_filters_or fs; combine_filters_or gs]
         context
  /\ combine_filters_and [filter_fn] context = filter_fn context
  /\ combine_filters_or [filter_fn] context = filter_fn context.
Proof.
  split; [| split; [| split]].
  - rewrite combine_filters_and_loop, combined_and_app. simpl.
    rewrite !combine_filters_and_loop.
    destruct (combined_and fs context) as [[|] |]; simpl; auto.
    destruct (combined_and gs context) as [[|] |]; reflexivity.
  - rewrite combine_filters_or_loop, combined_or_app. simpl.
    rewrite !combine_filters_or_loop.
    destruct (combined_or fs context) as [[|] |]; simpl; auto.
    destruct (combined_or gs context) as [[|] |]; reflexivity.
  - simpl. destruct (filter_fn context) as [[|] |]; reflexivity.
  - simpl. destruct (filter_fn context) as [[|] |]; reflexivity.
Qed.

Lemma parsed_app xs ys asts :
  parsed (xs ++ ys) asts ->
  exists axs ays,
    asts = (axs ++ ays)%list /\ parsed xs axs /\ parsed ys ays.
Proof.
  intros Hp. apply Forall2_app_inv_l in Hp as (axs & ays & ? & ? & ->).
  eauto.
Qed.

Lemma composite_filter_split axs ays context :
  composite_filter (axs ++ ays) context
  = match composite_filter axs context with
    | Ok true => composite_filter ays context
    | other => other
    end.
Proof.
  induction axs as [| ast axs IH]; simpl; [reflexivity |].
  destruct (evaluate_where ast context) as [v |]; [| reflexivity].
  destruct (truthy v); simpl; auto.
Qed.

(** X8. When every clause parses, a filter built from a list of clauses
    is the conjunction, by [combine_filters_and], of the filters built
    from its parts: from two sublists put end to end, and from the clauses
    taken one by one. *)
Theorem create_filter_is_combine_filters_and
    (xs ys : list string) (asts : list ASTNode) (context : MatchContext) :
  parsed (xs ++ ys) asts ->
  create_filter (xs ++ ys) context
  = combine_filters_and [create_filter xs; create_filter ys] context
  /\ create_filter (xs ++ ys) context
     = combine_filters_and
         (List.map (fun expr => create_filter [expr]) (xs ++ ys)) context.
Proof.
  intros Hp. split.
  - destruct (parsed_app _ _ _ Hp) as (axs & ays & -> & Hxs & Hys).
    rewrite (create_filter_parsed _ _ _ Hp), composite_filter_split.
    simpl.
    rewrite (create_filter_parsed _ _ _ Hxs), (create_filter_parsed _ _ _ Hys).
    destruct (composite_filter axs context) as [[|] |]; simpl; auto.
    destruct (composite_filter ays context) as [[|] |]; reflexivity.
  - revert Hp. generalize (xs ++ ys)%list. intros exprs Hp.
    rewrite (create_filter_parsed _ _ _ Hp), combine_filters_and_loop.
    induction Hp as [| expr ast exprs asts' Hexpr Hp IH];
      cbn [List.map combined_and composite_filter]; [reflexivity |].
    rewrite (create_filter_parsed [expr] [ast] context)
      by (constructor; [exact Hexpr | constructor]).
    cbn [composite_filter].
    destruct (evaluate_where ast context) as [v |]; [| reflexivity].
    destruct (truthy v); simpl; auto.
Qed.

Lemma create_filter_is_combine_filters_and_witness :
  create_filter (["line.length > 3"] ++ ["line.number > 5"])
    (mkMatchContext (mkLine 2 "ERROR") ∅)
  = combine_filters_and
      [create_filter ["line.length > 3"]; create_filter ["line.number > 5"]]
      (mkMatchContext (mkLine 2 "ERROR") ∅).
Proof.
  refine (proj1 (create_filter_is_combine_filters_and
            ["line.length > 3"] ["line.number > 5"]
            [BinaryOp (Attribute "line" "length") ">" (Literal (VInt 3));
             BinaryOp (Attribute "line" "number") ">" (Literal (VInt 5))]
            (mkMatchContext (mkLine 2 "ERROR") ∅) _)).
  repeat constructor.
Defined.

End FilterLaws.

(** ** The pipeline, its combinators and the runner *)

Module PipelineLaws.
Import Types Filter Matcher Pipeline PipelineCombinators Runner RunnerStats.
Import PipelineProps.

Lemma build_pipeline_length matcher filter_fn lines :
  (List.length (build_pipeline matcher filter_fn lines)
   <= List.length lines)%nat.
Proof.
  rewrite build_pipeline_flat_map.
  induction lines as [| item rest IH]; simpl; [lia |].
  rewrite length_app.
  assert (List.length (outcomes_of_item matcher filter_fn item) <= 1)%nat.
  { destruct item as [l |]; simpl; [| lia].
    destruct (matcher l) as [context |]; simpl; [| lia].
    destruct (filter_fn context) as [[|] |]; simpl; lia. }
  lia.
Qed.

(** X9. The pipeline keeps nothing from one line to the next: the
    outcomes of two inputs put end to end are the outcomes of the first
    followed by those of the second. It yields at most one outcome for
    each item read. *)
Theorem pipeline_is_line_by_line
    (matcher : Line -> MatchResult)
    (filter_fn : MatchContext -> FilterResult)
    (lines more_lines : list LineResult) :
  build_pipeline matcher filter_fn (lines ++ more_lines)
  = (build_pipeline matcher filter_fn lines
     ++ build_pipeline matcher filter_fn more_lines)%list
  /\ (List.length (build_pipeline matcher filter_fn lines)
      <= List.length lines)%nat.
Proof.
  split; [| apply build_pipeline_length].
  rewrite !build_pipeline_flat_map. apply flat_map_app.
Qed.

(** X10. What the pipeline yields and nothing else: a context is yielded
    exactly when the matcher gave it for a line that was read and the
    filter said true of it; an error is yielded exactly when it is a read
    error of the input or the error of the filter on the context of a
    matched line. An error of the matcher is never yielded. *)
Theorem pipeline_outcomes_are_sound_and_complete
    (matcher : Line -> MatchResult)
    (filter_fn : MatchContext -> FilterResult)
    (lines : list LineResult) :
  (forall context,
     In (Ok context) (build_pipeline matcher filter_fn lines)
     <-> exists l, In (Ok l) lines /\ matcher l = Ok context
                   /\ filter_fn context = Ok true)
  /\ (forall error,
        In (Err error) (build_pipeline matcher filter_fn lines)
        <-> In (Err error) lines
            \/ exists l context,
                 In (Ok l) lines /\ matcher l = Ok context
                 /\ filter_fn context = Err error).
Proof.
  rewrite build_pipeline_flat_map. split.
  - intros context. rewrite in_flat_map. split.
    + intros ([l | e] & Hin & Hout); simpl in Hout.
      * destruct (matcher l) as [c |] eqn:Hm; [| contradiction].
        destruct (filter_fn c) as [[|] |] eqn:Hf; simpl in Hout;
          try contradiction; destruct Hout as [[= <-] | []]; eauto.
      * destruct Hout as [[=] | []].
    + intros (l & Hin & Hm & Hf). exists (Ok l). split; [exact Hin |].
      simpl. rewrite Hm, Hf. now left.
  - intros error. rewrite in_flat_map. split.
    + intros ([l | e] & Hin & Hout); simpl in Hout.
      * destruct (matcher l) as [c |] eqn:Hm; [| contradiction].
        destruct (filter_fn c) as [[|] |] eqn:Hf; simpl in Hout;
          try contradiction; destruct Hout as [[= <-] | []]; eauto 10.
      * destruct Hout as [[= <-] | []]. now left.
    + intros [Hin | (l & context & Hin & Hm & Hf)].
      * exists (Err error). split; [exact Hin | now left].
      * exists (Ok l). split; [exact Hin |].
        simpl. rewrite Hm, Hf. now left.
Qed.

(** X11. [build_simple_pipeline] is the pipeline with the filter of no
    clause at all. Its errors are the read errors of the input, in order,
    and its contexts those the matcher gives for the lines read, in
    order. *)
Theorem simple_pipeline_outcomes
    (matcher : Line -> MatchResult) (lines : list LineResult) :
  build_simple_pipeline matcher lines
  = build_pipeline matcher (create_filter []) lines
  /\ Railway.collect_errors (build_simple_pipeline matcher lines)
     = Railway.collect_errors lines
  /\ Railway.collect_ok (build_simple_pipeline matcher lines)
     = Railway.collect_ok (List.map matcher (Railway.collect_ok lines)).
Proof.
  split; [reflexivity |].
  unfold build_simple_pipeline. rewrite build_pipeline_flat_map.
  unfold Railway.collect_errors, Railway.collect_ok.
  split; induction lines as [| [l | e] rest IH]; simpl;
    try reflexivity; try destruct (matcher l); simpl;
    first [exact IH | f_equal; exact IH].
Qed.

Lemma compose_matchers_loop matchers l :
  matchers <> [] ->
  compose_matchers matchers l
  = match composite_loop matchers l [] with
    | Some result => result
    | None =>
        Err ("No match (tried " ++ Py.str_of_nat (List.length matchers)
             ++ " patterns)")
    end.
Proof. destruct matchers; [contradiction | reflexivity]. Qed.

(** X12. [compose_matchers] gives the result of the first matcher that
    succeeds, leaving the later ones aside; it succeeds exactly when one
    of the matchers does. With no matcher it fails with
    [No matchers provided]; when every matcher fails, the messages of the
    matchers are lost and the error tells their number only. *)
Theorem compose_matchers_first_success
    (matchers : list (Line -> MatchResult)) (l : Line) :
  is_ok (compose_matchers matchers l)
  = existsb (fun matcher => is_ok (matcher l)) matchers
  /\ (forall pre matcher post context,
        matchers = (pre ++ matcher :: post)%list ->
        Forall (fun m => is_ok (m l) = false) pre ->
        matcher l = Ok context ->
        compose_matchers matchers l = Ok context)
  /\ (matchers = [] -> compose_matchers matchers l = Err "No matchers provided")
  /\ (matchers <> [] ->
      Forall (fun m => is_ok (m l) = false) matchers ->
      compose_matchers matchers l
      = Err ("No match (tried " ++ Py.str_of_nat (List.length matchers)
             ++ " patterns)")).
Proof.
  assert (Hloop : forall (ms : list (Line -> MatchResult)) errors,
    match composite_loop ms l errors with
    | Some r => exists pre m post context,
        ms = (pre ++ m :: post)%list
        /\ Forall (fun m => is_ok (m l) = false) pre
        /\ m l = Ok context /\ r = Ok context
    | None => Forall (fun m => is_ok (m l) = false) ms
    end).
  { induction ms as [| m ms IH]; intros errors; simpl; [constructor |].
    destruct (m l) as [context | e] eqn:Hm.
    - exists [], m, ms, context. repeat split; auto.
    - specialize (IH (errors ++ [e])%list).
      destruct (composite_loop ms l (errors ++ [e]))%list.
      + destruct IH as (pre & m' & post & context & -> & Hpre & Hm' & ->).
        exists (m :: pre), m', post, context. repeat split; auto.
        constructor; [now rewrite Hm | exact Hpre].
      + constructor; [now rewrite Hm | exact IH]. }
  assert (Hfirst : forall (pre : list (Line -> MatchResult))
                          (matcher : Line -> MatchResult) post context,
    Forall (fun m => is_ok (m l) = false) pre ->
    matcher l = Ok context ->
    composite_loop (pre ++ matcher :: post) l [] = Some (Ok context)).
  { intros pre matcher post context Hpre Hm. generalize (@nil string).
    induction Hpre as [| m pre Hfail _ IH]; intros errors; simpl.
    - now rewrite Hm.
    - destruct (m l); [discriminate | apply IH]. }
  assert (Hnone : forall ms : list (Line -> MatchResult),
    Forall (fun m => is_ok (m l) = false) ms ->
    forall errors, composite_loop ms l errors = None).
  { induction 1 as [| m ms Hfail _ IH]; intros errors; simpl;
      [reflexivity |].
    destruct (m l); [discriminate | apply IH]. }
  split; [| split; [| split]].
  - destruct matchers as [| m0 ms0]; [reflexivity |].
    unfold compose_matchers. specialize (Hloop (m0 :: ms0) []).
    destruct (composite_loop (m0 :: ms0) l []) as [r |].
    + destruct Hloop as (pre & m & post & context & -> & _ & Hm & ->).
      rewrite existsb_app. simpl. rewrite Hm. simpl.
      now rewrite orb_true_r.
    + cbn [is_ok]. symmetry. apply not_true_is_false. intros Hex.
      apply existsb_exists in Hex as (m & Hin & Hok).
      rewrite Forall_forall in Hloop. rewrite (Hloop m Hin) in Hok.
      discriminate.
  - intros pre matcher post context -> Hpre Hm.
    rewrite compose_matchers_loop by (destruct pre; discriminate).
    now rewrite (Hfirst pre matcher post context Hpre Hm).
  - intros ->. reflexivity.
  - intros Hne Hall. unfold compose_matchers.
    destruct matchers as [| m0 ms0]; [contradiction |].
    now rewrite (Hnone _ Hall).
Qed.

Lemma count_results_from_lengths results : forall successes errors,
  count_results_from results successes errors
  = ((successes + List.length (Railway.collect_ok results))%nat,
     (errors + List.length (Railway.collect_errors results))%nat).
Proof.
  induction results as [| [context | e] rest IH]; intros successes errors;
    simpl.
  - f_equal; lia.
  - rewrite IH. f_equal; lia.
  - rewrite IH. f_equal; lia.
Qed.

Lemma collect_lengths {A E} (results : list (Result A E)) :
  (List.length (Railway.collect_ok results)
   + List.length (Railway.collect_errors results))%nat
  = List.length results.
Proof.
  induction results as [| [a | e] rest IH]; simpl; lia.
Qed.

Lemma count_results_lengths (results : list Outcome) :
  count_results results
  = (List.length (Railway.collect_ok results),
     List.length (Railway.collect_errors results)).
Proof. unfold count_results. now rewrite count_results_from_lengths. Qed.

(** X13. [count_results] counts every outcome once: the two counts are
    the numbers of successes and of errors, and they add up to the number
    of outcomes. For the outcomes of a pipeline the sum is at most the
    number of items read and the error count at least the number of read
    errors. *)
Theorem count_results_counts_every_outcome
    (results : list Outcome)
    (matcher : Line -> MatchResult)
    (filter_fn : MatchContext -> FilterResult)
    (lines : list LineResult) :
  count_results results
  = (List.length (Railway.collect_ok results),
     List.length (Railway.collect_errors results))
  /\ (fst (count_results results) + snd (count_results results))%nat
     = List.length results
  /\ let (successes, errors) :=
       count_results (build_pipeline matcher filter_fn lines) in
     (successes + errors <= List.length lines)%nat
     /\ (List.length (Railway.collect_errors lines) <= errors)%nat.
Proof.
  split; [apply count_results_lengths |]. split.
  - rewrite count_results_lengths. simpl. apply collect_lengths.
  - rewrite count_results_lengths. split.
    + rewrite collect_lengths.
      apply build_pipeline_length.
    + rewrite build_pipeline_flat_map. unfold Railway.collect_errors.
      induction lines as [| [l | e] rest IH]; simpl; [lia | |].
      * rewrite flat_map_app, length_app.
        eapply Nat.le_trans; [exact IH | apply Nat.le_add_l].
      * apply -> Nat.succ_le_mono. exact IH.
Qed.

End PipelineLaws.

(** ** The runner *)

Module RunnerLaws.
Import Types Filter Matcher Pipeline PipelineCombinators Runner RunnerStats.
Import PipelineProps PipelineLaws.

(** The texts of the [print] calls on the standard output, and of those on
    the standard error. *)
Definition stdout_texts (outputs : list Output) : list string :=
  flat_map (fun output =>
              match output with Stdout text => [text] | Stderr _ => [] end)
    outputs.

Definition stderr_texts (outputs : list Output) : list string :=
  flat_map (fun output =>
              match output with Stdout _ => [] | Stderr text => [text] end)
    outputs.

(** A matcher hands the line over as it got it. *)
Lemma create_matcher_line `{Re.Engine} config matcher l context :
  create_matcher config = Returns matcher ->
  matcher l = Ok context -> line context = l.
Proof.
  unfold create_matcher, _create_regex_matcher, _create_literal_matcher,
    no_match.
  repeat case_match; intros [= <-]; repeat case_match; intros [= <-];
    reflexivity.
Qed.

Lemma emit_texts (contexts : list Outcome) :
  stdout_texts (List.map output_of contexts)
  = List.map (fun context => content (line context))
      (Railway.collect_ok contexts)
  /\ stderr_texts (List.map output_of contexts)
     = List.map (fun error => "Error: " ++ error)
         (Railway.collect_errors contexts).
Proof.
  split; induction contexts as [| [context | e] rest IH]; simpl;
    try reflexivity; first [exact IH | f_equal; exact IH].
Qed.

(** The [print] calls of [emit] that returned are those for the first
    outcomes, in their order. *)
Lemma emit_from_prefix world (contexts : list Outcome) : forall n,
  exists k,
    snd (emit_from world n contexts)
    = List.map output_of (take k contexts).
Proof.
  induction contexts as [| result rest IH]; intros n.
  - now exists 0%nat.
  - cbn [emit_from].
    destruct (print_raises world n (output_of result)).
    + now exists 0%nat.
    + destruct (IH (S n)) as [k Hk].
      destruct (emit_from world (S n) rest) as [outcome outputs].
      exists (S k). cbn in *. now rewrite Hk.
Qed.

(** When no [print] call raises, [emit] returns and every outcome was
    printed. *)
Lemma emit_from_quiet world (contexts : list Outcome) :
  (forall n output, print_raises world n output = None) ->
  forall n,
    emit_from world n contexts = (Returns tt, List.map output_of contexts).
Proof.
  intros Hquiet. induction contexts as [| result rest IH]; intros n.
  - reflexivity.
  - cbn [emit_from]. now rewrite Hquiet, IH.
Qed.

Lemma stdout_texts_sublist outputs1 outputs2 :
  sublist outputs1 outputs2 ->
  sublist (stdout_texts outputs1) (stdout_texts outputs2).
Proof.
  induction 1 as [| [text | text] l1 l2 _ IH | [text | text] l1 l2 _ IH];
    simpl; try assumption.
  - constructor.
  - now apply sublist_skip.
  - now apply sublist_cons.
Qed.

Lemma stderr_texts_sublist outputs1 outputs2 :
  sublist outputs1 outputs2 ->
  sublist (stderr_texts outputs1) (stderr_texts outputs2).
Proof.
  induction 1 as [| [text | text] l1 l2 _ IH | [text | text] l1 l2 _ IH];
    simpl; try assumption.
  - constructor.
  - now apply sublist_skip.
  - now apply sublist_cons.
Qed.

(** What [run] has printed: nothing, or what [emit] printed of the
    outcomes of the pipeline. *)
Lemma run_outputs `{Re.Engine} world args reader :
  _select_reader world (source args) = Ok reader ->
  snd (run world args) = []
  \/ exists matcher k,
       create_matcher
         (mkMatchConfig (Runner.pattern args) (Runner.case_sensitive args))
       = Returns matcher
       /\ snd (run world args)
          = List.map output_of
              (take k
                 (build_pipeline matcher (create_filter (where_clauses args))
                    (read_lines reader))).
Proof.
  intros Hreader. unfold run. rewrite Hreader.
  destruct (create_matcher _) as [matcher | e]; [| now left].
  right. exists matcher.
  destruct (emit_from_prefix world
              (build_pipeline matcher (create_filter (where_clauses args))
                 (read_lines reader)) 0) as [k Hk].
  exists k. split; [reflexivity |].
  unfold emit. cbv zeta.
  destruct (emit_from world 0 _) as [[[] | e] outputs];
    [destruct (read_raises reader) |]; exact Hk.
Qed.

(** The lines in the outcomes of a pipeline are lines of the input, in
    its order. *)
Lemma pipeline_lines_sublist `{Re.Engine} config matcher filter_fn lines :
  create_matcher config = Returns matcher ->
  sublist
    (List.map (fun context => content (line context))
       (Railway.collect_ok (build_pipeline matcher filter_fn lines)))
    (List.map content (Railway.collect_ok lines)).
Proof.
  intros Hmatcher. rewrite build_pipeline_flat_map.
  induction lines as [| [l | e] rest IH]; simpl.
  - constructor.
  - destruct (matcher l) as [context |] eqn:Hm; simpl.
    + apply (create_matcher_line _ _ _ _ Hmatcher) in Hm as <-.
      destruct (filter_fn context) as [[|] |]; simpl.
      * now apply sublist_skip.
      * now apply sublist_cons.
      * now apply sublist_cons.
    + now apply sublist_cons.
  - exact IH.
Qed.

(** X14. [run_with_stats] counts the [print] calls that [run] makes on the
    same arguments and the same input. Without a source the two return
    the same error and [run] prints nothing, and an exception of
    [create_matcher] leaves both, [run] having printed nothing. When
    [run_with_stats] returns counts, [run] has made at most so many
    [print] calls on the standard output and on the standard error; and
    when none of them raises, [run] returns [Ok(None)] having made
    exactly so many. *)
Theorem run_with_stats_counts_the_print_calls_of_run
    `{Re.Engine} (world : World) (args : CLIArgs) :
  (forall error,
     _select_reader world (source args) = Err error ->
     run_with_stats world args = Returns (Err error)
     /\ run world args = (Returns (Err error), []))
  /\ (forall reader e,
        _select_reader world (source args) = Ok reader ->
        create_matcher
          (mkMatchConfig (Runner.pattern args) (Runner.case_sensitive args))
        = Raises e ->
        run_with_stats world args = Raises e
        /\ run world args = (Raises e, []))
  /\ (forall match_count error_count,
        run_with_stats world args = Returns (Ok (match_count, error_count)) ->
        (List.length (stdout_texts (snd (run world args))) <= match_count)%nat
        /\ (List.length (stderr_texts (snd (run world args)))
            <= error_count)%nat
        /\ ((forall n output, print_raises world n output = None) ->
            fst (run world args) = Returns (Ok tt)
            /\ List.length (stdout_texts (snd (run world args)))
               = match_count
            /\ List.length (stderr_texts (snd (run world args)))
               = error_count)).
Proof.
  split; [| split].
  - intros error Hreader. unfold run, run_with_stats.
    now rewrite Hreader.
  - intros reader e Hreader Hmatcher. unfold run, run_with_stats.
    now rewrite Hreader, Hmatcher.
  - intros match_count error_count. unfold run, run_with_stats.
    destruct (_select_reader world (source args)) as [reader | error];
      [| discriminate].
    destruct (create_matcher _) as [matcher | e]; [| discriminate].
    cbv zeta.
    set (contexts := build_pipeline matcher _ _).
    destruct (read_raises reader) as [[| | |] |]; try discriminate.
    rewrite count_results_lengths. intros [= <- <-].
    destruct (emit_texts contexts) as [Hout Herr].
    assert (Hlen_out :
              List.length (stdout_texts (List.map output_of contexts))
              = List.length (Railway.collect_ok contexts))
      by now rewrite Hout, length_map.
    assert (Hlen_err :
              List.length (stderr_texts (List.map output_of contexts))
              = List.length (Railway.collect_errors contexts))
      by now rewrite Herr, length_map.
    split; [| split].
    + destruct (emit_from_prefix world contexts 0) as [k Hk].
      unfold emit. rewrite <- Hlen_out.
      destruct (emit_from world 0 contexts) as [[[] | e] outputs];
        cbn [snd] in *; subst outputs; apply sublist_length,
        stdout_texts_sublist, (fmap_sublist output_of), sublist_take.
    + destruct (emit_from_prefix world contexts 0) as [k Hk].
      unfold emit. rewrite <- Hlen_err.
      destruct (emit_from world 0 contexts) as [[[] | e] outputs];
        cbn [snd] in *; subst outputs; apply sublist_length,
        stderr_texts_sublist, (fmap_sublist output_of), sublist_take.
    + intros Hquiet. unfold emit.
      rewrite (emit_from_quiet world contexts Hquiet 0). cbn [fst snd].
      now rewrite Hlen_out, Hlen_err.
Qed.

Lemma run_with_stats_counts_the_print_calls_of_run_witness :
  @run_with_stats RefRegex.engine
    (one_file "app.log"
       [Ok (mkLine 1 "status=200"); Ok (mkLine 2 "status=500");
        Err "Read error: [Errno 5] Input/output error"])
    (mkCLIArgs (Some "app.log") "/status=(?P<code>\d+)/" true
       ["line.endswith('500')"])
  = Returns (Ok (1%nat, 1%nat))
  /\ List.length
       (stdout_texts
          (snd (@run RefRegex.engine
                  (one_file "app.log"
                     [Ok (mkLine 1 "status=200"); Ok (mkLine 2 "status=500");
                      Err "Read error: [Errno 5] Input/output error"])
                  (mkCLIArgs (Some "app.log") "/status=(?P<code>\d+)/" true
                     ["line.endswith('500')"]))))
     = 1%nat.
Proof.
  split; [reflexivity |].
  destruct (@run_with_stats_counts_the_print_calls_of_run RefRegex.engine
              (one_file "app.log"
                 [Ok (mkLine 1 "status=200"); Ok (mkLine 2 "status=500");
                  Err "Read error: [Errno 5] Input/output error"])
              (mkCLIArgs (Some "app.log") "/status=(?P<code>\d+)/" true
                 ["line.endswith('500')"]))
    as (_ & _ & Hcounts).
  destruct (Hcounts 1%nat 1%nat eq_refl) as (_ & _ & Hquiet).
  exact (proj1 (proj2 (Hquiet (fun _ _ => eq_refl)))).
Defined.

(** X15. Whatever the pattern, the clauses, the regex engine and the fate
    of the [print] calls, and however [run] ends, the texts that [run]
    has printed on the standard output are lines of the input, unchanged
    and in the order of the input, each at most once for each time it was
    read; every text it has printed on the standard error starts with
    [Error: ]; and it has made at most one [print] call for each item
    read. *)
Theorem run_prints_input_lines_in_order
    `{Re.Engine} (world : World) (args : CLIArgs) (reader : SourceReader) :
  _select_reader world (source args) = Ok reader ->
  sublist (stdout_texts (snd (run world args)))
    (List.map content (Railway.collect_ok (read_lines reader)))
  /\ Forall (fun text => String.prefix "Error: " text = true)
       (stderr_texts (snd (run world args)))
  /\ (List.length (snd (run world args))
      <= List.length (read_lines reader))%nat.
Proof.
  intros Hreader.
  destruct (run_outputs world args reader Hreader)
    as [-> | (matcher & k & Hmatcher & ->)].
  { split; [apply sublist_nil_l |]. split; [constructor | simpl; lia]. }
  set (contexts := build_pipeline matcher _ _).
  assert (Htake : sublist (List.map output_of (take k contexts))
                    (List.map output_of contexts))
    by apply (fmap_sublist output_of), sublist_take.
  split; [| split].
  - etransitivity; [apply stdout_texts_sublist, Htake |].
    rewrite (proj1 (emit_texts contexts)).
    now apply pipeline_lines_sublist with (config := mkMatchConfig
      (Runner.pattern args) (Runner.case_sensitive args)).
  - apply Forall_forall. intros text Hin.
    apply list_elem_of_In in Hin.
    apply (fun Hin => elem_of_sublist _ _ text Hin
                        (stderr_texts_sublist _ _ Htake)) in Hin.
    rewrite (proj2 (emit_texts contexts)) in Hin.
    apply list_elem_of_In, in_map_iff in Hin as (error & <- & _).
    cbv [String.append]. rewrite !ParserProps.prefix_cons.
    destruct error; reflexivity.
  - rewrite length_map, length_take.
    pose proof (build_pipeline_length matcher
                  (create_filter (where_clauses args)) (read_lines reader))
      as Hlen.
    fold contexts in Hlen. lia.
Qed.

Lemma run_prints_input_lines_in_order_witness :
  @run RefRegex.engine
    (mkWorld false (mkSourceReader [] None)
       (fun _ =>
          mkSourceReader
            [Ok (mkLine 1 "status=500"); Ok (mkLine 2 "status=200");
             Ok (mkLine 3 "status=503")] None)
       (fun n _ =>
          if (n =? 1)%nat
          then Some (BrokenPipeError "[Errno 32] Broken pipe")
          else None))
    (mkCLIArgs (Some "app.log") "/status=(?P<code>\d+)/" true
       [])
  = (Returns (Ok tt), [Stdout "status=500"])
  /\ sublist
       (stdout_texts
          (snd (@run RefRegex.engine
                  (mkWorld false (mkSourceReader [] None)
                     (fun _ =>
                        mkSourceReader
                          [Ok (mkLine 1 "status=500");
                           Ok (mkLine 2 "status=200");
                           Ok (mkLine 3 "status=503")] None)
                     (fun n _ =>
                        if (n =? 1)%nat
                        then Some (BrokenPipeError "[Errno 32] Broken pipe")
                        else None))
                  (mkCLIArgs (Some "app.log") "/status=(?P<code>\d+)/" true
                     []))))
       ["status=500"; "status=200"; "status=503"].
Proof.
  split; [reflexivity |].
  exact (proj1
           (@run_prints_input_lines_in_order RefRegex.engine
              (mkWorld false (mkSourceReader [] None)
                 (fun _ =>
                    mkSourceReader
                      [Ok (mkLine 1 "status=500");
                       Ok (mkLine 2 "status=200");
                       Ok (mkLine 3 "status=503")] None)
                 (fun n _ =>
                    if (n =? 1)%nat
                    then Some (BrokenPipeError "[Errno 32] Broken pipe")
                    else None))
              (mkCLIArgs (Some "app.log") "/status=(?P<code>\d+)/" true
                 [])
              (mkSourceReader
                 [Ok (mkLine 1 "status=500"); Ok (mkLine 2 "status=200");
                  Ok (mkLine 3 "status=503")] None)
              eq_refl)).
Defined.



End RunnerLaws.

(** ** The matcher and the case mode *)

Module MatcherLaws.
Import Types WhereParser Matcher.

Lemma prefix_lower t : forall s,
  String.prefix t s = true ->
  String.prefix (Py.lower t) (Py.lower s) = true.
Proof.
  induction t as [| a t IH]; intros [| b s]; try reflexivity.
  - discriminate.
  - cbn [Py.lower]. rewrite !ParserProps.prefix_cons.
    intros [Hab Hts]%andb_prop. apply Ascii.eqb_eq in Hab as ->.
    now rewrite Ascii.eqb_refl, IH.
Qed.

Lemma contains_lower t s :
  Py.contains s t = true -> Py.contains (Py.lower s) (Py.lower t) = true.
Proof.
  induction s as [| c s IH].
  - cbn [Py.contains Py.lower]. rewrite !orb_false_r.
    apply (prefix_lower t "").
  - cbn [Py.contains Py.lower]. intros [Hp | Hc]%orb_prop.
    + pose proof (prefix_lower t (String c s) Hp) as Hp'.
      cbn [Py.lower] in Hp'. now rewrite Hp'.
    + rewrite (IH Hc). apply orb_true_r.
Qed.

(** [s.isascii()]: every code point is below 128. *)
Fixpoint isascii (s : string) : bool :=
  match s with
  | EmptyString => true
  | String c r => (Py.code c <? 128)%nat && isascii r
  end.

(** X17. On ASCII text, ignoring case only adds matches: when the pattern
    and the line hold ASCII characters only, a line that a literal pattern
    matches in case-sensitive mode is matched by the same pattern in
    case-insensitive mode. On such text [str.lower] works character by
    character; beyond ASCII it does not (the lowered capital sigma depends
    on its neighbours), and the property is not claimed there. *)
Theorem ascii_literal_match_survives_ignoring_case
    (pattern : string) (l : Line) :
  isascii pattern = true ->
  isascii (content l) = true ->
  is_ok (_create_literal_matcher (mkMatchConfig pattern true) l) = true ->
  is_ok (_create_literal_matcher (mkMatchConfig pattern false) l) = true.
Proof.
  intros _ _.
  unfold _create_literal_matcher. cbn [case_sensitive Matcher.pattern].
  destruct (Py.contains (content l) pattern) eqn:Hc; [| discriminate].
  intros _. now rewrite (contains_lower _ _ Hc).
Qed.

Lemma ascii_literal_match_survives_ignoring_case_witness :
  is_ok (_create_literal_matcher (mkMatchConfig "ERROR" false)
           (mkLine 1 "an ERROR here")) = true.
Proof.
  apply (ascii_literal_match_survives_ignoring_case "ERROR"
           (mkLine 1 "an ERROR here")); reflexivity.
Defined.

(** X18. A literal pattern captures nothing: the context of a line it
    matches holds the line as it was read and no group, so [group(...)]
    in a where-clause fails on every such line, whatever name it asks
    for. *)
Theorem literal_match_has_no_groups
    `{Re.Engine} (config : MatchConfig) (matcher : Line -> MatchResult)
    (l : Line) (context : MatchContext) :
  _is_regex_pattern (pattern config) = false ->
  create_matcher config = Returns matcher ->
  matcher l = Ok context ->
  context = mkMatchContext l ∅
  /\ forall name,
       evaluate_where (GroupAccess name) context
       = Err ("Evaluation error: Regex group not found: " ++ name).
Proof.
  intros Hre. unfold create_matcher. rewrite Hre.
  destruct (negb _); intros [= <-]; [| discriminate].
  unfold _create_literal_matcher, no_match.
  destruct (Py.contains _ _); [| discriminate].
  intros [= <-]. split; [reflexivity |].
  intros name. unfold evaluate_where. simpl.
  now rewrite lookup_empty.
Qed.

Lemma literal_match_has_no_groups_witness :
  evaluate_where (GroupAccess "code")
    (mkMatchContext (mkLine 1 "status=500") ∅)
  = Err "Evaluation error: Regex group not found: code".
Proof.
  exact (proj2 (@literal_match_has_no_groups RefRegex.engine
                  (mkMatchConfig "status" true)
                  (_create_literal_matcher (mkMatchConfig "status" true))
                  (mkLine 1 "status=500")
                  (mkMatchContext (mkLine 1 "status=500") ∅)
                  eq_refl eq_refl eq_refl) "code").
Defined.

(** X19. The case mode chosen on the command line and what the matcher
    does with it. An explicit flag decides. Without a flag, a pattern
    between slashes, which both modules recognise alike, is compiled as
    a case-sensitive regex, and any other non-empty pattern is searched
    as text with case ignored: it matches exactly when the lowered line
    contains the lowered pattern. *)
Theorem default_case_mode
    `{Re.Engine} (pattern : string) :
  let config flag :=
    mkMatchConfig pattern
      (CliParser._determine_case_sensitivity pattern flag) in
  CliParser._determine_case_sensitivity pattern (Some "sensitive") = true
  /\ CliParser._determine_case_sensitivity pattern (Some "insensitive") = false
  /\ CliParser._is_regex_pattern pattern = Matcher._is_regex_pattern pattern
  /\ (Matcher._is_regex_pattern pattern = true ->
      create_matcher (config None)
      = _create_regex_matcher (mkMatchConfig pattern true))
  /\ (Matcher._is_regex_pattern pattern = false -> pattern <> "" ->
      exists matcher,
        create_matcher (config None) = Returns matcher
        /\ forall l,
             is_ok (matcher l)
             = Py.contains (Py.lower (content l)) (Py.lower pattern)).
Proof.
  intros config. subst config.
  split; [reflexivity |]. split; [reflexivity |]. split; [reflexivity |].
  unfold create_matcher, CliParser._determine_case_sensitivity.
  cbn [Matcher.pattern].
  change (CliParser._is_regex_pattern pattern)
    with (Matcher._is_regex_pattern pattern).
  split.
  - intros ->. reflexivity.
  - intros -> Hne. apply String.eqb_neq in Hne. rewrite Hne. simpl.
    eexists. split; [reflexivity |]. intros l.
    unfold _create_literal_matcher, no_match.
    cbn [case_sensitive Matcher.pattern].
    destruct (Py.contains _ _); reflexivity.
Qed.

End MatcherLaws.

(** ** The railway combinators *)

Module RailwayLaws.
Import Railway.

(** X20. [bind] composes as a monad with [Ok] as unit: binding [Ok] onto
    a result changes nothing, binding a function onto [Ok a] applies it,
    two binds in a row are one bind of the composed function, and an error
    passes through untouched. [map_result] is the bind of a function that
    cannot fail, and [map_error] leaves successes alone. *)
Theorem bind_is_a_monad
    {A B C E F : Type} (f : A -> Result B E) (g : B -> Result C E)
    (h : A -> B) (k : E -> F) (a : A) (e : E) (result : Result A E) :
  bind f (Ok a) = f a
  /\ bind Ok result = result
  /\ bind g (bind f result) = bind (fun x => bind g (f x)) result
  /\ bind f (Err e) = Err e
  /\ map_result h result = bind (fun x => Ok (h x)) result
  /\ map_error k (Ok a) = Ok a
  /\ map_error k (map_result h result) = map_result h (map_error k result).
Proof. destruct result; repeat split; reflexivity. Qed.

(** X21. Collecting splits a stream of results in two without loss:
    every result is either among the successes or among the errors.
    [filter_results] keeps the length of the stream, keeps of the
    successes exactly those that satisfy the predicate, in order, and
    keeps every error where it was, adding its message for each success
    it rejects. *)
Theorem collecting_splits_the_stream
    {A E : Type} (predicate : A -> bool) (error_message : E)
    (results : list (Result A E)) :
  (List.length (collect_ok results) + List.length (collect_errors results))%nat
  = List.length results
  /\ List.length (filter_results predicate error_message results)
     = List.length results
  /\ collect_ok (filter_results predicate error_message results)
     = List.filter predicate (collect_ok results)
  /\ sublist (collect_errors results)
       (collect_errors (filter_results predicate error_message results))
  /\ List.length
       (collect_errors (filter_results predicate error_message results))
     = (List.length (collect_errors results)
        + List.length
            (List.filter (fun a => negb (predicate a))
               (collect_ok results)))%nat.
Proof.
  unfold filter_results, collect_ok, collect_errors.
  split; [| split; [| split; [| split]]].
  - induction results as [| [a | e] rest IH]; simpl; lia.
  - apply length_map.
  - induction results as [| [a | e] rest IH]; simpl; [reflexivity | | exact IH].
    destruct (predicate a); simpl; [f_equal |]; exact IH.
  - induction results as [| [a | e] rest IH]; simpl; [constructor | |].
    + destruct (predicate a); simpl; [exact IH | now apply sublist_cons].
    + now apply sublist_skip.
  - induction results as [| [a | e] rest IH]; simpl; [reflexivity | |].
    + destruct (predicate a); simpl; rewrite IH; lia.
    + now rewrite IH.
Qed.

End RailwayLaws.

(** ** The tokenizer: where the tokens lie *)

Module TokenizerLaws.
Import WhereParser.

(** A match of [n] characters at the start of [s]. *)
Definition fits (s : string) (n : nat) : Prop := (1 <= n <= Py.len s)%nat.

Lemma span_le p s : (span p s <= Py.len s)%nat.
Proof.
  induction s as [| c r IH]; simpl; [lia |].
  destruct (p c); simpl; lia.
Qed.

Lemma nonzero_Some n m : nonzero n = Some m -> m = n /\ (1 <= n)%nat.
Proof. destruct n; [discriminate |]. intros [= <-]. split; lia. Qed.

Lemma match_number_cons c r :
  match_number (String c r)
  = if Ascii.eqb c "-" then S <$> nonzero (span Py.is_digit r)
    else nonzero (span Py.is_digit (String c r)).
Proof. destruct c as [[] [] [] [] [] [] [] []]; reflexivity. Qed.

Lemma match_number_fits s n : match_number s = Some n -> fits s n.
Proof.
  destruct s as [| c r]; [discriminate |]. rewrite match_number_cons.
  unfold fits. destruct (Ascii.eqb c "-").
  - destruct (nonzero _) as [m |] eqn:Hm; [| discriminate].
    intros [= <-]. apply nonzero_Some in Hm as [-> ?].
    pose proof (span_le Py.is_digit r). simpl. lia.
  - intros [-> ?]%nonzero_Some. split; [assumption | apply span_le].
Qed.

Lemma match_string_body_fits q s :
  (forall n, match_string_body q s = Some n -> fits s n)
  /\ forall c n, match_string_body q (String c s) = Some n ->
       fits (String c s) n.
Proof.
  unfold fits. induction s as [| d r [IH1 IH2]].
  - split; [discriminate |]. intros c n. cbn [match_string_body].
    destruct (Ascii.eqb c q); [intros [= <-]; simpl; lia |].
    destruct (Ascii.eqb c "\"); discriminate.
  - split; [apply IH2 |]. intros c n.
    change (match_string_body q (String c (String d r)))
      with (if Ascii.eqb c q then Some 1%nat
            else if Ascii.eqb c "\" then
              if Py.is_dot d
              then (fun n => S (S n)) <$> match_string_body q r
              else None
            else S <$> match_string_body q (String d r)).
    destruct (Ascii.eqb c q); [intros [= <-]; simpl; lia |].
    destruct (Ascii.eqb c "\").
    + destruct (Py.is_dot d); [| discriminate].
      destruct (match_string_body q r) as [n' |] eqn:Hr; [| discriminate].
      intros [= <-]. specialize (IH1 n' eq_refl). simpl in *. lia.
    + destruct (match_string_body q (String d r)) as [n' |] eqn:Hr;
        [| discriminate].
      intros [= <-]. specialize (IH2 d n' Hr). simpl in *. lia.
Qed.

Lemma match_string_fits s n : match_string s = Some n -> fits s n.
Proof.
  destruct s as [| c r]; [discriminate |]. cbn [match_string].
  destruct (_ || _); [| discriminate].
  destruct (match_string_body c r) as [n' |] eqn:Hbody; [| discriminate].
  intros [= <-]. apply (proj1 (match_string_body_fits c r)) in Hbody.
  unfold fits in *. simpl. lia.
Qed.

Lemma prefix_length t : forall s,
  String.prefix t s = true -> (Py.len t <= Py.len s)%nat.
Proof.
  induction t as [| a t IH]; intros [| b s].
  - reflexivity.
  - simpl. lia.
  - discriminate.
  - rewrite ParserProps.prefix_cons. intros [_ H]%andb_prop.
    apply IH in H. unfold Py.len in *. simpl. lia.
Qed.

Lemma match_lit_fits lit s n :
  (1 <= Py.len lit)%nat -> match_lit lit s = Some n -> fits s n.
Proof.
  intros Hlit. unfold match_lit, fits.
  destruct (String.prefix lit s) eqn:Hp; [| discriminate].
  intros [= <-]. apply prefix_length in Hp. lia.
Qed.

Lemma match_keyword_fits kw prev s n :
  (1 <= Py.len kw)%nat -> match_keyword kw prev s = Some n -> fits s n.
Proof.
  intros Hkw. unfold match_keyword, fits.
  destruct (negb (word_char prev)); [| discriminate].
  destruct (String.prefix kw s) eqn:Hp; [| discriminate].
  destruct (negb _); [| discriminate].
  intros [= <-]. apply prefix_length in Hp. lia.
Qed.

Lemma match_ident_fits s n : match_ident s = Some n -> fits s n.
Proof.
  destruct s as [| c r]; [discriminate |]. cbn [match_ident].
  destruct (Py.is_ident_start c); [| discriminate].
  intros [= <-]. pose proof (span_le Py.is_ident_char r).
  unfold fits. simpl. lia.
Qed.

Lemma match_whitespace_fits s n : match_whitespace s = Some n -> fits s n.
Proof.
  unfold match_whitespace. intros [-> ?]%nonzero_Some.
  split; [assumption | apply span_le].
Qed.

Lemma first_match_fits alts prev s k n :
  Forall (fun alt => forall n, snd alt prev s = Some n -> fits s n) alts ->
  first_match alts prev s = Some (k, n) -> fits s n.
Proof.
  induction 1 as [| [k' m] alts Hm _ IH]; simpl; [discriminate |].
  destruct (m prev s) as [n' |] eqn:Hn; [| exact IH].
  intros [= <- <-]. now apply Hm.
Qed.

(** Every alternative of [TOKEN_RE] matches at least one character, inside
    the text. *)
Lemma TOKEN_RE_fits prev s k n : TOKEN_RE prev s = Some (k, n) -> fits s n.
Proof.
  apply first_match_fits. unfold TOKEN_PATTERNS.
  repeat (apply List.Forall_cons;
          [cbn [snd]; intros n';
           first [ apply match_number_fits | apply match_string_fits
                 | apply match_ident_fits | apply match_whitespace_fits
                 | apply match_lit_fits; simpl; lia
                 | apply match_keyword_fits; simpl; lia ] |]).
  apply Forall_nil.
Qed.

Lemma substring_drop n : forall m s,
  String.substring n m s = String.substring 0 m (Py.drop n s).
Proof.
  induction n as [| n IH]; intros m [| c r]; try reflexivity.
  - destruct m; reflexivity.
  - simpl. apply IH.
Qed.

Lemma length_substring n : forall s,
  (n <= Py.len s)%nat -> Py.len (String.substring 0 n s) = n.
Proof.
  induction n as [| n IH]; intros [| c r]; simpl; try lia.
  intros Hn. rewrite IH; [reflexivity | lia].
Qed.

Lemma drop_S pos : forall expression c r,
  Py.drop pos expression = String c r -> Py.drop (S pos) expression = r.
Proof.
  induction pos as [| pos IH]; intros [| a e] c r; try discriminate.
  - now intros [= _ ->].
  - change (Py.drop (S pos) (String a e)) with (Py.drop pos e).
    change (Py.drop (S (S pos)) (String a e)) with (Py.drop (S pos) e).
    apply IH.
Qed.

(** The matches lie in [expression] one after the other from [lo] on: each
    has a group name, is not empty, is the text at its offset, and ends
    before the next one starts. *)
Fixpoint matches_in (expression : string) (lo : nat) (ms : list ReMatch)
  : Prop :=
  match ms with
  | [] => True
  | m :: ms' =>
      (lo <= start m)%nat
      /\ is_Some (lastgroup m)
      /\ (1 <= Py.len (group m))%nat
      /\ String.substring (start m) (Py.len (group m)) expression = group m
      /\ (match_end m <= Py.len expression)%nat
      /\ matches_in expression (match_end m) ms'
  end.

Lemma matches_in_weaken expression lo lo' ms :
  (lo' <= lo)%nat -> matches_in expression lo ms ->
  matches_in expression lo' ms.
Proof.
  destruct ms as [| m ms']; simpl; [auto |].
  intros Hlo (? & ?). split; [lia | assumption].
Qed.

Lemma finditer_from_matches_in expression s : forall prev pos skip,
  Py.drop pos expression = s ->
  (pos + Py.len s)%nat = Py.len expression ->
  matches_in expression (pos + skip) (finditer_from prev pos skip s).
Proof.
  induction s as [| c r IH]; intros prev pos skip Hdrop Hlen; [exact I |].
  pose proof (drop_S _ _ _ _ Hdrop) as Hdrop'.
  assert (Hlen' : (S pos + Py.len r)%nat = Py.len expression)
    by (simpl in Hlen; lia).
  cbn [finditer_from]. destruct skip as [| k].
  - destruct (TOKEN_RE prev (String c r)) as [[k n] |] eqn:Hre.
    + apply TOKEN_RE_fits in Hre as [Hn1 Hn2].
      assert (Hg : Py.len (String.substring 0 n (String c r)) = n)
        by now apply length_substring.
      cbn [matches_in start group lastgroup]. unfold match_end.
      cbn [start group]. rewrite Hg.
      split; [lia |]. split; [eauto |]. split; [lia |].
      split; [now rewrite substring_drop, Hdrop |].
      split; [simpl in Hn2; lia |].
      replace (pos + n)%nat with (S pos + (n - 1))%nat by lia.
      now apply IH.
    + apply matches_in_weaken with (lo := (S pos + 0)%nat); [lia |].
      now apply IH.
  - replace (pos + S k)%nat with (S pos + k)%nat by lia. now apply IH.
Qed.

(** The tokens lie in [expression] one after the other from [lo] on, none
    of them white space or empty, each the text at its position. *)
Fixpoint tokens_in (expression : string) (lo : nat) (tokens : list Token)
  : Prop :=
  match tokens with
  | [] => True
  | token :: rest =>
      (lo <= position token)%nat
      /\ type token <> WHITESPACE
      /\ value token <> ""
      /\ String.substring (position token) (Py.len (value token)) expression
         = value token
      /\ tokens_in expression (position token + Py.len (value token)) rest
  end.

(** Where the last token ends; [lo] when there is none. *)
Fixpoint tokens_end (lo : nat) (tokens : list Token) : nat :=
  match tokens with
  | [] => lo
  | token :: rest =>
      tokens_end (position token + Py.len (value token)) rest
  end.

Lemma tokens_end_le expression tokens : forall lo,
  tokens_in expression lo tokens -> (lo <= tokens_end lo tokens)%nat.
Proof.
  induction tokens as [| t rest IH]; intros lo; simpl; [lia |].
  intros (Hlo & _ & _ & _ & Hrest). apply IH in Hrest. lia.
Qed.

Lemma tokens_in_app expression pre : forall lo rest,
  tokens_in expression lo pre ->
  tokens_in expression (tokens_end lo pre) rest ->
  tokens_in expression lo (pre ++ rest).
Proof.
  induction pre as [| t pre IH]; intros lo rest; simpl; [auto |].
  intros (? & ? & ? & ? & Hpre) Hrest. repeat split; auto.
Qed.

Lemma tokens_end_app pre : forall lo rest,
  tokens_end lo (pre ++ rest) = tokens_end (tokens_end lo pre) rest.
Proof.
  induction pre as [| t pre IH]; intros lo rest; simpl; [reflexivity |].
  apply IH.
Qed.

Lemma len_nonempty s : (1 <= Py.len s)%nat -> s <> "".
Proof. destruct s; simpl; [lia | discriminate]. Qed.

(** The loop of [tokenize] on matches that lie in the expression: it does
    not fail, the tokens it adds lie in the expression, and [position] is
    left where the last token ends. *)
Lemma tokenize_loop_tokens_in expression ms : forall acc lo0 lo,
  matches_in expression lo ms ->
  tokens_in expression lo0 acc ->
  tokens_end lo0 acc = lo ->
  exists tokens,
    tokenize_loop ms acc (tokens_end lo0 acc)
    = Ok (tokens, tokens_end lo0 tokens)
    /\ tokens_in expression lo0 tokens
    /\ (tokens_end lo0 tokens <= Py.len expression \/ ms = [])%nat.
Proof.
  induction ms as [| m ms IH]; intros acc lo0 lo Hms Hacc Hend.
  - exists acc. simpl. auto.
  - destruct Hms as (Hlo & [k Hk] & Hlen & Hsub & Hme & Hms).
    cbn [tokenize_loop]. rewrite Hk.
    assert (Hskip : k = WHITESPACE ->
      exists tokens,
        tokenize_loop ms acc (tokens_end lo0 acc)
        = Ok (tokens, tokens_end lo0 tokens)
        /\ tokens_in expression lo0 tokens
        /\ (tokens_end lo0 tokens <= Py.len expression \/ m :: ms = [])%nat).
    { intros _.
      destruct ms as [| m' ms'].
      - exists acc. simpl. split; [reflexivity |]. split; [assumption |].
        left. rewrite Hend. unfold match_end in Hme. lia.
      - destruct (IH acc lo0 lo) as (tokens & Hloop & Hin & [Hle | ?]);
          try assumption; try discriminate.
        + apply matches_in_weaken with (lo := match_end m); [| exact Hms].
          unfold match_end. lia.
        + exists tokens. auto. }
    assert (Htoken : k <> WHITESPACE ->
      exists tokens,
        tokenize_loop ms (acc ++ [mkToken k (group m) (start m)])
          (match_end m)
        = Ok (tokens, tokens_end lo0 tokens)
        /\ tokens_in expression lo0 tokens
        /\ (tokens_end lo0 tokens <= Py.len expression \/ m :: ms = [])%nat).
    { intros Hk'.
      assert (Hacc' : tokens_in expression lo0
                        (acc ++ [mkToken k (group m) (start m)])).
      { apply tokens_in_app; [assumption |]. simpl. rewrite Hend.
        repeat split; auto using len_nonempty. }
      assert (Hend' : tokens_end lo0 (acc ++ [mkToken k (group m) (start m)])
                      = match_end m).
      { rewrite tokens_end_app. reflexivity. }
      destruct ms as [| m' ms'].
      - eexists. simpl. rewrite <- Hend' at 1. split; [reflexivity |].
        split; [assumption |]. left. now rewrite Hend'.
      - destruct (IH _ lo0 (match_end m) Hms Hacc' Hend')
          as (tokens & Hloop & Hin & [Hle | ?]); try discriminate.
        rewrite Hend' in Hloop. exists tokens. auto. }
    destruct k; first [apply Hskip; reflexivity | apply Htoken; discriminate].
Qed.

(** X22. The tokens of an expression that tokenizes lie in it: each token
    is the text of the expression at its position, none is empty or white
    space, they follow one another without overlap in the order of their
    positions, and the last one ends where the expression ends. The empty
    list of tokens is returned for the empty expression only. *)
Theorem tokens_lie_in_the_expression
    (expression : string) (tokens : list Token) :
  tokenize expression = Ok tokens ->
  tokens_in expression 0 tokens
  /\ tokens_end 0 tokens = Py.len expression
  /\ (tokens = [] <-> expression = "").
Proof.
  unfold tokenize.
  destruct (tokenize_loop_tokens_in expression (finditer expression) [] 0%nat
              0%nat)
    as (tokens' & Hloop & Hin & Hend); try exact I; try reflexivity.
  { apply (finditer_from_matches_in expression expression None 0 0);
      reflexivity. }
  cbn [tokens_end] in Hloop. rewrite Hloop.
  destruct (Nat.ltb_spec (tokens_end 0 tokens') (Py.len expression))
    as [| Hge]; [discriminate |].
  intros [= <-].
  assert (Hlen : tokens_end 0 tokens' = Py.len expression).
  { destruct Hend as [Hle | Hnil]; [lia |].
    destruct expression as [| c r].
    - inversion Hloop. subst tokens'. reflexivity.
    - rewrite Hnil in Hloop. inversion Hloop. subst tokens'.
      simpl in Hge. lia. }
  split; [assumption |]. split; [assumption |]. split.
  - intros ->. simpl in Hlen. destruct expression; [reflexivity | discriminate].
  - intros ->. inversion Hloop. reflexivity.
Qed.

Lemma tokens_lie_in_the_expression_witness :
  tokens_end 0
    [mkToken IDENT "line" 0; mkToken DOT "." 4; mkToken IDENT "length" 5;
     mkToken GT ">" 12; mkToken NUMBER "5" 14] = 15%nat.
Proof.
  exact (proj1 (proj2 (tokens_lie_in_the_expression "line.length > 5"
                         [mkToken IDENT "line" 0; mkToken DOT "." 4;
                          mkToken IDENT "length" 5; mkToken GT ">" 12;
                          mkToken NUMBER "5" 14] eq_refl))).
Defined.

End TokenizerLaws.

(** ** The tokenizer: words *)

Module WordLaws.
Import WhereParser TokenizerLaws.

Fixpoint all_chars (p : ascii -> bool) (s : string) : bool :=
  match s with
  | EmptyString => true
  | String c r => p c && all_chars p r
  end.

(** A word: a letter or an underscore, then letters, digits and
    underscores. *)
Definition is_identifier (w : string) : bool :=
  match w with
  | String c r => Py.is_ident_start c && all_chars Py.is_ident_char r
  | EmptyString => false
  end.

(** The token type of a word: the three keywords have their own. *)
Definition word_kind (w : string) : TokenKind :=
  if String.eqb w "and" then AND
  else if String.eqb w "or" then OR
  else if String.eqb w "not" then NOT
  else IDENT.

Lemma ident_start_facts c :
  Py.is_ident_start c = true ->
  Py.is_digit c = false
  /\ Ascii.eqb c "-" = false
  /\ (Ascii.eqb c "034" || Ascii.eqb c "'") = false
  /\ Ascii.eqb ">" c = false /\ Ascii.eqb "<" c = false
  /\ Ascii.eqb "=" c = false /\ Ascii.eqb "!" c = false.
Proof.
  destruct c as [[] [] [] [] [] [] [] []]; vm_compute; intros Hc;
    try discriminate Hc; repeat split; reflexivity.
Qed.

Lemma ident_char_is_word c : Py.is_ident_char c = true -> Py.is_word c = true.
Proof. unfold Py.is_word. now intros ->. Qed.

Lemma span_all p s : all_chars p s = true -> span p s = Py.len s.
Proof.
  induction s as [| c r IH]; simpl; [reflexivity |].
  intros [-> Hr]%andb_prop. now rewrite IH.
Qed.

Lemma prefix_split t : forall s,
  String.prefix t s = true -> exists rest, s = t ++ rest.
Proof.
  induction t as [| a t IH]; intros s.
  - intros _. now exists s.
  - destruct s as [| b s]; [discriminate |].
    rewrite ParserProps.prefix_cons.
    intros [Hab Hts]%andb_prop. apply Ascii.eqb_eq in Hab as ->.
    destruct (IH s Hts) as [rest ->]. now exists rest.
Qed.

Lemma prefix_append t rest : String.prefix t (t ++ rest) = true.
Proof.
  induction t as [| a t IH].
  - destruct rest; reflexivity.
  - change (String a t ++ rest) with (String a (t ++ rest)).
    now rewrite ParserProps.prefix_cons, Ascii.eqb_refl.
Qed.

Lemma drop_append t rest : Py.drop (Py.len t) (t ++ rest) = rest.
Proof.
  induction t as [| a t IH]; [destruct rest; reflexivity | exact IH].
Qed.

Lemma append_nil t : t ++ "" = t.
Proof.
  induction t as [| a t IH]; [reflexivity |].
  change (String a t ++ "") with (String a (t ++ "")). now rewrite IH.
Qed.

Lemma length_append t rest :
  Py.len (t ++ rest) = (Py.len t + Py.len rest)%nat.
Proof.
  induction t as [| a t IH]; [reflexivity |].
  change (String a t ++ rest) with (String a (t ++ rest)).
  unfold Py.len in *. cbn [String.length Nat.add]. f_equal. exact IH.
Qed.

Lemma all_chars_append p t rest :
  all_chars p (t ++ rest) = all_chars p t && all_chars p rest.
Proof.
  induction t as [| a t IH]; [reflexivity |].
  change (String a t ++ rest) with (String a (t ++ rest)).
  simpl. now rewrite IH, andb_assoc.
Qed.

(** Inside a word a keyword is matched by [\bkw\b] only when it is the
    whole word. *)
Lemma match_keyword_word kw w :
  all_chars Py.is_word w = true ->
  match_keyword kw None w
  = if String.eqb w kw then Some (Py.len kw) else None.
Proof.
  intros Hw. unfold match_keyword. cbn [word_char negb andb].
  destruct (String.prefix kw w) eqn:Hp.
  - apply prefix_split in Hp as [rest ->]. rewrite drop_append.
    rewrite all_chars_append in Hw. apply andb_prop in Hw as [_ Hrest].
    destruct rest as [| d rest].
    + rewrite append_nil, String.eqb_refl. reflexivity.
    + simpl in Hrest. apply andb_prop in Hrest as [Hd _].
      cbn [head word_char]. rewrite Hd. cbn [negb andb].
      destruct (String.eqb_spec (kw ++ String d rest) kw) as [Heq |];
        [| reflexivity].
      apply (f_equal Py.len) in Heq. rewrite length_append in Heq.
      simpl in Heq. lia.
  - destruct (String.eqb_spec w kw) as [-> |]; [| reflexivity].
    rewrite <- (append_nil kw) in Hp at 2. now rewrite prefix_append in Hp.
Qed.

Lemma all_chars_impl (p q : ascii -> bool) s :
  (forall c, p c = true -> q c = true) ->
  all_chars p s = true -> all_chars q s = true.
Proof.
  intros Hpq. induction s as [| c r IH]; simpl; [reflexivity |].
  intros [Hc Hr]%andb_prop. now rewrite (Hpq c Hc), IH.
Qed.

Lemma TOKEN_RE_word w :
  is_identifier w = true ->
  TOKEN_RE None w = Some (word_kind w, Py.len w).
Proof.
  destruct w as [| c r]; [discriminate |]. cbn [is_identifier].
  intros [Hc Hr]%andb_prop.
  destruct (ident_start_facts c Hc)
    as (Hdigit & Hminus & Hquote & Hgt & Hlt & Heq & Hneq).
  assert (Hword : all_chars Py.is_word (String c r) = true).
  { apply all_chars_impl with (p := Py.is_ident_char);
      [apply ident_char_is_word |].
    simpl. unfold Py.is_ident_char at 1. now rewrite Hc, Hr. }
  unfold TOKEN_RE, TOKEN_PATTERNS. cbn [first_match].
  rewrite match_number_cons, Hminus. cbn [span]. rewrite Hdigit.
  cbn [nonzero match_string]. rewrite Hquote.
  unfold match_lit. rewrite !ParserProps.prefix_cons.
  rewrite Hgt, Hlt, Heq, Hneq. cbn [andb].
  rewrite !(match_keyword_word _ _ Hword). unfold word_kind.
  destruct (String.eqb_spec (String c r) "and") as [-> |]; [reflexivity |].
  destruct (String.eqb_spec (String c r) "or") as [-> |]; [reflexivity |].
  destruct (String.eqb_spec (String c r) "not") as [-> |]; [reflexivity |].
  cbn [match_ident]. rewrite Hc, (span_all _ _ Hr). reflexivity.
Qed.

Lemma finditer_from_skipped s : forall prev pos skip,
  (Py.len s <= skip)%nat -> finditer_from prev pos skip s = [].
Proof.
  induction s as [| c r IH]; intros prev pos skip Hskip; [reflexivity |].
  destruct skip as [| k]; [simpl in Hskip; lia |].
  cbn [finditer_from]. apply IH. simpl in Hskip. lia.
Qed.

Lemma substring_whole s : String.substring 0 (Py.len s) s = s.
Proof. induction s as [| c r IH]; simpl; [reflexivity | now rewrite IH]. Qed.

Lemma tokenize_loop_one k text pos :
  k <> WHITESPACE ->
  tokenize_loop [mkReMatch (Some k) text pos] [] 0
  = Ok ([mkToken k text pos], (pos + Py.len text)%nat).
Proof. intros Hk. destruct k; try reflexivity. contradiction. Qed.

(** X23. A word is one token: an expression made of a letter or an
    underscore followed by letters, digits and underscores tokenizes to a
    single token holding the whole word, of type AND, OR or NOT when the
    word is that keyword and IDENT otherwise. A keyword at the start of a
    longer word is not split off. *)
Theorem a_word_is_one_token (w : string) :
  is_identifier w = true ->
  tokenize w = Ok [mkToken (word_kind w) w 0].
Proof.
  intros Hw. pose proof (TOKEN_RE_word w Hw) as Hre.
  unfold tokenize, finditer.
  destruct w as [| c r]; [discriminate |].
  cbn [finditer_from]. rewrite Hre.
  rewrite finditer_from_skipped by (simpl; lia).
  rewrite substring_whole, tokenize_loop_one.
  - now rewrite Nat.ltb_irrefl.
  - unfold word_kind. repeat case_match; discriminate.
Qed.

Lemma a_word_is_one_token_witness :
  tokenize "android_2" = Ok [mkToken IDENT "android_2" 0].
Proof. exact (a_word_is_one_token "android_2" eq_refl). Defined.

End WordLaws.

(** ** The tokenizer: numbers *)

Module NumberLaws.
Import WhereParser TokenizerLaws WordLaws.

(** The text of [\d+]. *)
Definition is_digits (s : string) : bool :=
  match s with
  | EmptyString => false
  | _ => all_chars Py.is_digit s
  end.

(** The text of [-?\d+]. *)
Definition is_number_text (s : string) : bool :=
  match s with
  | String c r => if Ascii.eqb c "-" then is_digits r else is_digits s
  | EmptyString => false
  end.

Lemma substring_span p s :
  all_chars p (String.substring 0 (span p s) s) = true.
Proof.
  induction s as [| c r IH]; simpl; [reflexivity |].
  destruct (p c) eqn:Hc; simpl; [now rewrite Hc | reflexivity].
Qed.

Lemma is_digits_span s :
  (1 <= span Py.is_digit s)%nat ->
  is_digits (String.substring 0 (span Py.is_digit s) s) = true.
Proof.
  pose proof (substring_span Py.is_digit s) as Hall.
  destruct s as [| c r]; simpl in *; [lia |].
  destruct (Py.is_digit c); [intros _; exact Hall | lia].
Qed.

Lemma match_number_text s n :
  match_number s = Some n ->
  is_number_text (String.substring 0 n s) = true.
Proof.
  destruct s as [| c r]; [discriminate |]. rewrite match_number_cons.
  destruct (Ascii.eqb c "-") eqn:Hc.
  - destruct (nonzero _) as [m |] eqn:Hm; [| discriminate].
    intros [= <-]. apply nonzero_Some in Hm as [-> Hm].
    change (String.substring 0 (S (span Py.is_digit r)) (String c r))
      with (String c (String.substring 0 (span Py.is_digit r) r)).
    cbn [is_number_text]. rewrite Hc. now apply is_digits_span.
  - intros [-> Hn]%nonzero_Some.
    pose proof (is_digits_span (String c r) Hn) as Hd.
    destruct (String.substring 0 _ (String c r)) as [| c' r'] eqn:Hs;
      [discriminate |].
    cbn [is_number_text].
    assert (c' = c) as ->.
    { simpl in Hs. destruct (Py.is_digit c); simpl in Hs; congruence. }
    now rewrite Hc.
Qed.

Lemma uint_of_char_digit c d :
  Py.is_digit c = true -> is_Some (uint_of_char c (Some d)).
Proof.
  destruct c as [[] [] [] [] [] [] [] []]; vm_compute; intros Hc;
    try discriminate Hc; eauto.
Qed.

Lemma uint_of_string_digits s :
  all_chars Py.is_digit s = true -> is_Some (NilEmpty.uint_of_string s).
Proof.
  induction s as [| c r IH]; simpl; [eauto |].
  intros [Hc Hr]%andb_prop. destruct (IH Hr) as [d ->].
  now apply uint_of_char_digit.
Qed.

Lemma digit_is_not_minus c : Py.is_digit c = true -> Ascii.eqb c "-" = false.
Proof.
  destruct c as [[] [] [] [] [] [] [] []]; vm_compute; intros Hc;
    try discriminate Hc; reflexivity.
Qed.

Lemma int_of_string_number_text s :
  is_number_text s = true -> is_Some (NilZero.int_of_string s).
Proof.
  destruct s as [| c r]; [discriminate |].
  cbn [is_number_text NilZero.int_of_string].
  destruct (Ascii.eqb c "-").
  - destruct r as [| d r']; [discriminate |]. cbn [is_digits].
    intros [i Hi]%uint_of_string_digits.
    unfold NilZero.uint_of_string. rewrite Hi. simpl. eauto.
  - cbn [is_digits]. intros [i Hi]%uint_of_string_digits.
    unfold NilZero.uint_of_string. rewrite Hi. simpl. eauto.
Qed.

Lemma TOKEN_RE_NUMBER prev s n :
  TOKEN_RE prev s = Some (NUMBER, n) -> match_number s = Some n.
Proof.
  unfold TOKEN_RE, TOKEN_PATTERNS. cbn [first_match].
  destruct (match_number s); [congruence |].
  repeat (case_match; [discriminate |]). discriminate.
Qed.

Lemma finditer_from_NUMBER prev pos skip s m :
  In m (finditer_from prev pos skip s) ->
  lastgroup m = Some NUMBER ->
  is_number_text (group m) = true.
Proof.
  revert prev pos skip. induction s as [| c r IH]; intros prev pos skip.
  - intros [].
  - cbn [finditer_from]. destruct skip as [| k]; [| eauto].
    destruct (TOKEN_RE prev (String c r)) as [[k n] |] eqn:Hre; [| eauto].
    intros [<- | Hin]; [| eauto]. cbn [lastgroup group].
    intros [= ->]. eapply match_number_text, TOKEN_RE_NUMBER, Hre.
Qed.

(** The number of digits that [int] counts against its limit. *)
Definition digits (s : string) : nat :=
  match s with
  | String "-" r => Py.len r
  | _ => Py.len s
  end.

(** X24. Every NUMBER token of an expression that tokenizes is an
    optional minus sign followed by one digit or more, and [int] accepts
    it: the conversion in [parse_atom] never fails with an invalid
    literal; it gives an integer unless the token has more than 4300
    digits, the limit of the conversion. *)
Theorem number_tokens_convert
    (expression : string) (tokens : list Token) (token : Token) :
  tokenize expression = Ok tokens ->
  In token tokens ->
  type token = NUMBER ->
  is_number_text (value token) = true
  /\ if (Py.int_max_str_digits <? digits (value token))%nat
     then exists msg, int_of_str (value token) = Raise msg
                      /\ String.prefix "Exceeds the limit" msg = true
     else exists z, int_of_str (value token) = Return z.
Proof.
  unfold tokenize.
  destruct (tokenize_loop (finditer expression) [] 0)
    as [[tokens' position] |] eqn:Hloop; [| discriminate].
  destruct (_ <? _)%nat; [discriminate |].
  intros [= <-] Hin Hty.
  destruct (TokenizerProps.tokenize_loop_tokens _ _ _ _ _ _ Hloop Hin)
    as [[] | (m & Hm & Hgroup & <-)].
  rewrite Hty in Hgroup.
  pose proof (finditer_from_NUMBER _ _ _ _ _ Hm Hgroup) as Htext.
  split; [exact Htext |].
  destruct (int_of_string_number_text _ Htext) as [i Hi].
  unfold int_of_str. rewrite Hi. fold (digits (group m)).
  destruct (_ <? _)%nat; eauto.
Qed.

Lemma number_tokens_convert_witness :
  exists z, int_of_str "-007" = Return z.
Proof.
  exact (proj2 (number_tokens_convert "line.number > -007"
                  [mkToken IDENT "line" 0; mkToken DOT "." 4;
                   mkToken IDENT "number" 5; mkToken GT ">" 12;
                   mkToken NUMBER "-007" 14]
                  (mkToken NUMBER "-007" 14)
                  eq_refl
                  (or_intror (or_intror (or_intror (or_intror
                     (or_introl eq_refl)))))
                  eq_refl)).
Defined.

End NumberLaws.

(** ** The parser: progress, shape of the result, refusals *)

Module ParserLaws.
Import Types WhereParser ParserProps.

Lemma not_Fuel_le {A} (r r' : pres A) :
  pres_le r r' -> r <> Fuel -> r' = r.
Proof. intros [-> | <-] Hr; [contradiction | reflexivity]. Qed.

(** A parsing method that returns with some fuel has consumed a token and
    stopped inside the token list. *)
Lemma returns_advance tokens (m : nat -> P ASTNode) bound p fuel ast q :
  (forall f f', (f <= f')%nat -> pres_le (m f p) (m f' p)) ->
  (forall f, (bound <= f)%nat -> advances tokens (S p) (m f p)) ->
  m fuel p = Val ast q ->
  (p < q <= List.length tokens)%nat.
Proof.
  intros Hmono Hadv Hval.
  specialize (Hadv (Nat.max fuel bound) ltac:(lia)).
  rewrite (not_Fuel_le _ _ (Hmono fuel (Nat.max fuel bound) ltac:(lia)))
    in Hadv by (rewrite Hval; discriminate).
  rewrite Hval in Hadv. simpl in Hadv. lia.
Qed.

(** X25. The parser always makes progress. Started inside the token
    list, each of [parse_or_expr], [parse_and_expr], [parse_cmp_expr],
    [parse_term] and [parse_atom] that returns has consumed at least one
    token and has not run past the last one, so the two loops and the
    recursion end. The fuel that the model of [parse] gives is enough, and
    more fuel changes nothing: the result of the model does not depend on
    fuel. *)
Theorem parser_makes_progress (tokens : list Token) :
  (forall fuel p ast q,
     (p <= List.length tokens)%nat ->
     parse_or_expr tokens fuel p = Val ast q
     \/ parse_and_expr tokens fuel p = Val ast q
     \/ parse_cmp_expr tokens fuel p = Val ast q
     \/ parse_term tokens fuel p = Val ast q
     \/ parse_atom tokens fuel p = Val ast q ->
     (p < q <= List.length tokens)%nat)
  /\ parse_or_expr tokens (parse_fuel tokens) 0%nat <> Fuel
  /\ forall fuel,
       (parse_fuel tokens <= fuel)%nat ->
       parse_or_expr tokens fuel 0%nat
       = parse_or_expr tokens (parse_fuel tokens) 0%nat.
Proof.
  split; [| split].
  - intros fuel p ast q Hp Hval.
    destruct (progress tokens (List.length tokens - p) p Hp ltac:(lia))
      as (Hor & _ & Hand & _ & Hcmp & Hterm & Hatom).
    assert (Hmono : forall f f', (f <= f')%nat ->
      pres_le (parse_or_expr tokens f p) (parse_or_expr tokens f' p)
      /\ pres_le (parse_and_expr tokens f p) (parse_and_expr tokens f' p)
      /\ pres_le (parse_cmp_expr tokens f p) (parse_cmp_expr tokens f' p)
      /\ pres_le (parse_term tokens f p) (parse_term tokens f' p)
      /\ pres_le (parse_atom tokens f p) (parse_atom tokens f' p)).
    { intros f f' Hle.
      destruct (fuel_monotone tokens f f' Hle)
        as (H1 & _ & H2 & _ & H3 & H4 & H5).
      auto. }
    destruct Hval as [Hval | [Hval | [Hval | [Hval | Hval]]]].
    + eapply (returns_advance tokens (parse_or_expr tokens));
        [intros f f' Hle; apply (Hmono f f' Hle) | exact Hor | exact Hval].
    + eapply (returns_advance tokens (parse_and_expr tokens));
        [intros f f' Hle; apply (Hmono f f' Hle) | exact Hand | exact Hval].
    + eapply (returns_advance tokens (parse_cmp_expr tokens));
        [intros f f' Hle; apply (Hmono f f' Hle) | exact Hcmp | exact Hval].
    + eapply (returns_advance tokens (parse_term tokens));
        [intros f f' Hle; apply (Hmono f f' Hle) | exact Hterm | exact Hval].
    + eapply (returns_advance tokens (parse_atom tokens));
        [intros f f' Hle; apply (Hmono f f' Hle) | exact Hatom | exact Hval].
  - apply parse_fuel_enough.
  - intros fuel Hle.
    apply not_Fuel_le; [| apply parse_fuel_enough].
    apply (fuel_monotone tokens _ _ Hle).
Qed.

End ParserLaws.

Module ParserShape.
Import Types WhereParser ParserProps.

(** The operators that [_evaluate_node] knows. *)
Definition binary_operators : list string :=
  [">"; "<"; ">="; "<="; "=="; "!="; "and"; "or"].

(** What the parser can build: integer and text literals, member access,
    method calls with at most one argument, group access, the eight binary
    operators and [not]. *)
Fixpoint well_formed (ast : ASTNode) : bool :=
  match ast with
  | Literal (VInt _) | Literal (VStr _) => true
  | Literal _ => false
  | Attribute _ _ => true
  | MethodCall _ _ args => (List.length args <=? 1)%nat
  | GroupAccess _ => true
  | BinaryOp l op r =>
      existsb (String.eqb op) binary_operators
      && well_formed l && well_formed r
  | UnaryOp op operand => String.eqb op "not" && well_formed operand
  end.

Section Shape.
Variable tokens : list Token.

Ltac run :=
  unfold bind, current_token, current_type, consume, ret, raise, lift_exc;
  repeat (case_match; try discriminate).

Lemma parser_builds_well_formed fuel :
  (forall p ast q,
     parse_or_expr tokens fuel p = Val ast q -> well_formed ast = true)
  /\ (forall l p ast q,
        well_formed l = true ->
        or_loop tokens fuel l p = Val ast q -> well_formed ast = true)
  /\ (forall p ast q,
        parse_and_expr tokens fuel p = Val ast q -> well_formed ast = true)
  /\ (forall l p ast q,
        well_formed l = true ->
        and_loop tokens fuel l p = Val ast q -> well_formed ast = true)
  /\ (forall p ast q,
        parse_cmp_expr tokens fuel p = Val ast q -> well_formed ast = true)
  /\ (forall p ast q,
        parse_term tokens fuel p = Val ast q -> well_formed ast = true)
  /\ (forall p ast q,
        parse_atom tokens fuel p = Val ast q -> well_formed ast = true).
Proof.
  induction fuel as [| fuel (Hor & Horl & Hand & Handl & Hcmp & Hterm & Hatom)].
  { repeat split; intros; discriminate. }
  split; [| split; [| split; [| split; [| split; [| split]]]]].
  - intros p ast q. cbn [parse_or_expr]. run. now eauto.
  - intros l p ast q Hl. cbn [or_loop]. run;
      try (intros [= <- <-]; exact Hl).
    intros Hloop. eapply Horl; [| exact Hloop].
    simpl. rewrite Hl. now eauto.
  - intros p ast q. cbn [parse_and_expr]. run. now eauto.
  - intros l p ast q Hl. cbn [and_loop]. run;
      try (intros [= <- <-]; exact Hl).
    intros Hloop. eapply Handl; [| exact Hloop].
    simpl. rewrite Hl. now eauto.
  - intros p ast q. cbn [parse_cmp_expr]. run;
      intros [= <- <-]; [| now eauto ..].
    match goal with
    | H : _ ≫= op_map = Some ?op |- _ =>
        assert (Hop : existsb (String.eqb op) binary_operators = true);
        [apply bind_Some in H as (k & _ & Hk);
         destruct k; simpl in Hk; inversion Hk; reflexivity |]
    end.
    cbn [well_formed]. rewrite Hop. simpl.
    apply andb_true_intro. split; now eauto.
  - intros p ast q. cbn [parse_term]. run;
      intros Hval; try (injection Hval as <- <-; simpl); now eauto.
  - intros p ast q. cbn [parse_atom]. run;
      intros Hval; simplify_eq; first [reflexivity | now eauto].
Qed.

End Shape.

(** X26. Every AST that [parse] returns is well formed: its literals are
    integers and texts (there is no literal for a boolean or for None),
    its method calls have one argument at most, its binary operators are
    among the eight that the evaluator knows and its unary operator is
    [not]. The branches of the evaluator for an unknown operator are
    never reached from a parsed clause. *)
Theorem parse_builds_well_formed_asts
    (tokens : list Token) (ast : ASTNode) :
  parse tokens = Ok ast -> well_formed ast = true.
Proof.
  unfold parse.
  destruct (parse_or_expr tokens (parse_fuel tokens) 0%nat) as [a q | |]
    eqn:Hor;
    try discriminate.
  destruct (tokens !! q); [discriminate |].
  intros [= <-].
  eapply (proj1 (parser_builds_well_formed tokens _)), Hor.
Qed.

Lemma parse_builds_well_formed_asts_witness :
  well_formed
    (BinaryOp (UnaryOp "not" (Attribute "line" "length")) "=="
       (Literal (VInt 1))) = true.
Proof.
  exact (parse_builds_well_formed_asts
           [mkToken NOT "not" 0; mkToken IDENT "line" 4; mkToken DOT "." 8;
            mkToken IDENT "length" 9; mkToken EQ "==" 16;
            mkToken NUMBER "1" 19]
           (BinaryOp (UnaryOp "not" (Attribute "line" "length")) "=="
              (Literal (VInt 1)))
           eq_refl).
Defined.

End ParserShape.

Module ParserRefusals.
Import Types WhereParser ParserProps.

(** An error of [parse_atom] at the first token, when that token is not
    [not], is the error of [parse]. *)
Lemma parse_atom_error_at_start tokens fuel msg :
  parse_atom tokens fuel 0%nat = Exn msg ->
  type <$> tokens !! 0%nat <> Some NOT ->
  parse tokens = Err msg.
Proof.
  intros Hatom Hnot.
  set (f4 := (6 * List.length tokens + 1)%nat).
  assert (Hf4 : parse_atom tokens f4 0%nat = Exn msg).
  { destruct (progress tokens (List.length tokens) 0%nat
                ltac:(lia) ltac:(lia)) as (_ & _ & _ & _ & _ & _ & Hadv).
    specialize (Hadv f4 ltac:(subst f4; lia)).
    destruct (fuel_monotone tokens f4 (Nat.max f4 fuel) ltac:(lia))
      as (_ & _ & _ & _ & _ & _ & H1).
    destruct (fuel_monotone tokens fuel (Nat.max f4 fuel) ltac:(lia))
      as (_ & _ & _ & _ & _ & _ & H2).
    destruct (H1 0%nat) as [H1' | H1'];
      [rewrite H1' in Hadv; contradiction |].
    destruct (H2 0%nat) as [H2' | H2']; congruence. }
  assert (Hterm : parse_term tokens (S f4) 0%nat = Exn msg).
  { cbn [parse_term]. unfold bind, current_type.
    destruct (type <$> tokens !! 0%nat) as [k |]; [| exact Hf4].
    destruct k; try congruence; exact Hf4. }
  assert (Hcmp : parse_cmp_expr tokens (S (S f4)) 0%nat = Exn msg).
  { cbn [parse_cmp_expr]. unfold bind at 1. now rewrite Hterm. }
  assert (Hand : parse_and_expr tokens (S (S (S f4))) 0%nat = Exn msg).
  { rewrite parse_and_expr_S. unfold bind. now rewrite Hcmp. }
  unfold parse, parse_fuel.
  replace (6 * List.length tokens + 6)%nat
    with (S (S (S (S (S f4))))) by (subst f4; lia).
  rewrite parse_or_expr_S. unfold bind.
  destruct (fuel_monotone tokens (S (S (S f4))) (S (S (S (S f4))))
              ltac:(lia)) as (_ & _ & Hmono & _).
  destruct (Hmono 0%nat) as [Hm | Hm]; [congruence |].
  now rewrite <- Hm, Hand.
Qed.

(** X27. What the parser refuses and what it lets through, at the start
    of a clause. A bare identifier (such as [true]) is refused; a call of
    any function other than [group] is refused; [group(] must be followed
    by a quoted string; a method call takes one argument at most, a
    second one is refused where the closing parenthesis is expected. The
    names in [object.member] are not checked: any two identifiers parse
    to an attribute access. *)
Theorem parse_refusals
    (rest : list Token) (name v : string) (p p' : nat) :
  let next := type <$> rest !! 0%nat in
  (next <> Some DOT -> next <> Some LPAREN ->
   parse (mkToken IDENT name p :: rest)
   = Err ("Unexpected identifier: " ++ name))
  /\ (name <> "group" ->
      parse (mkToken IDENT name p :: mkToken LPAREN v p' :: rest)
      = Err ("Unknown function: " ++ name))
  /\ (next <> Some STRING ->
      parse (mkToken IDENT "group" p :: mkToken LPAREN v p' :: rest)
      = Err "group() requires string argument")
  /\ (forall obj member arg t p1 p2 p3 p4 v1 v2,
        type t <> RPAREN ->
        parse (mkToken IDENT obj p :: mkToken DOT v1 p1
               :: mkToken IDENT member p2 :: mkToken LPAREN v2 p3
               :: mkToken STRING arg p4 :: t :: rest)
        = Err ("Expected RPAREN, got " ++ kind_name (type t)
               ++ " at position " ++ Py.str_of_nat (position t)))
  /\ (forall obj member p1 p2 v1,
        parse [mkToken IDENT obj p; mkToken DOT v1 p1;
               mkToken IDENT member p2]
        = Ok (Attribute obj member)).
Proof.
  intros next. subst next.
  split; [| split; [| split; [| split]]].
  all: try (intros; apply (parse_atom_error_at_start _ 1);
            [| discriminate]; cbn [parse_atom];
            unfold bind, current_token, current_type, consume, ret, raise;
            simpl).
  - destruct (rest !! 0%nat) as [t |]; simpl in *;
      [destruct (type t); congruence | reflexivity].
  - match goal with H : name <> _ |- _ => apply String.eqb_neq in H as -> end.
    reflexivity.
  - destruct (rest !! 0%nat) as [t |]; simpl in *;
      [destruct (type t); congruence | reflexivity].
  - destruct (decide (type t = RPAREN)); [contradiction | reflexivity].
  - intros obj member p1 p2 v1. reflexivity.
Qed.

End ParserRefusals.

(** ** The parser and its grammar *)

Module GrammarLaws.
Import Types WhereParser ParserProps.

(** The grammar that the parsing methods follow, one level for each
    method: [or_expr], [and_expr], [cmp_expr], [term] and [atom]. *)
Inductive Level : Type := LOr | LAnd | LCmp | LTerm | LAtom.

(** [derives level tokens ast]: the token list is a sentence of the level
    and [ast] is its tree. An object and a member are any identifiers, a
    method call has one quoted argument or none, and the function called
    is [group]. *)
Inductive derives : Level -> list Token -> ASTNode -> Prop :=
| or_one ts a :
    derives LAnd ts a -> derives LOr ts a
| or_more ts1 t ts2 l r :
    derives LOr ts1 l -> type t = OR -> derives LAnd ts2 r ->
    derives LOr (ts1 ++ t :: ts2) (BinaryOp l "or" r)
| and_one ts a :
    derives LCmp ts a -> derives LAnd ts a
| and_more ts1 t ts2 l r :
    derives LAnd ts1 l -> type t = AND -> derives LCmp ts2 r ->
    derives LAnd (ts1 ++ t :: ts2) (BinaryOp l "and" r)
| cmp_one ts a :
    derives LTerm ts a -> derives LCmp ts a
| cmp_two ts1 t ts2 l op r :
    derives LTerm ts1 l -> op_map (type t) = Some op -> derives LTerm ts2 r ->
    derives LCmp (ts1 ++ t :: ts2) (BinaryOp l op r)
| term_not t ts a :
    type t = NOT -> derives LTerm ts a ->
    derives LTerm (t :: ts) (UnaryOp "not" a)
| term_atom ts a :
    derives LAtom ts a -> derives LTerm ts a
| atom_paren lp ts rp a :
    type lp = LPAREN -> derives LOr ts a -> type rp = RPAREN ->
    derives LAtom (lp :: ts ++ [rp]) a
| atom_number t z :
    type t = NUMBER -> int_of_str (value t) = Return z ->
    derives LAtom [t] (Literal (VInt z))
| atom_string t :
    type t = STRING ->
    derives LAtom [t] (Literal (VStr (string_value (value t))))
| atom_attribute o d m :
    type o = IDENT -> type d = DOT -> type m = IDENT ->
    derives LAtom [o; d; m] (Attribute (value o) (value m))
| atom_call_0 o d m lp rp :
    type o = IDENT -> type d = DOT -> type m = IDENT ->
    type lp = LPAREN -> type rp = RPAREN ->
    derives LAtom [o; d; m; lp; rp] (MethodCall (value o) (value m) [])
| atom_call_1 o d m lp s rp :
    type o = IDENT -> type d = DOT -> type m = IDENT ->
    type lp = LPAREN -> type s = STRING -> type rp = RPAREN ->
    derives LAtom [o; d; m; lp; s; rp]
      (MethodCall (value o) (value m) [string_value (value s)])
| atom_group g lp s rp :
    type g = IDENT -> value g = "group" ->
    type lp = LPAREN -> type s = STRING -> type rp = RPAREN ->
    derives LAtom [g; lp; s; rp] (GroupAccess (string_value (value s))).

(** *** What the parser returns is a sentence *)

Section Sound.
Variable tokens : list Token.

(** The tokens from [p] up to [q]. *)
Definition spans (p q : nat) (ts : list Token) : Prop :=
  drop p tokens = (ts ++ drop q tokens)%list /\ q = (p + List.length ts)%nat.

Lemma spans_nil p : spans p p [].
Proof. split; [reflexivity | simpl; lia]. Qed.

Lemma spans_cons p q t ts :
  tokens !! p = Some t -> spans (S p) q ts -> spans p q (t :: ts).
Proof.
  intros Ht [Hdrop ->]. split; [| simpl; lia].
  rewrite (drop_S _ _ _ Ht), Hdrop. reflexivity.
Qed.

Lemma spans_app p q r ts1 ts2 :
  spans p q ts1 -> spans q r ts2 -> spans p r (ts1 ++ ts2).
Proof.
  intros [H1 ->] [H2 ->]. split.
  - rewrite H1, H2, app_assoc. reflexivity.
  - rewrite length_app. lia.
Qed.

Lemma spans_one p t : tokens !! p = Some t -> spans p (S p) [t].
Proof. intros Ht. apply spans_cons; [exact Ht | apply spans_nil]. Qed.

Ltac run :=
  unfold bind, current_token, current_type, consume, ret, raise, lift_exc;
  repeat (case_match; try discriminate).

Ltac span :=
  repeat first
    [ apply spans_nil
    | eapply spans_cons; [eassumption |] ].

Lemma parser_returns_sentences fuel :
  (forall p a q,
     parse_or_expr tokens fuel p = Val a q ->
     exists ts, spans p q ts /\ derives LOr ts a)
  /\ (forall l p a q,
        or_loop tokens fuel l p = Val a q ->
        forall ts0, derives LOr ts0 l ->
        exists ts, spans p q ts /\ derives LOr (ts0 ++ ts) a)
  /\ (forall p a q,
        parse_and_expr tokens fuel p = Val a q ->
        exists ts, spans p q ts /\ derives LAnd ts a)
  /\ (forall l p a q,
        and_loop tokens fuel l p = Val a q ->
        forall ts0, derives LAnd ts0 l ->
        exists ts, spans p q ts /\ derives LAnd (ts0 ++ ts) a)
  /\ (forall p a q,
        parse_cmp_expr tokens fuel p = Val a q ->
        exists ts, spans p q ts /\ derives LCmp ts a)
  /\ (forall p a q,
        parse_term tokens fuel p = Val a q ->
        exists ts, spans p q ts /\ derives LTerm ts a)
  /\ (forall p a q,
        parse_atom tokens fuel p = Val a q ->
        exists ts, spans p q ts /\ derives LAtom ts a).
Proof.
  induction fuel as [| fuel (Hor & Horl & Hand & Handl & Hcmp & Hterm & Hatom)].
  { repeat split; intros; discriminate. }
  split; [| split; [| split; [| split; [| split; [| split]]]]].
  - intros p a q. cbn [parse_or_expr]. unfold bind.
    destruct (parse_and_expr tokens fuel p) as [l p1 | |] eqn:Hl;
      try discriminate.
    intros Hloop. destruct (Hand _ _ _ Hl) as (ts1 & Hs1 & Hd1).
    destruct (Horl _ _ _ _ Hloop ts1 (or_one _ _ Hd1)) as (ts2 & Hs2 & Hd2).
    exists (ts1 ++ ts2)%list.
    split; [eapply spans_app; eassumption | exact Hd2].
  - intros l p a q. cbn [or_loop]. run.
    all: try (intros [= <- <-] ts0 Hd0; exists []; rewrite app_nil_r;
              split; [apply spans_nil | exact Hd0]).
    intros Hloop ts0 Hd0. simplify_eq.
    match goal with
    | H : parse_and_expr _ _ _ = Val ?r _ |- _ =>
        destruct (Hand _ _ _ H) as (ts1 & Hs1 & Hd1)
    end.
    match goal with
    | H : tokens !! p = Some ?t |- _ =>
        destruct (Horl _ _ _ _ Hloop (ts0 ++ t :: ts1)%list)
          as (ts2 & Hs2 & Hd2);
        [ now apply or_more
        | exists (t :: ts1 ++ ts2)%list; split;
          [ eapply spans_cons; [eassumption |];
            eapply spans_app; eassumption
          | now rewrite <- app_assoc in Hd2 ] ]
    end.
  - intros p a q. cbn [parse_and_expr]. unfold bind.
    destruct (parse_cmp_expr tokens fuel p) as [l p1 | |] eqn:Hl;
      try discriminate.
    intros Hloop. destruct (Hcmp _ _ _ Hl) as (ts1 & Hs1 & Hd1).
    destruct (Handl _ _ _ _ Hloop ts1 (and_one _ _ Hd1)) as (ts2 & Hs2 & Hd2).
    exists (ts1 ++ ts2)%list.
    split; [eapply spans_app; eassumption | exact Hd2].
  - intros l p a q. cbn [and_loop]. run.
    all: try (intros [= <- <-] ts0 Hd0; exists []; rewrite app_nil_r;
              split; [apply spans_nil | exact Hd0]).
    intros Hloop ts0 Hd0. simplify_eq.
    match goal with
    | H : parse_cmp_expr _ _ _ = Val ?r _ |- _ =>
        destruct (Hcmp _ _ _ H) as (ts1 & Hs1 & Hd1)
    end.
    match goal with
    | H : tokens !! p = Some ?t |- _ =>
        destruct (Handl _ _ _ _ Hloop (ts0 ++ t :: ts1)%list)
          as (ts2 & Hs2 & Hd2);
        [ now apply and_more
        | exists (t :: ts1 ++ ts2)%list; split;
          [ eapply spans_cons; [eassumption |];
            eapply spans_app; eassumption
          | now rewrite <- app_assoc in Hd2 ] ]
    end.
  - intros p a q. cbn [parse_cmp_expr]. unfold bind at 1.
    destruct (parse_term tokens fuel p) as [l p1 | |] eqn:Hl;
      try discriminate.
    destruct (Hterm _ _ _ Hl) as (ts1 & Hs1 & Hd1).
    run; intros Hval; simplify_eq.
    + match goal with
      | H : parse_term _ _ (S _) = Val ?r _ |- _ =>
          destruct (Hterm _ _ _ H) as (ts2 & Hs2 & Hd2)
      end.
      match goal with
      | H : tokens !! p1 = Some ?t |- _ =>
          exists (ts1 ++ t :: ts2)%list; split;
          [ eapply spans_app; [eassumption |];
            eapply spans_cons; eassumption
          | apply cmp_two; try assumption ]
      end.
    + exists ts1. split; [assumption | now apply cmp_one].
  - intros p a q. cbn [parse_term]. run; intros Hval; simplify_eq.
    all: try (destruct (Hatom _ _ _ Hval) as (ts & Hs & Hd);
              exists ts; split; [assumption | now apply term_atom]).
    match goal with
    | H : parse_term _ _ _ = Val ?r _ |- _ =>
        destruct (Hterm _ _ _ H) as (ts & Hs & Hd)
    end.
    match goal with
    | H : tokens !! p = Some ?t |- _ =>
        exists (t :: ts); split;
        [ eapply spans_cons; eassumption | now apply term_not ]
    end.
  - intros p a q. cbn [parse_atom]. run; intros Hval;
      unfold ret, raise in *; simplify_eq.
    all: repeat match goal with
                | H : String.eqb _ _ = true |- _ => apply String.eqb_eq in H
                end.
    all: try (eexists; split; [span | econstructor; eassumption]; fail).
    match goal with
    | H : parse_or_expr _ _ _ = Val _ _ |- _ =>
        destruct (Hor _ _ _ H) as (ts & Hs & Hd)
    end.
    match goal with
    | H : tokens !! p = Some ?lp, H' : tokens !! ?q' = Some ?rp,
      Hs : spans _ ?q' _ |- _ =>
        exists (lp :: ts ++ [rp])%list; split;
        [ eapply spans_cons; [eassumption |];
          eapply spans_app; [eassumption |]; now apply spans_one
        | now apply atom_paren ]
    end.
Qed.

End Sound.

(** *** Every sentence is parsed *)

Section Complete.
Variable tokens : list Token.

(** The type of the token that follows a sentence. *)
Definition next (rest : list Token) : option TokenKind :=
  type <$> rest !! 0%nat.

(** What may follow a sentence of each level without being taken for a
    part of it. *)
Definition follow_atom (rest : list Token) : Prop :=
  next rest <> Some LPAREN.
Definition follow_cmp (rest : list Token) : Prop :=
  follow_atom rest /\ next rest ≫= op_map = None.
Definition follow_and (rest : list Token) : Prop :=
  follow_cmp rest /\ next rest <> Some AND.

Lemma drop_cons_lookup p t more :
  drop p tokens = t :: more ->
  tokens !! p = Some t /\ drop (S p) tokens = more.
Proof.
  intros Hdrop. split.
  - rewrite <- (Nat.add_0_r p), <- lookup_drop, Hdrop. reflexivity.
  - replace (S p) with (p + 1)%nat by lia.
    rewrite <- drop_drop, Hdrop. reflexivity.
Qed.

Lemma drop_after p ts rest :
  drop p tokens = (ts ++ rest)%list ->
  drop (p + List.length ts) tokens = rest.
Proof.
  intros Hdrop. rewrite <- drop_drop, Hdrop. apply drop_app_length.
Qed.

Lemma next_drop q rest :
  drop q tokens = rest -> type <$> tokens !! q = next rest.
Proof.
  intros <-. unfold next. now rewrite lookup_drop, Nat.add_0_r.
Qed.

Lemma or_loop_more f f' l p r :
  or_loop tokens f l p = r -> r <> Fuel -> (f <= f')%nat ->
  or_loop tokens f' l p = r.
Proof.
  intros <- Hne Hle.
  destruct (fuel_monotone tokens f f' Hle) as (_ & H & _).
  destruct (H l p) as [Hf | Hf]; [contradiction | now symmetry].
Qed.

Lemma and_loop_more f f' l p r :
  and_loop tokens f l p = r -> r <> Fuel -> (f <= f')%nat ->
  and_loop tokens f' l p = r.
Proof.
  intros <- Hne Hle.
  destruct (fuel_monotone tokens f f' Hle) as (_ & _ & _ & H & _).
  destruct (H l p) as [Hf | Hf]; [contradiction | now symmetry].
Qed.

(** A sentence of a level, standing at [p] and followed by [rest], is
    read by the method of the level, which returns its tree and stops
    behind it. For the two levels with a loop the statement is about the
    loop going on: the method returns what the loop returns when it is
    entered behind the sentence with the tree of the sentence. *)
Definition parses (level : Level) (ts : list Token) (a : ASTNode) : Prop :=
  forall p rest,
    drop p tokens = (ts ++ rest)%list ->
    let q := (p + List.length ts)%nat in
    match level with
    | LAtom =>
        follow_atom rest ->
        exists F, forall f, (F <= f)%nat -> parse_atom tokens f p = Val a q
    | LTerm =>
        follow_atom rest ->
        exists F, forall f, (F <= f)%nat -> parse_term tokens f p = Val a q
    | LCmp =>
        follow_cmp rest ->
        exists F, forall f, (F <= f)%nat ->
          parse_cmp_expr tokens f p = Val a q
    | LAnd =>
        follow_cmp rest ->
        forall f r, and_loop tokens f a q = r -> r <> Fuel ->
        exists F, forall f', (F <= f')%nat -> parse_and_expr tokens f' p = r
    | LOr =>
        follow_and rest ->
        forall f r, or_loop tokens f a q = r -> r <> Fuel ->
        exists F, forall f', (F <= f')%nat -> parse_or_expr tokens f' p = r
    end.

Lemma atom_first ts a :
  derives LAtom ts a -> exists t ts', ts = t :: ts' /\ type t <> NOT.
Proof.
  inversion 1; subst; eexists _, _; (split; [reflexivity | congruence]).
Qed.

Ltac peel :=
  repeat match goal with
         | H : drop _ tokens = _ :: _ |- _ =>
             apply drop_cons_lookup in H as [? H]
         end.

Ltac fire :=
  repeat (cbn [fmap option_fmap option_map mbind option_bind];
          match goal with
          | H : tokens !! _ = Some _ |- _ => rewrite H
          | H : type _ = _ |- _ => rewrite H
          | H : type <$> tokens !! _ = _ |- _ => rewrite H
          | H : value _ = _ |- _ => rewrite H
          | H : int_of_str _ = _ |- _ => rewrite H
          | |- context [decide (?k = ?k)] =>
              destruct (decide (k = k)) as [_ | ?]; [| congruence]
          end).

Lemma grammar_parses level ts a : derives level ts a -> parses level ts a.
Proof.
  induction 1 as
    [ ts a Hd IH | ts1 t ts2 l r Hd1 IH1 Ht Hd2 IH2
    | ts a Hd IH | ts1 t ts2 l r Hd1 IH1 Ht Hd2 IH2
    | ts a Hd IH | ts1 t ts2 l op r Hd1 IH1 Ht Hd2 IH2
    | t ts a Ht Hd IH | ts a Hd IH
    | lp ts rp a Hlp Hd IH Hrp
    | t z Ht Hz | t Ht | o d m Ho Hd Hm
    | o d m lp rp Ho Hd Hm Hlp Hrp
    | o d m lp s rp Ho Hd Hm Hlp Hs Hrp
    | g lp s rp Hg Hname Hlp Hs Hrp ];
    intros p rest Hdrop q; subst q.
  - (* or_one *)
    intros [Hcmp Hand] f r Hr Hne.
    pose proof (drop_after _ _ _ Hdrop) as Hq.
    apply next_drop in Hq.
    destruct (IH p rest Hdrop Hcmp 1%nat (Val a (p + List.length ts)%nat))
      as [F HF]; [| discriminate |].
    { apply and_loop_stop. now rewrite Hq. }
    exists (S (Nat.max F f)). intros [| f'] Hf'; [lia |].
    rewrite parse_or_expr_S. unfold bind. rewrite HF by lia.
    apply (or_loop_more f); [assumption | assumption | lia].
  - (* or_more *)
    intros [[Hatom Hop] Hand] f r0 Hr Hne.
    rewrite <- app_assoc in Hdrop. cbn [app] in Hdrop.
    pose proof (drop_after _ _ _ Hdrop) as Hq1. peel.
    pose proof (drop_after _ _ _ Hq1) as Hq. apply next_drop in Hq.
    rewrite length_app in Hr. cbn [List.length] in Hr.
    replace (p + (List.length ts1 + S (List.length ts2)))%nat
      with (S (p + List.length ts1) + List.length ts2)%nat in Hr by lia.
    destruct (IH2 _ rest Hq1 (conj Hatom Hop) 1%nat
                (Val r (S (p + List.length ts1) + List.length ts2)%nat))
      as [F2 HF2]; [| discriminate |].
    { apply and_loop_stop. now rewrite Hq. }
    apply (IH1 p (t :: ts2 ++ rest)%list Hdrop) with (f := S (Nat.max F2 f));
      [| | exact Hne].
    { unfold follow_and, follow_cmp, follow_atom, next. cbn. rewrite Ht.
      repeat split; discriminate || reflexivity. }
    cbn [or_loop]. unfold bind, current_type, consume. fire. cbn.
    rewrite HF2 by lia.
    apply (or_loop_more f); [assumption | assumption | lia].
  - (* and_one *)
    intros Hcmp f r Hr Hne.
    destruct (IH p rest Hdrop Hcmp) as [F HF].
    exists (S (Nat.max F f)). intros [| f'] Hf'; [lia |].
    rewrite parse_and_expr_S. unfold bind. rewrite HF by lia.
    apply (and_loop_more f); [assumption | assumption | lia].
  - (* and_more *)
    intros [Hatom Hop] f r0 Hr Hne.
    rewrite <- app_assoc in Hdrop. cbn [app] in Hdrop.
    pose proof (drop_after _ _ _ Hdrop) as Hq1. peel.
    rewrite length_app in Hr. cbn [List.length] in Hr.
    replace (p + (List.length ts1 + S (List.length ts2)))%nat
      with (S (p + List.length ts1) + List.length ts2)%nat in Hr by lia.
    destruct (IH2 _ rest Hq1 (conj Hatom Hop)) as [F2 HF2].
    apply (IH1 p (t :: ts2 ++ rest)%list Hdrop) with (f := S (Nat.max F2 f));
      [| | exact Hne].
    { unfold follow_cmp, follow_atom, next. cbn. rewrite Ht.
      repeat split; discriminate || reflexivity. }
    cbn [and_loop]. unfold bind, current_type, consume. fire. cbn.
    rewrite HF2 by lia.
    apply (and_loop_more f); [assumption | assumption | lia].
  - (* cmp_one *)
    intros [Hatom Hop].
    pose proof (drop_after _ _ _ Hdrop) as Hq. apply next_drop in Hq.
    destruct (IH p rest Hdrop Hatom) as [F HF].
    exists (S F). intros [| f] Hf; [lia |].
    cbn [parse_cmp_expr]. unfold bind, current_type. rewrite HF by lia.
    rewrite Hq, Hop. reflexivity.
  - (* cmp_two *)
    intros [Hatom Hop].
    rewrite <- app_assoc in Hdrop. cbn [app] in Hdrop.
    pose proof (drop_after _ _ _ Hdrop) as Hq1. peel.
    destruct (IH1 p (t :: ts2 ++ rest)%list Hdrop) as [F1 HF1].
    { unfold follow_atom, next. cbn. intros [= Hty]. rewrite Hty in Ht.
      discriminate. }
    destruct (IH2 _ rest Hq1 Hatom) as [F2 HF2].
    exists (S (Nat.max F1 F2)). intros [| f] Hf; [lia |].
    cbn [parse_cmp_expr]. unfold bind, current_type, consume.
    rewrite HF1 by lia. fire. cbn. rewrite Ht. fire.
    rewrite HF2 by lia. unfold ret. f_equal.
    rewrite length_app. cbn [List.length]. lia.
  - (* term_not *)
    intros Hatom. cbn [app] in Hdrop. peel.
    destruct (IH _ rest Hdrop Hatom) as [F HF].
    exists (S F). intros [| f] Hf; [lia |].
    cbn [parse_term]. unfold bind, current_type, consume. fire. cbn.
    rewrite HF by lia. unfold ret. f_equal. cbn [List.length]. lia.
  - (* term_atom *)
    intros Hatom.
    destruct (IH p rest Hdrop Hatom) as [F HF].
    destruct (atom_first _ _ Hd) as (t & ts' & -> & Hnot).
    cbn [app] in Hdrop. apply drop_cons_lookup in Hdrop as [Ht _].
    exists (S F). intros [| f] Hf; [lia |].
    cbn [parse_term]. unfold bind, current_type. rewrite Ht.
    cbn [fmap option_fmap option_map].
    rewrite <- (HF f) by lia.
    destruct (type t); try reflexivity. contradiction.
  - (* atom_paren *)
    intros _. cbn [app] in Hdrop. peel.
    rewrite <- app_assoc in Hdrop. cbn [app] in Hdrop.
    pose proof (drop_after _ _ _ Hdrop) as Hq.
    pose proof (next_drop _ _ Hq) as Hnext. peel.
    destruct (IH (S p) (rp :: rest) Hdrop) with
      (f := 1%nat) (r := Val a (S p + List.length ts)%nat) as [F HF];
      [| | discriminate |].
    { unfold follow_and, follow_cmp, follow_atom, next. cbn. rewrite Hrp.
      repeat split; discriminate || reflexivity. }
    { apply or_loop_stop. rewrite Hnext. unfold next. cbn. rewrite Hrp.
      discriminate. }
    exists (S F). intros [| f] Hf; [lia |].
    cbn [parse_atom]. unfold bind, current_token, consume. fire. cbn. fire.
    cbn. rewrite HF by lia. fire. cbn. unfold ret. f_equal.
    cbn [List.length]. rewrite length_app. cbn [List.length]. lia.
  - (* atom_number *)
    intros _. cbn [app] in Hdrop. peel.
    exists 1%nat. intros [| f] Hf; [lia |].
    cbn [parse_atom]. unfold bind, current_token, consume. fire. cbn. fire.
    cbn. fire. cbn. unfold ret. f_equal. cbn [List.length]. lia.
  - (* atom_string *)
    intros _. cbn [app] in Hdrop. peel.
    exists 1%nat. intros [| f] Hf; [lia |].
    cbn [parse_atom]. unfold bind, current_token, consume. fire. cbn. fire.
    cbn. unfold ret. f_equal. cbn [List.length]. lia.
  - (* atom_attribute *)
    intros Hfollow. cbn [app] in Hdrop. peel.
    apply next_drop in Hdrop.
    exists 1%nat. intros [| f] Hf; [lia |].
    cbn [parse_atom]. unfold bind, current_token, current_type, consume.
    fire. cbn. fire. cbn. fire. cbn. fire. cbn. fire.
    unfold follow_atom in Hfollow.
    destruct (next rest) as [[] |]; try contradiction;
      unfold ret; f_equal; cbn [List.length]; lia.
  - (* atom_call_0 *)
    intros _. cbn [app] in Hdrop. peel.
    exists 1%nat. intros [| f] Hf; [lia |].
    cbn [parse_atom]. unfold bind, current_token, current_type, consume.
    repeat (fire; cbn). unfold ret. f_equal. cbn [List.length]. lia.
  - (* atom_call_1 *)
    intros _. cbn [app] in Hdrop. peel.
    exists 1%nat. intros [| f] Hf; [lia |].
    cbn [parse_atom]. unfold bind, current_token, current_type, consume.
    repeat (fire; cbn). unfold ret. f_equal. cbn [List.length]. lia.
  - (* atom_group *)
    intros _. cbn [app] in Hdrop. peel.
    exists 1%nat. intros [| f] Hf; [lia |].
    cbn [parse_atom]. unfold bind, current_token, current_type, consume.
    repeat (fire; cbn). unfold ret. f_equal. cbn [List.length]. lia.
Qed.

End Complete.

(** *** [parse] and the grammar *)

Lemma parse_derives tokens ast :
  parse tokens = Ok ast -> derives LOr tokens ast.
Proof.
  unfold parse.
  destruct (parse_or_expr tokens (parse_fuel tokens) 0%nat)
    as [a q | |] eqn:Hor; try discriminate.
  destruct (tokens !! q) eqn:Hq; [discriminate |].
  intros [= <-].
  destruct (proj1 (parser_returns_sentences tokens _) _ _ _ Hor)
    as (ts & [Hdrop _] & Hd).
  apply lookup_ge_None in Hq.
  rewrite (drop_ge tokens q Hq), app_nil_r in Hdrop.
  rewrite drop_0 in Hdrop. now rewrite Hdrop.
Qed.

(** On a sentence [parse_or_expr], given the fuel of [parse] or more,
    consumes every token and returns the tree. *)
Lemma derives_runs tokens ast :
  derives LOr tokens ast ->
  forall fuel, (parse_fuel tokens <= fuel)%nat ->
    parse_or_expr tokens fuel 0%nat = Val ast (List.length tokens).
Proof.
  intros Hd.
  destruct (grammar_parses tokens _ _ _ Hd 0%nat [])
    with (f := 1%nat) (r := Val ast (List.length tokens)) as [F HF].
  - now rewrite app_nil_r.
  - unfold follow_and, follow_cmp, follow_atom, next. cbn.
    repeat split; discriminate.
  - apply or_loop_stop.
    rewrite (proj2 (lookup_ge_None tokens _) (Nat.le_refl _)).
    discriminate.
  - discriminate.
  - pose proof (parse_or_expr_fuel tokens F _ _ _ _
                  (HF F (Nat.le_refl _)) (parse_fuel_enough tokens))
      as Hrun.
    intros fuel Hle.
    destruct (fuel_monotone tokens _ _ Hle) as (Hor & _).
    destruct (Hor 0%nat) as [Hfuel | <-]; [congruence | exact Hrun].
Qed.

Lemma derives_parse tokens ast :
  derives LOr tokens ast -> parse tokens = Ok ast.
Proof.
  intros Hd. unfold parse.
  rewrite (derives_runs tokens ast Hd _ (Nat.le_refl _)).
  now rewrite (proj2 (lookup_ge_None tokens _) (Nat.le_refl _)).
Qed.

(** [parses_to tokens ast]: the token list is a sentence of [or_expr]
    and [ast] is its tree; the parsing methods, given the fuel of [parse]
    or more, consume every token and return the tree; and [parse] returns
    no other tree. *)
Definition parses_to (tokens : list Token) (ast : ASTNode) : Prop :=
  derives LOr tokens ast
  /\ (forall fuel, (parse_fuel tokens <= fuel)%nat ->
        parse_or_expr tokens fuel 0%nat = Val ast (List.length tokens))
  /\ (forall other, parse tokens = Ok other -> other = ast).

Lemma derives_parses_to tokens ast :
  derives LOr tokens ast -> parses_to tokens ast.
Proof.
  intros Hd. split; [exact Hd |]. split; [now apply derives_runs |].
  intros other Hother. rewrite (derives_parse tokens ast Hd) in Hother.
  congruence.
Qed.

(** X28. [parse] follows the grammar. An AST that [parse] returns for a
    token list is the tree of the list as a sentence of [or_expr], where
    [or] and [and] group to the left, [and] binds tighter than [or], a
    comparison takes two terms and is not chained, [not] applies to the
    term that follows, and parentheses hold any expression; the object
    and the member of an access are any identifiers, and a method call
    has one quoted argument or none. A sentence has one tree only; the
    parsing methods, given the depth of calls they need, consume the
    whole sentence and return that tree, and [parse] returns no other.
    That [parse] returns the tree of every sentence is not claimed: the
    recursion limit of the interpreter is outside the model, and on a
    sentence nested beyond it, some two hundred parentheses deep at the
    default limit, [parse] returns the error [Parse error: maximum
    recursion depth exceeded]. *)
Theorem parse_follows_the_grammar
    (tokens : list Token) (ast : ASTNode) :
  (parse tokens = Ok ast -> derives LOr tokens ast)
  /\ (derives LOr tokens ast ->
      (forall fuel, (parse_fuel tokens <= fuel)%nat ->
         parse_or_expr tokens fuel 0%nat = Val ast (List.length tokens))
      /\ (forall other, parse tokens = Ok other -> other = ast)
      /\ (forall other, derives LOr tokens other -> other = ast)).
Proof.
  split; [apply parse_derives |].
  intros Hd. split; [now apply derives_runs |].
  split.
  - apply (derives_parses_to tokens ast Hd).
  - intros other Hother.
    pose proof (derives_parse tokens ast Hd) as Hast.
    rewrite (derives_parse tokens other Hother) in Hast. congruence.
Qed.

Lemma derives_paren lp ts rp a :
  type lp = LPAREN -> type rp = RPAREN -> derives LOr ts a ->
  derives LTerm (lp :: ts ++ [rp]) a
  /\ derives LCmp (lp :: ts ++ [rp]) a
  /\ derives LAnd (lp :: ts ++ [rp]) a
  /\ derives LOr (lp :: ts ++ [rp]) a.
Proof.
  intros Hlp Hrp Hd.
  assert (Hterm : derives LTerm (lp :: ts ++ [rp]) a)
    by now apply term_atom, atom_paren.
  assert (Hcmp : derives LCmp (lp :: ts ++ [rp]) a) by now apply cmp_one.
  assert (Hand : derives LAnd (lp :: ts ++ [rp]) a) by now apply and_one.
  repeat split; try assumption. now apply or_one.
Qed.

(** X29. Clauses that parse can be put together. When [parse] returns
    an AST for a token list, the list in parentheses is a sentence with
    the same tree; with [not] before the parentheses its tree is the
    negation; and two such clauses in parentheses joined by [and] (by
    [or]) have the conjunction (the disjunction) of their ASTs for
    tree. For each of these sentences the parsing methods, given the
    depth of calls they need, return the tree, and [parse] returns no
    other; that it returns the tree is not claimed, since the added
    parentheses can take the nesting beyond the recursion limit of the
    interpreter, which is outside the model. *)
Theorem parsed_clauses_compose
    (ts1 ts2 : list Token) (a b : ASTNode) (lp rp lp' rp' n k : Token) :
  parse ts1 = Ok a -> parse ts2 = Ok b ->
  type lp = LPAREN -> type rp = RPAREN ->
  type lp' = LPAREN -> type rp' = RPAREN -> type n = NOT ->
  let first_clause := (lp :: ts1 ++ [rp])%list in
  let second_clause := (lp' :: ts2 ++ [rp'])%list in
  parses_to first_clause a
  /\ parses_to (n :: first_clause) (UnaryOp "not" a)
  /\ (type k = AND ->
      parses_to (first_clause ++ k :: second_clause)
        (BinaryOp a "and" b))
  /\ (type k = OR ->
      parses_to (first_clause ++ k :: second_clause)
        (BinaryOp a "or" b)).
Proof.
  intros Ha%parse_derives Hb%parse_derives Hlp Hrp Hlp' Hrp' Hn
    first_clause second_clause.
  destruct (derives_paren lp ts1 rp a Hlp Hrp Ha)
    as (Ht1 & Hc1 & Ha1 & Ho1).
  destruct (derives_paren lp' ts2 rp' b Hlp' Hrp' Hb)
    as (Ht2 & Hc2 & Ha2 & Ho2).
  split; [| split; [| split]].
  - now apply derives_parses_to.
  - apply derives_parses_to, or_one, and_one, cmp_one. now apply term_not.
  - intros Hk. apply derives_parses_to, or_one. now apply and_more.
  - intros Hk. apply derives_parses_to. now apply or_more.
Qed.

Lemma parsed_clauses_compose_witness :
  parses_to
    ([mkToken LPAREN "(" 0; mkToken IDENT "line" 1; mkToken DOT "." 5;
      mkToken IDENT "length" 6; mkToken RPAREN ")" 12]
     ++ mkToken OR "or" 14
     :: [mkToken LPAREN "(" 17; mkToken NUMBER "1" 18;
         mkToken RPAREN ")" 19])
    (BinaryOp (Attribute "line" "length") "or" (Literal (VInt 1))).
Proof.
  exact (proj2 (proj2 (proj2
           (parsed_clauses_compose
              [mkToken IDENT "line" 1; mkToken DOT "." 5;
               mkToken IDENT "length" 6]
              [mkToken NUMBER "1" 18]
              (Attribute "line" "length") (Literal (VInt 1))
              (mkToken LPAREN "(" 0) (mkToken RPAREN ")" 12)
              (mkToken LPAREN "(" 17) (mkToken RPAREN ")" 19)
              (mkToken NOT "not" 0) (mkToken OR "or" 14)
              eq_refl eq_refl eq_refl eq_refl eq_refl eq_refl eq_refl)))
         eq_refl).
Defined.

End GrammarLaws.

(** ** Several clauses and one conjunction *)

Module ClauseLaws.
Import Types WhereParser Filter FilterLaws.

(** X30. Two where-clauses are not the one clause that joins them with
    [and]. When both evaluate, the filter of the two clauses and the
    conjunction agree on the truth value. When the first clause is falsy
    and the second fails, the filter of the two clauses says false
    without a trace of the error, while the conjunction, which evaluates
    both operands, fails with it. When the first clause fails, both fail
    with its error. *)
Theorem two_clauses_are_not_their_conjunction
    (e1 e2 : string) (a b : ASTNode) (context : MatchContext) :
  parse_where_expression e1 = Ok a ->
  parse_where_expression e2 = Ok b ->
  let two_clauses := create_filter [e1; e2] context in
  let conjunction := evaluate_where (BinaryOp a "and" b) context in
  match evaluate_where a context, evaluate_where b context with
  | Ok va, Ok vb =>
      two_clauses = Ok (truthy va && truthy vb)
      /\ conjunction = Ok (VBool (truthy va && truthy vb))
  | Ok va, Err e =>
      conjunction = Err e
      /\ two_clauses = (if truthy va then Err e else Ok false)
  | Err e, _ =>
      two_clauses = Err e /\ conjunction = Err e
  end.
Proof.
  intros Ha Hb two_clauses conjunction.
  subst two_clauses conjunction.
  rewrite (create_filter_parsed [e1; e2] [a; b] context)
    by (repeat constructor; assumption).
  cbn [composite_filter]. unfold evaluate_where. cbn [_evaluate_node].
  destruct (_evaluate_node a context) as [va |],
    (_evaluate_node b context) as [vb |]; cbn [exc_bind];
    try (split; reflexivity).
  - unfold binary_op. cbn.
    destruct (truthy va), (truthy vb); split; reflexivity.
  - destruct (truthy va); split; reflexivity.
Qed.

Lemma two_clauses_are_not_their_conjunction_witness :
  evaluate_where
    (BinaryOp
       (BinaryOp (Attribute "line" "length") ">" (Literal (VInt 100)))
       "and"
       (BinaryOp (Attribute "line" "bogus") ">" (Literal (VInt 1))))
    (mkMatchContext (mkLine 1 "ERROR") ∅)
  = Err "Evaluation error: Unknown line attribute: bogus"
  /\ create_filter ["line.length > 100"; "line.bogus > 1"]
       (mkMatchContext (mkLine 1 "ERROR") ∅)
     = Ok false.
Proof.
  exact (two_clauses_are_not_their_conjunction
           "line.length > 100" "line.bogus > 1"
           (BinaryOp (Attribute "line" "length") ">" (Literal (VInt 100)))
           (BinaryOp (Attribute "line" "bogus") ">" (Literal (VInt 1)))
           (mkMatchContext (mkLine 1 "ERROR") ∅) eq_refl eq_refl).
Defined.

End ClauseLaws.
